(** * Social-media ranking: the resident engine and the streaming selector

    A shallow embedding of [ranking_engine.py],
    [streaming_ranking_engine.py] and the class methods of [config.py].

    - Python [float] is IEEE binary64: it is Rocq's primitive [float], with
      the kernel's own arithmetic and comparisons.
    - Python [int] is [Z].
    - An exception is a value of [exn]; a computation that may raise returns
      a [result].
    - The engine's methods thread the engine state explicitly and return it
      with their outcome, so the state left behind by a raise can be read.
    - [time.time()] is an argument [now]. A call reads the clock several
      times: once in every scorer call, for the stamp of a cache entry and
      for the age of every dict of a result. The clock is taken to stand
      still during one call, so all of these read the one [now]; what is
      proved of the scores of several posts is proved of scores at one
      clock reading.
    - [math.exp], [math.log10] and [round] come from the platform: they are
      the fields of a [PyMath] record that the scorers take as argument. *)

From Stdlib Require Import ZArith String List Bool Lia Sorted.
From Stdlib Require Import Floats.
From Stdlib Require Import Decimal DecimalString DecimalFacts DecimalN.
From stdpp Require Import base option list strings gmap sorting.

Local Open Scope string_scope.
Local Open Scope list_scope.
Local Open Scope Z_scope.
Set Warnings "-inexact-float".

(** ** Exceptions and results *)

Inductive exn : Type :=
| ValueError (msg : string)
| KeyError (key : string)
| TypeError (msg : string)
| IndexError
| ZeroDivisionError
| OverflowError
| AttributeError (msg : string).

Inductive result (A : Type) : Type :=
| Ok (a : A)
| Raise (e : exn).
Arguments Ok {A} a.
Arguments Raise {A} e.

#[global] Instance result_ret : MRet result := fun _ a => Ok a.
#[global] Instance result_bind : MBind result := fun _ _ f m =>
  match m with
  | Ok a => f a
  | Raise e => Raise e
  end.

#[global] Instance result_fmap : FMap result := fun _ _ f m =>
  match m with
  | Ok a => Ok (f a)
  | Raise e => Raise e
  end.

Definition is_ok {A} (r : result A) : bool :=
  match r with Ok _ => true | Raise _ => false end.

(** ** Floats *)

Module F.
(** [float(n)] for a Python int: the nearest double, ties to even;
    [OverflowError] when that is not finite. *)
Definition of_int (n : Z) : result float :=
  let f := SF2Prim (binary_normalize prec emax n 0 false) in
  if PrimFloat.is_infinity f then Raise OverflowError else Ok f.

(** [x / y] on floats: Python raises on a zero divisor. *)
Definition truediv (x y : float) : result float :=
  if PrimFloat.eqb y 0%float then Raise ZeroDivisionError
  else Ok (PrimFloat.div x y).
End F.

(** The platform's math library, as far as the scorers use it. [math.exp]
    gives no value when the result is out of range, and the call then raises
    [OverflowError]; [math.log10] is only ever applied to an int that is at
    least 1; [round(x, n)] on a float never raises. *)
Record PyMath : Type := {
  math_exp : float -> option float;
  math_log10 : Z -> float;
  py_round : float -> Z -> float
}.

Definition exp (M : PyMath) (x : float) : result float :=
  match math_exp M x with
  | Some y => Ok y
  | None => Raise OverflowError
  end.

(** ** Post *)

Record Post : Type := mkPost {
  post_id : string;
  likes : Z;
  comments : Z;
  shares : Z;
  upvotes : Z;
  downvotes : Z;
  timestamp : float;
  base_score : Z
}.

(** One entry of a [**kwargs] dict or of a post-data dict. A key that is a
    field of [Post] comes with a value of the type the field is declared
    with; [base_score] is declared a float and is only ever assigned an int
    by the code, and its keyword carries an int. [kw_other name] is an entry
    whose key is no field; its value is not modelled, and is taken to be
    plain data: no class and no dict. A list of entries stands for the dict
    built by inserting them in order, so a later entry for a key replaces an
    earlier one. *)
Inductive kwarg : Type :=
| kw_post_id (v : string)
| kw_likes (v : Z)
| kw_comments (v : Z)
| kw_shares (v : Z)
| kw_upvotes (v : Z)
| kw_downvotes (v : Z)
| kw_timestamp (v : float)
| kw_base_score (v : Z)
| kw_other (name : string).

Definition engagement_formula (l c s : Z) : Z := l + c * 2 + s * 3.

(** [Post.__post_init__] *)
Definition __post_init__ (p : Post) : Post :=
  mkPost (post_id p) (likes p) (comments p) (shares p) (upvotes p)
    (downvotes p) (timestamp p)
    (engagement_formula (likes p) (comments p) (shares p)).

(** The key is a field of [Post]: the keywords that the generated
    [__init__] accepts. *)
Definition is_field (k : kwarg) : bool :=
  match k with kw_other _ => false | _ => true end.

Definition kw_name (k : kwarg) : string :=
  match k with
  | kw_post_id _ => "post_id"
  | kw_likes _ => "likes"
  | kw_comments _ => "comments"
  | kw_shares _ => "shares"
  | kw_upvotes _ => "upvotes"
  | kw_downvotes _ => "downvotes"
  | kw_timestamp _ => "timestamp"
  | kw_base_score _ => "base_score"
  | kw_other name => name
  end.

Definition field_names : list string :=
  ["post_id"; "likes"; "comments"; "shares"; "upvotes"; "downvotes";
   "timestamp"; "base_score"].

(** The attributes of a [Post] object that are no entries of its dict: the
    class of the object, the dict itself and the list of weak references.
    [hasattr] holds for each of them, and [setattr] on them is no assignment
    to a field. *)
Definition slot_names : list string :=
  ["__class__"; "__dict__"; "__weakref__"].

Definition in_names (name : string) (names : list string) : bool :=
  existsb (String.eqb name) names.

(** [setattr(post, key, value)] for a field *)
Definition setattr (p : Post) (k : kwarg) : Post :=
  match k with
  | kw_post_id v =>
      mkPost v (likes p) (comments p) (shares p) (upvotes p) (downvotes p)
        (timestamp p) (base_score p)
  | kw_likes v =>
      mkPost (post_id p) v (comments p) (shares p) (upvotes p) (downvotes p)
        (timestamp p) (base_score p)
  | kw_comments v =>
      mkPost (post_id p) (likes p) v (shares p) (upvotes p) (downvotes p)
        (timestamp p) (base_score p)
  | kw_shares v =>
      mkPost (post_id p) (likes p) (comments p) v (upvotes p) (downvotes p)
        (timestamp p) (base_score p)
  | kw_upvotes v =>
      mkPost (post_id p) (likes p) (comments p) (shares p) v (downvotes p)
        (timestamp p) (base_score p)
  | kw_downvotes v =>
      mkPost (post_id p) (likes p) (comments p) (shares p) (upvotes p) v
        (timestamp p) (base_score p)
  | kw_timestamp v =>
      mkPost (post_id p) (likes p) (comments p) (shares p) (upvotes p)
        (downvotes p) v (base_score p)
  | kw_base_score v =>
      mkPost (post_id p) (likes p) (comments p) (shares p) (upvotes p)
        (downvotes p) (timestamp p) v
  | kw_other _ => p
  end.

Definition is_post_id_kw (k : kwarg) : bool :=
  match k with kw_post_id _ => true | _ => false end.

(** A method declared [def m(self, post_id, **kwargs)] cannot be called with
    a keyword [post_id] as well: the call itself raises. *)
Definition bind_call (kwargs : list kwarg) : result unit :=
  if existsb is_post_id_kw kwargs
  then Raise (TypeError "got multiple values for argument 'post_id'")
  else Ok tt.

(** [Post(post_id=post_id, **kwargs)]: the generated [__init__] rejects a
    keyword that is no field, fills the other fields with their defaults
    ([timestamp] with [time.time()]), and calls [__post_init__]. *)
Definition Post_new (pid : string) (kwargs : list kwarg) (now : float)
  : result Post :=
  if existsb is_post_id_kw kwargs
  then Raise (TypeError "got multiple values for keyword argument 'post_id'")
  else if forallb is_field kwargs
  then Ok (__post_init__
             (fold_left setattr kwargs (mkPost pid 0 0 0 0 0 now 0)))
  else Raise (TypeError "got an unexpected keyword argument").

(** ** Dicts *)

(** A [dict] with string keys, in insertion order: [d[k] = v] replaces the
    value of a key that is present where it stands, and appends otherwise. *)
Fixpoint dict_get {V} (k : string) (d : list (string * V)) : option V :=
  match d with
  | [] => None
  | (k', v) :: d' => if String.eqb k' k then Some v else dict_get k d'
  end.

Fixpoint dict_set {V} (k : string) (v : V) (d : list (string * V))
  : list (string * V) :=
  match d with
  | [] => [(k, v)]
  | (k', v') :: d' =>
      if String.eqb k' k then (k, v) :: d' else (k', v') :: dict_set k v d'
  end.

Definition dict_mem {V} (k : string) (d : list (string * V)) : bool :=
  match dict_get k d with Some _ => true | None => false end.

(** ** Scoring (RankingEngine._hot_score and its siblings) *)

Abbreviation weights_t := (list (string * float)).

(** [weights[key]] *)
Definition getitem (w : weights_t) (key : string) : result float :=
  match dict_get key w with
  | Some v => Ok v
  | None => Raise (KeyError key)
  end.

Definition default_weights : weights_t :=
  [("likes", 1.0%float); ("comments", 2.0%float); ("shares", 3.0%float);
   ("time_decay", 0.1%float)].

(** The keyword arguments the scorers read. *)
Record score_kwargs : Type := {
  kw_decay_rate : option float;
  kw_weights : option weights_t
}.

Definition no_kwargs : score_kwargs :=
  {| kw_decay_rate := None; kw_weights := None |}.

Definition unknown_algorithm (algorithm : string) : exn :=
  ValueError (String.append "Unknown algorithm: " algorithm).

Section Scoring.
Variable M : PyMath.

Definition _hot_score (post : Post) (now : float) : result float :=
  let diff := upvotes post - downvotes post in
  let order := math_log10 M (Z.max (Z.abs diff) 1) in
  let sign := if 0 <? diff then 1 else if diff <? 0 then -1 else 0 in
  c ← F.of_int 1134028003;
  let seconds := PrimFloat.sub (PrimFloat.sub now (timestamp post)) c in
  s ← F.of_int sign;
  d ← F.of_int 45000;
  q ← F.truediv seconds d;
  Ok (py_round M (PrimFloat.add (PrimFloat.mul s order) q) 7).

Definition _engagement_score (post : Post) (now : float) : result float :=
  let total_engagement :=
    likes post + comments post * 2 + shares post * 3 in
  let time_factor :=
    PrimFloat.add (PrimFloat.sub now (timestamp post)) 1%float in
  t ← F.of_int total_engagement;
  F.truediv t time_factor.

Definition _time_decay_score (post : Post) (decay_rate : float)
    (now : float) : result float :=
  let time_elapsed := PrimFloat.sub now (timestamp post) in
  e ← exp M (PrimFloat.mul (PrimFloat.opp decay_rate) time_elapsed);
  b ← F.of_int (base_score post);
  Ok (PrimFloat.mul b e).

Definition _hybrid_score (post : Post) (weights : option weights_t)
    (now : float) : result float :=
  let weights :=
    match weights with None => default_weights | Some w => w end in
  wl ← getitem weights "likes";
  l ← F.of_int (likes post);
  wc ← getitem weights "comments";
  c ← F.of_int (comments post);
  ws ← getitem weights "shares";
  s ← F.of_int (shares post);
  let engagement :=
    PrimFloat.add
      (PrimFloat.add (PrimFloat.mul l wl) (PrimFloat.mul c wc))
      (PrimFloat.mul s ws) in
  let time_elapsed := PrimFloat.sub now (timestamp post) in
  wt ← getitem weights "time_decay";
  time_factor ← exp M (PrimFloat.mul (PrimFloat.opp wt) time_elapsed);
  Ok (PrimFloat.mul engagement time_factor).

(** [StreamingRankingEngine._calculate_score], which calls the scorers
    of its [base_engine]. *)
Definition _calculate_score (post : Post) (algorithm : string)
    (kwargs : score_kwargs) (now : float) : result float :=
  if String.eqb algorithm "hot_score" then _hot_score post now
  else if String.eqb algorithm "engagement_score"
  then _engagement_score post now
  else if String.eqb algorithm "time_decay"
  then _time_decay_score post
         (default 0.01%float (kw_decay_rate kwargs)) now
  else if String.eqb algorithm "hybrid"
  then _hybrid_score post (kw_weights kwargs) now
  else Raise (unknown_algorithm algorithm).
End Scoring.


(** ** Lists *)

(** [l[:stop]] *)
Definition slice_to {A} (l : list A) (stop : Z) : list A :=
  if stop <? 0 then firstn (Z.to_nat (Z.of_nat (length l) + stop)) l
  else firstn (Z.to_nat stop) l.

(** [a < b] on [(score, post_id)] tuples: the first components that differ
    decide; strings compare by code point. *)
Definition score_id_lt (a b : float * string) : bool :=
  if PrimFloat.eqb a.1 b.1 then String.ltb a.2 b.2
  else PrimFloat.ltb a.1 b.1.

(** [list.sort(reverse=True)]: a stable sort into descending order. Python's
    sort is a merge sort; where [lt] is a strict weak order on the elements
    every stable sort returns the same list, and this one is the insertion
    sort. With a NaN among the scores [lt] is no such order, and Python's
    sort may leave the list in another order than this one: whatever is
    proved of the order of a sorted list assumes that no score is NaN, and
    without that only the sorted list's being a permutation of the list is
    relied on. *)
Fixpoint insert_desc {A} (lt : A -> A -> bool) (x : A) (l : list A) : list A :=
  match l with
  | [] => [x]
  | y :: l' => if lt x y then y :: insert_desc lt x l' else x :: l
  end.

Definition list_sort_reverse {A} (lt : A -> A -> bool) (l : list A) : list A :=
  fold_right (insert_desc lt) [] l.

(** ** RankingEngine *)

Record RankingEngine : Type := mkEngine {
  posts : list (string * Post);
  ranking_cache : gmap string (list (float * string));
  cache_timestamps : gmap string float;
  (** ghost: how many times [_invalidate_cache] has run *)
  invalidations : nat
}.

(** [RankingEngine()] *)
Definition new_engine : RankingEngine := mkEngine [] ∅ ∅ 0.

Definition cache_ttl : float := 60%float.

Definition set_posts (d : list (string * Post)) (e : RankingEngine)
  : RankingEngine :=
  mkEngine d (ranking_cache e) (cache_timestamps e) (invalidations e).

Definition _invalidate_cache (e : RankingEngine) : RankingEngine :=
  mkEngine (posts e) ∅ ∅ (S (invalidations e)).

Definition already_exists (pid : string) : exn :=
  ValueError (String.append "Post " (String.append pid " already exists")).

Definition not_found (pid : string) : exn :=
  ValueError (String.append "Post " (String.append pid " not found")).

Definition add_post (pid : string) (kwargs : list kwarg) (now : float)
    (e : RankingEngine) : result unit * RankingEngine :=
  match bind_call kwargs with
  | Raise x => (Raise x, e)
  | Ok _ =>
      if dict_mem pid (posts e) then (Raise (already_exists pid), e)
      else
        match Post_new pid kwargs now with
        | Raise x => (Raise x, e)
        | Ok p =>
            (Ok tt, _invalidate_cache (set_posts (dict_set pid p (posts e)) e))
        end
  end.

(** [setattr(post, key, value)] for a key that is no field and for which
    [hasattr] holds. On [__class__] it raises unless the value is a class, on
    [__dict__] unless the value is a dict, and on [__weakref__] whatever the
    value. On any other name it stores the value in the dict of the object,
    next to the fields. *)
Definition setattr_other (name : string) : result unit :=
  if String.eqb name "__class__"
  then Raise (TypeError "__class__ must be set to a class")
  else if String.eqb name "__dict__"
  then Raise (TypeError "__dict__ must be set to a dictionary")
  else if String.eqb name "__weakref__"
  then Raise (AttributeError
                "attribute '__weakref__' of 'Post' objects is not writable")
  else Ok tt.

(** One round of the loop of [update_post]:
    [if hasattr(post, key): setattr(post, key, value)]. A field is assigned.
    For a key that is no field [hasattr] holds when the class or [object]
    has an attribute of the name, as [__doc__] or [__eq__], and then
    [setattr_other] runs; for any other name the round does nothing. Both
    ways the fields of the post are as they were, unless the round raises. *)
Definition hasattr_setattr (post : Post) (k : kwarg) : result Post :=
  match k with
  | kw_other name => _ ← setattr_other name; Ok post
  | _ => Ok (setattr post k)
  end.

(** The loop of [update_post]. The post is one object, assigned in place:
    when a round raises, the post keeps what the rounds before it assigned,
    and the rounds after it do not run. *)
Fixpoint update_loop (post : Post) (kwargs : list kwarg)
  : result unit * Post :=
  match kwargs with
  | [] => (Ok tt, post)
  | k :: rest =>
      match hasattr_setattr post k with
      | Ok post' => update_loop post' rest
      | Raise x => (Raise x, post)
      end
  end.

(** The recalculation of [update_post]; [__post_init__] is the same
    assignment. *)
Definition recalculate (post : Post) : Post := __post_init__ post.

Definition update_post (pid : string) (kwargs : list kwarg)
    (e : RankingEngine) : result unit * RankingEngine :=
  match bind_call kwargs with
  | Raise x => (Raise x, e)
  | Ok _ =>
      match dict_get pid (posts e) with
      | None => (Raise (not_found pid), e)
      | Some post =>
          match update_loop post kwargs with
          | (Raise x, post') =>
              (Raise x, set_posts (dict_set pid post' (posts e)) e)
          | (Ok _, post') =>
              (Ok tt,
               _invalidate_cache
                 (set_posts (dict_set pid (recalculate post') (posts e)) e))
          end
      end
  end.

Definition _is_cache_valid (algorithm : string) (now : float)
    (e : RankingEngine) : bool :=
  match cache_timestamps e !! algorithm with
  | None => false
  | Some t => PrimFloat.ltb (PrimFloat.sub now t) cache_ttl
  end.

(** [post_data_copy.pop('post_id')]: the value of the key and the dict
    without it. *)
Definition pop_post_id (d : list kwarg) : result (string * list kwarg) :=
  match
    fold_left (fun o k => match k with kw_post_id v => Some v | _ => o end)
      d None
  with
  | None => Raise (KeyError "post_id")
  | Some v => Ok (v, List.filter (fun k => negb (is_post_id_kw k)) d)
  end.

Fixpoint batch_add_loop (posts_data : list (list kwarg)) (now : float)
    (e : RankingEngine) : result unit * RankingEngine :=
  match posts_data with
  | [] => (Ok tt, e)
  | post_data :: rest =>
      match pop_post_id post_data with
      | Raise x => (Raise x, e)
      | Ok (pid, post_data_copy) =>
          match Post_new pid post_data_copy now with
          | Raise x => (Raise x, e)
          | Ok p =>
              batch_add_loop rest now
                (set_posts (dict_set pid p (posts e)) e)
          end
      end
  end.

Definition batch_add_posts (posts_data : list (list kwarg)) (now : float)
    (e : RankingEngine) : result unit * RankingEngine :=
  match batch_add_loop posts_data now e with
  | (Ok _, e') => (Ok tt, _invalidate_cache e')
  | (Raise x, e') => (Raise x, e')
  end.

(** One dict of the list [get_ranked_posts] returns. *)
Record ranked : Type := mkRanked {
  r_rank : Z;
  r_post_id : string;
  r_score : float;
  r_likes : Z;
  r_comments : Z;
  r_shares : Z;
  r_upvotes : Z;
  r_downvotes : Z;
  r_timestamp : float;
  r_age_hours : float
}.

Section Engine.
Variable M : PyMath.

(** The chain of [if]s in the loop of [_calculate_scores]. *)
Definition _calculate_scores_body (post : Post) (algorithm : string)
    (kwargs : score_kwargs) (now : float) : result float :=
  if String.eqb algorithm "hot_score" then _hot_score M post now
  else if String.eqb algorithm "engagement_score"
  then _engagement_score post now
  else if String.eqb algorithm "time_decay"
  then _time_decay_score M post
         (default 0.01%float (kw_decay_rate kwargs)) now
  else if String.eqb algorithm "hybrid"
  then _hybrid_score M post (kw_weights kwargs) now
  else Raise (unknown_algorithm algorithm).

(** The [for post_id, post in self.posts.items()] loop of
    [_calculate_scores]. *)
Fixpoint _calculate_scores_loop (items : list (string * Post))
    (algorithm : string) (kwargs : score_kwargs) (now : float)
  : result (list (float * string)) :=
  match items with
  | [] => Ok []
  | (pid, post) :: rest =>
      score ← _calculate_scores_body post algorithm kwargs now;
      scores ← _calculate_scores_loop rest algorithm kwargs now;
      Ok ((score, pid) :: scores)
  end.

Definition _calculate_scores (algorithm : string) (kwargs : score_kwargs)
    (now : float) (e : RankingEngine) : result (list (float * string)) :=
  _calculate_scores_loop (posts e) algorithm kwargs now.

(** The loop that builds [result], from [rank] on. *)
Fixpoint ranked_loop (d : list (string * Post)) (now : float) (rank : Z)
    (entries : list (float * string)) : result (list ranked) :=
  match entries with
  | [] => Ok []
  | (score, pid) :: rest =>
      match dict_get pid d with
      | None => Raise (KeyError pid)
      | Some post =>
          tl ← ranked_loop d now (rank + 1) rest;
          Ok (mkRanked rank pid score (likes post) (comments post)
                (shares post) (upvotes post) (downvotes post)
                (timestamp post)
                (PrimFloat.div (PrimFloat.sub now (timestamp post))
                   3600%float)
              :: tl)
      end
  end.

Definition get_ranked_posts (algorithm : string) (limit : Z)
    (kwargs : score_kwargs) (now : float) (e : RankingEngine)
  : result (list ranked) * RankingEngine :=
  let cached :=
    if _is_cache_valid algorithm now e then
      match ranking_cache e !! algorithm with
      | None => (Raise (KeyError algorithm), e)
      | Some cached_scores => (Ok cached_scores, e)
      end
    else
      match _calculate_scores algorithm kwargs now e with
      | Raise x => (Raise x, e)
      | Ok scores =>
          let scores := list_sort_reverse score_id_lt scores in
          (Ok scores,
           mkEngine (posts e)
             (<[algorithm := scores]> (ranking_cache e))
             (<[algorithm := now]> (cache_timestamps e))
             (invalidations e))
      end
  in
  match cached with
  | (Raise x, e') => (Raise x, e')
  | (Ok cached_scores, e') =>
      (ranked_loop (posts e') now 1 (slice_to cached_scores limit), e')
  end.

(** [get_post_rank]: the rank of the first dict with the id. *)
Definition get_post_rank (pid : string) (algorithm : string)
    (kwargs : score_kwargs) (now : float) (e : RankingEngine)
  : result (option Z) * RankingEngine :=
  match
    get_ranked_posts algorithm (Z.of_nat (length (posts e))) kwargs now e
  with
  | (Raise x, e') => (Raise x, e')
  | (Ok ranked_posts, e') =>
      (Ok (r_rank <$>
             List.find (fun r => String.eqb (r_post_id r) pid) ranked_posts),
       e')
  end.
End Engine.


(** ** heapq (Python's standard library, [Lib/heapq.py])

    A heap is a list; [lt a b] is [a < b] on its items and may raise. The
    loops run on fuel that is never used up: [_siftdown] moves [pos] to a
    strictly smaller index and [_siftup] to a strictly larger one below
    [endpos]. *)
Module heapq.
Section Heapq.
Context {A : Type}.
Variable lt : A -> A -> result bool.

(** [l[i]] and [l[i] = x], for an index that is not negative *)
Definition getitem (l : list A) (i : nat) : result A :=
  match l !! i with Some x => Ok x | None => Raise IndexError end.

Definition setitem (l : list A) (i : nat) (x : A) : result (list A) :=
  if (i <? length l)%nat then Ok (<[i := x]> l) else Raise IndexError.

Fixpoint _siftdown_loop (fuel : nat) (heap : list A) (startpos pos : nat)
    (newitem : A) : result (list A) :=
  match fuel with
  | O => setitem heap pos newitem
  | S fuel' =>
      if (startpos <? pos)%nat then
        let parentpos := ((pos - 1) `div` 2)%nat in
        parent ← getitem heap parentpos;
        b ← lt newitem parent;
        if b : bool then
          heap' ← setitem heap pos parent;
          _siftdown_loop fuel' heap' startpos parentpos newitem
        else setitem heap pos newitem
      else setitem heap pos newitem
  end.

Definition _siftdown (heap : list A) (startpos pos : nat)
  : result (list A) :=
  newitem ← getitem heap pos;
  _siftdown_loop pos heap startpos pos newitem.

Fixpoint _siftup_loop (fuel : nat) (heap : list A) (endpos pos : nat)
  : result (list A * nat) :=
  match fuel with
  | O => Ok (heap, pos)
  | S fuel' =>
      let childpos := (2 * pos + 1)%nat in
      if (childpos <? endpos)%nat then
        let rightpos := (childpos + 1)%nat in
        childpos ←
          (if (rightpos <? endpos)%nat then
             c ← getitem heap childpos;
             r ← getitem heap rightpos;
             b ← lt c r;
             Ok (if b : bool then childpos else rightpos)
           else Ok childpos);
        child ← getitem heap childpos;
        heap' ← setitem heap pos child;
        _siftup_loop fuel' heap' endpos childpos
      else Ok (heap, pos)
  end.

Definition _siftup (heap : list A) (pos : nat) : result (list A) :=
  let endpos := length heap in
  let startpos := pos in
  newitem ← getitem heap pos;
  hp ← _siftup_loop endpos heap endpos pos;
  heap' ← setitem hp.1 hp.2 newitem;
  _siftdown heap' startpos hp.2.

Definition heappush (heap : list A) (item : A) : result (list A) :=
  let heap := heap ++ [item] in
  _siftdown heap 0 (length heap - 1).

(** Returns the item handed back and the heap. *)
Definition heappushpop (heap : list A) (item : A) : result (A * list A) :=
  match heap with
  | [] => Ok (item, heap)
  | top :: _ =>
      b ← lt top item;
      if b : bool then
        heap' ← setitem heap 0 item;
        heap'' ← _siftup heap' 0;
        Ok (top, heap'')
      else Ok (item, heap)
  end.
End Heapq.
End heapq.

(** [sorted(l, reverse=True)] with a comparison that may raise: the same
    stable insertion sort. A sort has to compare the items that end up next
    to each other; so where no score is NaN, every sort raises on the lists
    this one raises on, those with two unequal posts at equal scores. *)
Fixpoint insert_desc_r {A} (lt : A -> A -> result bool) (x : A) (l : list A)
  : result (list A) :=
  match l with
  | [] => Ok [x]
  | y :: l' =>
      b ← lt x y;
      if b : bool then r ← insert_desc_r lt x l'; Ok (y :: r)
      else Ok (x :: l)
  end.

Fixpoint sorted_reverse {A} (lt : A -> A -> result bool) (l : list A)
  : result (list A) :=
  match l with
  | [] => Ok []
  | x :: l' => s ← sorted_reverse lt l'; insert_desc_r lt x s
  end.

(** ** StreamingRankingEngine *)

(** [p == q] as [@dataclass] generates it: field by field. Python takes an
    object to be equal to itself before it looks at the fields; the identity
    of objects is not part of this model, and only shows on a post whose
    timestamp is NaN. *)
Definition Post_eqb (p q : Post) : bool :=
  String.eqb (post_id p) (post_id q)
  && (likes p =? likes q) && (comments p =? comments q)
  && (shares p =? shares q) && (upvotes p =? upvotes q)
  && (downvotes p =? downvotes q)
  && PrimFloat.eqb (timestamp p) (timestamp q)
  && (base_score p =? base_score q).

Definition unorderable : exn :=
  TypeError "'<' not supported between instances of 'Post' and 'Post'".

(** [a < b] on [(score, post)] tuples: the first components that differ
    decide, and [Post] defines no order. *)
Definition entry_lt (a b : float * Post) : result bool :=
  if PrimFloat.eqb a.1 b.1 then
    if Post_eqb a.2 b.2 then Ok false else Raise unorderable
  else Ok (PrimFloat.ltb a.1 b.1).

(** The fields of the result that do not come from measuring the process
    ([memory_usage_mb], [processing_time_seconds]). *)
Record StreamingRankingResult : Type := mkResult {
  top_posts : list (float * Post);
  total_posts_processed : Z;
  algorithm : string;
  batch_size : Z
}.

Section Streaming.
Variable M : PyMath.
(** [self.batch_size] *)
Variable self_batch_size : Z.

Section Call.
Variables (algorithm_ : string) (top_k : Z) (kwargs : score_kwargs)
  (now : float).

(** The body of [for post in batch]. The scorer reads the clock at every
    call; [now] stands for each of these readings. *)
Definition score_and_keep (min_heap : list (float * Post)) (post : Post)
  : result (list (float * Post)) :=
  score ← _calculate_score M post algorithm_ kwargs now;
  if Z.of_nat (length min_heap) <? top_k
  then heapq.heappush entry_lt min_heap (score, post)
  else snd <$> heapq.heappushpop entry_lt min_heap (score, post).

Fixpoint score_batch (batch : list Post) (min_heap : list (float * Post))
  : result (list (float * Post)) :=
  match batch with
  | [] => Ok min_heap
  | post :: rest =>
      min_heap' ← score_and_keep min_heap post;
      score_batch rest min_heap'
  end.

(** The [while True] loop; [it] is what the iterator has left. Every
    round but the last takes an item, so fuel [length it] is never used
    up. *)
Fixpoint batches (fuel : nat) (it : list Post)
    (min_heap : list (float * Post)) (total_posts : Z)
  : result (list (float * Post) * Z) :=
  let batch := take (Z.to_nat self_batch_size) it in
  let it' := drop (Z.to_nat self_batch_size) it in
  let total_posts := total_posts + Z.of_nat (length batch) in
  match batch, fuel with
  | [], _ | _, O => Ok (min_heap, total_posts)
  | _, S fuel' =>
      min_heap' ← score_batch batch min_heap;
      batches fuel' it' min_heap' total_posts
  end.

Definition rank_posts_streaming (post_iterator : list Post)
  : result StreamingRankingResult :=
  hp ← batches (length post_iterator) post_iterator [] 0;
  top ← sorted_reverse entry_lt hp.1;
  Ok (mkResult top hp.2 algorithm_ self_batch_size).
End Call.
End Streaming.


(** ** generate_test_posts *)

(** [f'{i:08d}']: the decimal digits of [i], filled with zeros on the left
    to eight characters, the sign included. *)
Definition format_08d (i : Z) : string :=
  let d := N.to_uint (Z.to_N (Z.abs i)) in
  if i <? 0
  then String.append "-" (NilEmpty.string_of_uint (Nat.iter (7 - nb_digits d) D0 d))
  else NilEmpty.string_of_uint (Nat.iter (8 - nb_digits d) D0 d).

(** The body of the loop of [generate_test_posts]: the post it yields for
    [i]. The timestamp is given, so the clock is not read for it. *)
Definition test_post (base_time : float) (i : Z) : result Post :=
  let likes := (i * 7) mod 10000 + 1 in
  let comments := (i * 3) mod 1000 + 1 in
  let shares := (i * 5) mod 500 + 1 in
  let upvotes := likes + i mod 100 in
  let downvotes := i mod 50 in
  age ← F.of_int (i mod (86400 * 30));
  let timestamp := PrimFloat.sub base_time age in
  Post_new (String.append "post_" (format_08d i))
    [kw_likes likes; kw_comments comments; kw_shares shares;
     kw_upvotes upvotes; kw_downvotes downvotes; kw_timestamp timestamp]
    base_time.

(** The posts the generator yields, [base_time] being the clock when it
    starts. *)
Definition generate_test_posts (num_posts : Z) (base_time : float)
  : result (list Post) :=
  mapM (test_post base_time) (Z.of_nat <$> seq 0 (Z.to_nat num_posts)).

(** ** RankingEngine.get_stats *)

(** A number that is an [int] or a [float]. *)
Inductive number : Type :=
| Int (n : Z)
| Float (x : float).

(** [a / b] on ints: the double nearest to the quotient, ties to even. The
    quotient is cut after at least 55 bits, with one more bit that says
    whether anything was cut off, and rounded from there. A zero divisor
    raises, and so does a quotient too large for a double. *)
Definition int_truediv (a b : Z) : result float :=
  if b =? 0 then Raise ZeroDivisionError
  else
    let negate := xorb (a <? 0) (b <? 0) in
    if a =? 0 then Ok (if negate then (-0)%float else 0%float)
    else
      let k := Z.max 0 (55 + Z.log2 (Z.abs b) - Z.log2 (Z.abs a)) in
      let q := (Z.abs a * 2 ^ k) / Z.abs b in
      let r := (Z.abs a * 2 ^ k) mod Z.abs b in
      let m := 2 * q + (if r =? 0 then 0 else 1) in
      let f :=
        SF2Prim
          (binary_normalize prec emax (if negate then - m else m) (- k - 1)
             false) in
      if PrimFloat.is_infinity f then Raise OverflowError else Ok f.

Record stats : Type := mkStats {
  total_posts : Z;
  total_likes : Z;
  total_comments : Z;
  total_shares : Z;
  avg_likes_per_post : number;
  avg_comments_per_post : number;
  avg_shares_per_post : number;
  cache_size : Z;
  memory_usage_mb : float
}.

(** [sum(post.f for post in self.posts.values())] *)
Definition sum_of (f : Post -> Z) (d : list (string * Post)) : Z :=
  fold_left (fun acc kp => acc + f kp.2) d 0.

(** [total / total_posts if total_posts > 0 else 0] *)
Definition average (total total_posts_ : Z) : result number :=
  if 0 <? total_posts_ then Float <$> int_truediv total total_posts_
  else Ok (Int 0).

Definition _estimate_memory_usage (e : RankingEngine) : result float :=
  let post_memory := Z.of_nat (length (posts e)) * 200 in
  let cache_memory := Z.of_nat (size (ranking_cache e)) * 1000 in
  int_truediv (post_memory + cache_memory) (1024 * 1024).

Definition get_stats (e : RankingEngine) : result stats :=
  let total_posts_ := Z.of_nat (length (posts e)) in
  let total_likes_ := sum_of likes (posts e) in
  let total_comments_ := sum_of comments (posts e) in
  let total_shares_ := sum_of shares (posts e) in
  al ← average total_likes_ total_posts_;
  ac ← average total_comments_ total_posts_;
  ash ← average total_shares_ total_posts_;
  mem ← _estimate_memory_usage e;
  Ok (mkStats total_posts_ total_likes_ total_comments_ total_shares_
        al ac ash (Z.of_nat (size (ranking_cache e))) mem).

(** ** RankingConfig ([config.py]) *)

(** A value of the parameter dicts of [RankingConfig.ALGORITHM_PARAMS]. *)
Inductive param : Type :=
| p_str (s : string)
| p_int (n : Z)
| p_float (x : float)
| p_bool (b : bool)
| p_dict (d : weights_t).

Module RankingConfig.
Definition ALGORITHM_PARAMS : list (string * list (string * param)) :=
  [("hot_score",
    [("description", p_str "Reddit-style hot score algorithm");
     ("time_weight", p_int 45000); ("order_base", p_int 10);
     ("epoch_offset", p_int 1134028003)]);
   ("engagement_score",
    [("description", p_str "Engagement-based ranking algorithm");
     ("like_weight", p_float 1.0%float); ("comment_weight", p_float 2.0%float);
     ("share_weight", p_float 3.0%float); ("time_factor", p_float 1.0%float)]);
   ("time_decay",
    [("description", p_str "Time-decay ranking algorithm");
     ("decay_rate", p_float 0.1%float);
     ("base_score_weights",
      p_dict [("likes", 1.0%float); ("comments", 2.0%float);
              ("shares", 3.0%float)])]);
   ("hybrid",
    [("description", p_str "Hybrid multi-factor ranking algorithm");
     ("weights",
      p_dict [("likes", 1.0%float); ("comments", 2.0%float);
              ("shares", 3.0%float); ("time_decay", 0.1%float)]);
     ("normalize_scores", p_bool true)])].

(** [cls.ALGORITHM_PARAMS.get(algorithm, {})] *)
Definition get_algorithm_params (algorithm : string)
  : list (string * param) :=
  default [] (dict_get algorithm ALGORITHM_PARAMS).

Definition DEFAULT_HYBRID_WEIGHTS : weights_t :=
  [("likes", 1.0%float); ("comments", 2.0%float); ("shares", 3.0%float);
   ("time_decay", 0.1%float); ("recency_boost", 1.2%float);
   ("viral_penalty", 0.8%float)].

Definition ENGAGEMENT_THRESHOLDS : list (string * Z) :=
  [("viral_likes", 10000); ("viral_comments", 500); ("viral_shares", 1000);
   ("high_engagement_likes", 1000); ("high_engagement_comments", 100);
   ("high_engagement_shares", 200); ("low_engagement_likes", 10);
   ("low_engagement_comments", 1); ("low_engagement_shares", 1)].

(** [d.update(other)] *)
Definition update {V} (d other : list (string * V)) : list (string * V) :=
  fold_left (fun d kv => dict_set kv.1 kv.2 d) other d.

(** [if custom_weights:] holds for a dict that is not empty. *)
Definition get_hybrid_weights (custom_weights : option weights_t)
  : weights_t :=
  let weights := DEFAULT_HYBRID_WEIGHTS in
  match custom_weights with
  | Some ((_ :: _) as custom) => update weights custom
  | _ => weights
  end.

(** [cls.ENGAGEMENT_THRESHOLDS[key]] *)
Definition threshold (key : string) : result Z :=
  match dict_get key ENGAGEMENT_THRESHOLDS with
  | Some v => Ok v
  | None => Raise (KeyError key)
  end.

Definition is_viral_post (likes_ comments_ shares_ : Z) : result bool :=
  tl ← threshold "viral_likes";
  if tl <=? likes_ then Ok true
  else
    tc ← threshold "viral_comments";
    if tc <=? comments_ then Ok true
    else ts ← threshold "viral_shares"; Ok (ts <=? shares_).

Definition is_high_engagement (likes_ comments_ shares_ : Z) : result bool :=
  tl ← threshold "high_engagement_likes";
  if tl <=? likes_ then Ok true
  else
    tc ← threshold "high_engagement_comments";
    if tc <=? comments_ then Ok true
    else ts ← threshold "high_engagement_shares"; Ok (ts <=? shares_).

Definition is_low_engagement (likes_ comments_ shares_ : Z) : result bool :=
  tl ← threshold "low_engagement_likes";
  if likes_ <=? tl then
    tc ← threshold "low_engagement_comments";
    if comments_ <=? tc then
      ts ← threshold "low_engagement_shares"; Ok (shares_ <=? ts)
    else Ok false
  else Ok false.
End RankingConfig.


(** * The order of floats

    [<], [==] and [<=] on floats, read through the kernel's specification
    of binary64: a float that is not NaN has a key in [Z * Z * Z], and the
    comparisons are the lexicographic comparison of the keys. *)
Module FloatOrder.
Definition lex3 (a b : Z * Z * Z) : comparison :=
  match a.1.1 ?= b.1.1 with
  | Eq => match a.1.2 ?= b.1.2 with
          | Eq => a.2 ?= b.2
          | c => c
          end
  | c => c
  end.

Definition key (x : spec_float) : option (Z * Z * Z) :=
  match x with
  | S754_nan => None
  | S754_infinity true => Some (-2, 0, 0)
  | S754_infinity false => Some (2, 0, 0)
  | S754_zero _ => Some (0, 0, 0)
  | S754_finite false m e => Some (1, e, Z.pos m)
  | S754_finite true m e => Some (-1, - e, Z.neg m)
  end.

Definition fkey (x : float) : option (Z * Z * Z) := key (Prim2SF x).

Lemma SFcompare_key x y :
  SFcompare x y =
  match key x, key y with
  | Some a, Some b => Some (lex3 a b)
  | _, _ => None
  end.
Proof.
  destruct x as [[]| [] | |[] m1 e1], y as [[]| [] | |[] m2 e2];
    try reflexivity; cbn [SFcompare key]; unfold lex3; cbn [fst snd];
    f_equal.
  cbn. rewrite Z.compare_opp, (Z.compare_antisym e1 e2).
  destruct (e1 ?= e2); reflexivity.
Qed.

Lemma ltb_key x y :
  PrimFloat.ltb x y =
  match fkey x, fkey y with
  | Some a, Some b => match lex3 a b with Lt => true | _ => false end
  | _, _ => false
  end.
Proof.
  rewrite FloatAxioms.ltb_spec. unfold SFltb, fkey. rewrite SFcompare_key.
  destruct (key (Prim2SF x)), (key (Prim2SF y)); reflexivity.
Qed.

Lemma eqb_key x y :
  PrimFloat.eqb x y =
  match fkey x, fkey y with
  | Some a, Some b => match lex3 a b with Eq => true | _ => false end
  | _, _ => false
  end.
Proof.
  rewrite FloatAxioms.eqb_spec. unfold SFeqb, fkey. rewrite SFcompare_key.
  destruct (key (Prim2SF x)), (key (Prim2SF y)); reflexivity.
Qed.

Lemma leb_key x y :
  PrimFloat.leb x y =
  match fkey x, fkey y with
  | Some a, Some b => match lex3 a b with Gt => false | _ => true end
  | _, _ => false
  end.
Proof.
  rewrite FloatAxioms.leb_spec. unfold SFleb, fkey. rewrite SFcompare_key.
  destruct (key (Prim2SF x)), (key (Prim2SF y)); try reflexivity.
Qed.

Lemma lex3_spec a b :
  match lex3 a b with
  | Eq => a = b
  | Lt => a.1.1 < b.1.1 \/ (a.1.1 = b.1.1 /\
            (a.1.2 < b.1.2 \/ (a.1.2 = b.1.2 /\ a.2 < b.2)))
  | Gt => b.1.1 < a.1.1 \/ (a.1.1 = b.1.1 /\
            (b.1.2 < a.1.2 \/ (a.1.2 = b.1.2 /\ b.2 < a.2)))
  end.
Proof.
  destruct a as [[a1 a2] a3], b as [[b1 b2] b3]. unfold lex3. cbn.
  destruct (Z.compare_spec a1 b1); [|lia|lia].
  destruct (Z.compare_spec a2 b2); [|lia|lia].
  destruct (Z.compare_spec a3 b3); [congruence|lia|lia].
Qed.

(** [x == x], that is, [x] is not NaN. *)
Definition not_nan (x : float) : Prop := PrimFloat.eqb x x = true.

Lemma not_nan_key x : not_nan x <-> is_Some (fkey x).
Proof.
  unfold not_nan. rewrite eqb_key. destruct (fkey x) as [a|].
  - pose proof (lex3_spec a a). destruct (lex3 a a);
      split; intros; eauto; lia.
  - split; [discriminate | intros [? ?]; discriminate].
Qed.

Ltac keys :=
  unfold not_nan in *;
  rewrite ?ltb_key, ?eqb_key, ?leb_key in *;
  repeat match goal with
  | |- context [fkey ?x] => destruct (fkey x)
  | H : context [fkey ?x] |- _ => destruct (fkey x)
  end;
  try discriminate; try reflexivity;
  repeat match goal with
  | |- context [lex3 ?a ?b] =>
      pose proof (lex3_spec a b); destruct (lex3 a b)
  | H : context [lex3 ?a ?b] |- _ =>
      pose proof (lex3_spec a b); destruct (lex3 a b)
  end;
  try discriminate; try reflexivity; subst; try lia.

Lemma eqb_not_nan x y : PrimFloat.eqb x y = true -> not_nan x /\ not_nan y.
Proof.
  intros H. split; apply not_nan_key; rewrite eqb_key in H;
    destruct (fkey x), (fkey y); try discriminate; eauto.
Qed.

Lemma ltb_not_nan x y : PrimFloat.ltb x y = true -> not_nan x /\ not_nan y.
Proof.
  intros H. split; apply not_nan_key; rewrite ltb_key in H;
    destruct (fkey x), (fkey y); try discriminate; eauto.
Qed.

Lemma eqb_sym x y : PrimFloat.eqb x y = PrimFloat.eqb y x.
Proof. keys. Qed.

Lemma eqb_trans x y z :
  PrimFloat.eqb x y = true -> PrimFloat.eqb y z = true ->
  PrimFloat.eqb x z = true.
Proof. intros H1 H2. keys. Qed.

Lemma ltb_irrefl x : PrimFloat.ltb x x = false.
Proof. keys. Qed.

Lemma ltb_trans x y z :
  PrimFloat.ltb x y = true -> PrimFloat.ltb y z = true ->
  PrimFloat.ltb x z = true.
Proof. intros H1 H2. keys. Qed.

Lemma ltb_asym x y : PrimFloat.ltb x y = true -> PrimFloat.ltb y x = false.
Proof. intros H1. keys. Qed.

Lemma ltb_eqb x y : PrimFloat.ltb x y = true -> PrimFloat.eqb x y = false.
Proof. intros H1. keys. Qed.

(** Two floats that are not NaN are comparable. *)
Lemma trichotomy x y :
  not_nan x -> not_nan y ->
  PrimFloat.ltb x y = true \/ PrimFloat.eqb x y = true \/
  PrimFloat.ltb y x = true.
Proof.
  intros Hx Hy. apply not_nan_key in Hx as [a Ha], Hy as [b Hb].
  rewrite !ltb_key, eqb_key, Ha, Hb.
  pose proof (lex3_spec a b). pose proof (lex3_spec b a).
  destruct (lex3 a b), (lex3 b a); auto; subst; lia.
Qed.

Lemma eqb_ltb_l x y z :
  PrimFloat.eqb x y = true -> PrimFloat.ltb x z = PrimFloat.ltb y z.
Proof. intros H1. keys. Qed.

Lemma eqb_ltb_r x y z :
  PrimFloat.eqb x y = true -> PrimFloat.ltb z x = PrimFloat.ltb z y.
Proof. intros H1. keys. Qed.


End FloatOrder.

(** * The item store *)

(** ** Dicts *)

Lemma dict_get_set_eq {V} k (v : V) d : dict_get k (dict_set k v d) = Some v.
Proof.
  induction d as [|[k' v'] d IH]; cbn.
  - by rewrite String.eqb_refl.
  - destruct (String.eqb k' k) eqn:E; cbn.
    + by rewrite String.eqb_refl.
    + by rewrite E.
Qed.

Lemma dict_get_set_ne {V} k k' (v : V) d :
  k ≠ k' -> dict_get k' (dict_set k v d) = dict_get k' d.
Proof.
  intros Hne. induction d as [|[k0 v0] d IH]; cbn.
  - destruct (String.eqb_spec k k'); congruence.
  - destruct (String.eqb_spec k0 k) as [->|Hk]; cbn.
    + destruct (String.eqb_spec k k'); congruence.
    + destruct (String.eqb_spec k0 k'); congruence.
Qed.

Lemma dict_set_Forall {V} (P : string * V -> Prop) k v d :
  P (k, v) -> Forall P d -> Forall P (dict_set k v d).
Proof.
  intros Hv. induction 1 as [|[k' v'] d Hx Hd IH]; cbn.
  - by constructor.
  - destruct (String.eqb k' k); by constructor.
Qed.

Lemma dict_get_Forall {V} (P : string * V -> Prop) k v d :
  Forall P d -> dict_get k d = Some v -> P (k, v).
Proof.
  induction 1 as [|[k' v'] d Hx Hd IH]; cbn; [done|].
  destruct (String.eqb_spec k' k) as [->|]; [|done].
  by intros [= ->].
Qed.

(** What [update_post] leaves behind: the engine as it was, when the call
    raises before its loop; the post replaced and the cache as it was, when
    the loop raises; the post replaced and the cache emptied, when the call
    returns. *)
Lemma update_post_state pid kwargs e :
  (update_post pid kwargs e).2 = e \/
  exists p p',
    dict_get pid (posts e) = Some p /\
    ((update_post pid kwargs e).2 = set_posts (dict_set pid p' (posts e)) e \/
     (update_post pid kwargs e).2
     = _invalidate_cache (set_posts (dict_set pid p' (posts e)) e)).
Proof.
  unfold update_post. destruct (bind_call kwargs); [|by left].
  destruct (dict_get pid (posts e)) as [p|]; [|by left].
  right. exists p.
  destruct (update_loop p kwargs) as [[[]|x] p']; eexists; eauto.
Qed.

(** ** The base score *)

Definition base_ok (p : Post) : Prop :=
  base_score p = likes p + 2 * comments p + 3 * shares p.

Lemma post_init_base_ok p : base_ok (__post_init__ p).
Proof. unfold base_ok, __post_init__, engagement_formula. cbn. lia. Qed.

Lemma Post_new_base_ok pid kwargs now p :
  Post_new pid kwargs now = Ok p -> base_ok p.
Proof.
  unfold Post_new. destruct (existsb _ _); [done|].
  destruct (forallb _ _); [|done]. intros [= <-]. apply post_init_base_ok.
Qed.

Definition store_ok (e : RankingEngine) : Prop :=
  Forall (fun kp => base_ok kp.2) (posts e).

Lemma add_post_store_ok pid kwargs now e :
  store_ok e -> store_ok (add_post pid kwargs now e).2.
Proof.
  intros H. unfold add_post. destruct (bind_call kwargs); [|done].
  destruct (dict_mem pid (posts e)); [done|].
  destruct (Post_new pid kwargs now) as [p|] eqn:E; [|done].
  apply dict_set_Forall; [|done]. by eapply Post_new_base_ok.
Qed.

(** An [update_post] that does not raise inside its loop keeps the store
    in order: it returns after the recalculation, or it raised before the
    loop. *)
Lemma update_post_store_ok pid kwargs e :
  (forall p x p',
     dict_get pid (posts e) = Some p ->
     update_loop p kwargs ≠ (Raise x, p')) ->
  store_ok e -> store_ok (update_post pid kwargs e).2.
Proof.
  intros Hloop H. unfold update_post. destruct (bind_call kwargs); [|done].
  destruct (dict_get pid (posts e)) as [p|]; [|done].
  destruct (update_loop p kwargs) as [[[]|x] p'] eqn:E.
  - apply dict_set_Forall; [|done]. apply post_init_base_ok.
  - by destruct (Hloop p x p' eq_refl).
Qed.

Lemma batch_add_loop_store_ok posts_data now e :
  store_ok e -> store_ok (batch_add_loop posts_data now e).2.
Proof.
  revert e. induction posts_data as [|d rest IH]; intros e H; cbn; [done|].
  destruct (pop_post_id d) as [[pid copy]|]; [|done].
  destruct (Post_new pid copy now) as [p|] eqn:E; [|done].
  apply IH. apply dict_set_Forall; [|done]. by eapply Post_new_base_ok.
Qed.

Lemma batch_add_posts_store_ok posts_data now e :
  store_ok e -> store_ok (batch_add_posts posts_data now e).2.
Proof.
  intros H. unfold batch_add_posts.
  pose proof (batch_add_loop_store_ok posts_data now e H) as H'.
  by destruct (batch_add_loop posts_data now e) as [[]?].
Qed.

Section EngineFacts.
Variable M : PyMath.

Lemma get_ranked_posts_posts algorithm limit kwargs now e :
  posts (get_ranked_posts M algorithm limit kwargs now e).2 = posts e.
Proof.
  unfold get_ranked_posts. destruct (_is_cache_valid algorithm now e).
  - by destruct (ranking_cache e !! algorithm).
  - by destruct (_calculate_scores M algorithm kwargs now e).
Qed.

Lemma get_post_rank_state pid algorithm kwargs now e :
  (get_post_rank M pid algorithm kwargs now e).2 =
  (get_ranked_posts M algorithm (Z.of_nat (length (posts e))) kwargs now
     e).2.
Proof.
  unfold get_post_rank.
  by destruct (get_ranked_posts M algorithm _ kwargs now e) as [[]?].
Qed.

(** The states an engine can be in: those its public methods lead to from
    [RankingEngine()], whatever their arguments and whether they return or
    raise, also when [update_post] raises inside its loop. *)
Inductive reachable : RankingEngine -> Prop :=
| reach_new : reachable new_engine
| reach_add e pid kwargs now :
    reachable e -> reachable (add_post pid kwargs now e).2
| reach_update e pid kwargs :
    reachable e -> reachable (update_post pid kwargs e).2
| reach_batch e posts_data now :
    reachable e -> reachable (batch_add_posts posts_data now e).2
| reach_ranked e algorithm limit kwargs now :
    reachable e ->
    reachable (get_ranked_posts M algorithm limit kwargs now e).2
| reach_rank e pid algorithm kwargs now :
    reachable e -> reachable (get_post_rank M pid algorithm kwargs now e).2.

End EngineFacts.

(** ** Closed examples

    A math library for the closed examples of this file. None of them
    reaches a call of it: they score with [engagement_score], or stop before
    a scorer calls the library. *)
Definition no_math : PyMath :=
  {| math_exp := fun _ => None;
     math_log10 := fun _ => PrimFloat.nan;
     py_round := fun x _ => x |}.

(** [add_post("a", likes=100, comments=20)] at time 0, then
    [update_post("a", likes=150, comments=30, base_score=7)]. *)
Definition store_a : RankingEngine :=
  (add_post "a" [kw_likes 100; kw_comments 20] 0%float new_engine).2.

Definition store_a_updated : RankingEngine :=
  (update_post "a" [kw_likes 150; kw_comments 30; kw_base_score 7]
     store_a).2.

(** ** Rejected calls *)

(** C5. [add_post] with an id that is present raises [ValueError] ("already
    exists") and [update_post] with an id that is absent raises [ValueError]
    ("not found"); the engine is then exactly as before the call. *)
Theorem rejected_calls_leave_the_store e pid kwargs now :
  bind_call kwargs = Ok tt ->
  (is_Some (dict_get pid (posts e)) ->
   add_post pid kwargs now e = (Raise (already_exists pid), e)) /\
  (dict_get pid (posts e) = None ->
   update_post pid kwargs e = (Raise (not_found pid), e)).
Proof.
  intros Hb. split.
  - intros [p Hp]. unfold add_post, dict_mem. by rewrite Hb, Hp.
  - intros Hp. unfold update_post. by rewrite Hb, Hp.
Qed.

Lemma rejected_calls_leave_the_store_witness :
  add_post "a" [kw_likes 200] 1%float store_a
  = (Raise (ValueError "Post a already exists"), store_a) /\
  update_post "nonexistent" [kw_likes 100] store_a
  = (Raise (ValueError "Post nonexistent not found"), store_a).
Proof.
  split.
  - apply (rejected_calls_leave_the_store store_a "a" [kw_likes 200] 1%float);
      [reflexivity | by eexists].
  - apply (rejected_calls_leave_the_store store_a "nonexistent"
             [kw_likes 100] 0%float); reflexivity.
Defined.

(** ** What an update changes *)

(** The value the keywords give a field: that of the last keyword the
    selector accepts. *)
Fixpoint supplied {T} (sel : kwarg -> option T) (kwargs : list kwarg)
  : option T :=
  match kwargs with
  | [] => None
  | k :: rest =>
      match supplied sel rest with
      | Some v => Some v
      | None => sel k
      end
  end.

Definition sel_likes k := match k with kw_likes v => Some v | _ => None end.
Definition sel_comments k :=
  match k with kw_comments v => Some v | _ => None end.
Definition sel_shares k := match k with kw_shares v => Some v | _ => None end.
Definition sel_upvotes k :=
  match k with kw_upvotes v => Some v | _ => None end.
Definition sel_downvotes k :=
  match k with kw_downvotes v => Some v | _ => None end.
Definition sel_timestamp k :=
  match k with kw_timestamp v => Some v | _ => None end.

Definition sel_base_score k :=
  match k with kw_base_score v => Some v | _ => None end.

Definition update_step (p : Post) (k : kwarg) : Post :=
  if is_field k then setattr p k else p.

Lemma fold_update_field {T} (field : Post -> T) (sel : kwarg -> option T) :
  (forall p k, field (update_step p k) = default (field p) (sel k)) ->
  forall kwargs p,
    field (fold_left update_step kwargs p)
    = default (field p) (supplied sel kwargs).
Proof.
  intros Hstep kwargs. induction kwargs as [|k rest IH]; intros p; [done|].
  cbn. rewrite IH, Hstep. by destruct (supplied sel rest).
Qed.

Lemma fold_update_post_id kwargs p :
  existsb is_post_id_kw kwargs = false ->
  post_id (fold_left update_step kwargs p) = post_id p.
Proof.
  revert p. induction kwargs as [|k rest IH]; intros p H; [done|].
  cbn in H. apply orb_false_elim in H as [Hk Hrest].
  cbn. rewrite IH by done. by destruct k.
Qed.

(** A keyword that the loop of [update_post] takes without raising, whatever
    its value: a field, or a name that is neither a field nor one of
    [slot_names]. *)
Definition plain (k : kwarg) : bool :=
  match k with
  | kw_other name =>
      negb (in_names name field_names) && negb (in_names name slot_names)
  | _ => true
  end.

Lemma setattr_other_Ok name :
  in_names name slot_names = false -> setattr_other name = Ok tt.
Proof.
  unfold in_names, slot_names, setattr_other. cbn [existsb].
  destruct (String.eqb name "__class__"); [done|].
  destruct (String.eqb name "__dict__"); [done|].
  by destruct (String.eqb name "__weakref__").
Qed.

Lemma setattr_other_Raise name :
  in_names name slot_names = true -> exists x, setattr_other name = Raise x.
Proof.
  unfold in_names, slot_names, setattr_other. cbn [existsb].
  destruct (String.eqb name "__class__"); [by eexists|].
  destruct (String.eqb name "__dict__"); [by eexists|].
  destruct (String.eqb name "__weakref__"); [by eexists|done].
Qed.

Lemma hasattr_setattr_Ok p k p' :
  hasattr_setattr p k = Ok p' -> p' = update_step p k.
Proof.
  destruct k; cbn; try by intros [= <-].
  destruct (setattr_other name); cbn; [by intros [= <-]|done].
Qed.

Lemma update_loop_Ok kwargs p p' :
  update_loop p kwargs = (Ok tt, p') -> p' = fold_left update_step kwargs p.
Proof.
  revert p. induction kwargs as [|k rest IH]; intros p; cbn.
  - by intros [= <-].
  - destruct (hasattr_setattr p k) as [p1|] eqn:E; [|done].
    apply hasattr_setattr_Ok in E as ->. apply IH.
Qed.

Lemma update_loop_plain kwargs p :
  forallb plain kwargs = true ->
  update_loop p kwargs = (Ok tt, fold_left update_step kwargs p).
Proof.
  revert p. induction kwargs as [|k rest IH]; intros p H; [done|].
  cbn in H. apply andb_true_iff in H as [Hk Hrest]. cbn.
  assert (hasattr_setattr p k = Ok (update_step p k)) as ->.
  { destruct k; try done. cbn in Hk. apply andb_true_iff in Hk as [_ Hk].
    apply negb_true_iff in Hk. cbn. by rewrite (setattr_other_Ok _ Hk). }
  by apply IH.
Qed.

Lemma update_loop_raises before name after p :
  forallb plain before = true ->
  in_names name slot_names = true ->
  exists x,
    setattr_other name = Raise x /\
    update_loop p (before ++ kw_other name :: after)
    = (Raise x, fold_left update_step before p).
Proof.
  intros Hb Hn. destruct (setattr_other_Raise _ Hn) as [x Hx].
  exists x. split; [done|].
  revert p Hb. induction before as [|k rest IH]; intros p Hb.
  - cbn. by rewrite Hx.
  - cbn in Hb. apply andb_true_iff in Hb as [Hk Hrest].
    pose proof (update_loop_plain [k] p) as H1. cbn in H1.
    rewrite Hk in H1. specialize (H1 eq_refl).
    cbn. destruct (hasattr_setattr p k) as [p1|]; [|done].
    injection H1 as ->. by apply IH.
Qed.




(** ** The base score, and an update that raises *)

(** C3 fails in the code, on an [update_post] that raises inside its loop.
    Take a stored post and keywords that are distinct, as those of a call
    are: first some that the loop takes, then one of [__class__], [__dict__]
    and [__weakref__], with a value that [setattr] rejects for it (any value
    that is no class, any that is no dict, any value at all). The call
    raises what [setattr] raises on that keyword. The post keeps the
    counters that the keywords before it supplied, and its [base_score] is
    not recalculated: it is the one the post had, or the one a keyword
    [base_score] supplied. The cache is not invalidated either. *)
Theorem raising_update_keeps_base_score e pid p before name after :
  dict_get pid (posts e) = Some p ->
  bind_call (before ++ kw_other name :: after) = Ok tt ->
  NoDup (kw_name <$> (before ++ kw_other name :: after)) ->
  forallb plain before = true ->
  in_names name slot_names = true ->
  exists x e' p',
    setattr_other name = Raise x /\
    update_post pid (before ++ kw_other name :: after) e = (Raise x, e') /\
    dict_get pid (posts e') = Some p' /\
    likes p' = default (likes p) (supplied sel_likes before) /\
    comments p' = default (comments p) (supplied sel_comments before) /\
    shares p' = default (shares p) (supplied sel_shares before) /\
    base_score p' = default (base_score p) (supplied sel_base_score before) /\
    ranking_cache e' = ranking_cache e /\
    cache_timestamps e' = cache_timestamps e /\
    invalidations e' = invalidations e.
Proof.
  intros Hp Hb _ Hplain Hn.
  destruct (update_loop_raises before name after p Hplain Hn)
    as (x & Hx & Hloop).
  exists x. unfold update_post. rewrite Hb, Hp, Hloop.
  eexists. exists (fold_left update_step before p).
  split; [done|]. split; [reflexivity|]. cbn [posts set_posts].
  split; [apply dict_get_set_eq|].
  repeat (split; [apply fold_update_field; by intros ? []|]).
  done.
Qed.

(** [update_post("a", likes=999, __class__=5)] on the post with 100 likes and
    20 comments: [TypeError], after which the post has 999 likes and the
    base score 140 of its old counters. *)
Lemma raising_update_keeps_base_score_witness :
  exists x e' p',
    update_post "a" [kw_likes 999; kw_other "__class__"] store_a
    = (Raise x, e') /\
    dict_get "a" (posts e') = Some p' /\
    likes p' = 999 /\ comments p' = 20 /\ shares p' = 0 /\
    base_score p' = 140 /\
    base_score p' ≠ likes p' + 2 * comments p' + 3 * shares p'.
Proof.
  destruct (raising_update_keeps_base_score store_a "a"
              (mkPost "a" 100 20 0 0 0 0%float 140)
              [kw_likes 999] "__class__" [] eq_refl eq_refl)
    as (x & e' & p' & _ & Hrun & Hp' & Hl & Hc & Hs & Hbase & _).
  { compute_done. }
  { reflexivity. }
  { reflexivity. }
  exists x, e', p'. split; [exact Hrun|]. split; [exact Hp'|].
  cbn in Hl, Hc, Hs, Hbase.
  repeat split; [exact Hl | exact Hc | exact Hs | exact Hbase |].
  rewrite Hbase, Hl, Hc, Hs. discriminate.
Defined.

(** The states the engine reaches when no [update_post] raises inside its
    loop: its keywords are fields, or names that are neither fields nor
    [__class__], [__dict__], [__weakref__]. *)
Inductive reachable_plain (M : PyMath) : RankingEngine -> Prop :=
| plain_new : reachable_plain M new_engine
| plain_add e pid kwargs now :
    reachable_plain M e -> reachable_plain M (add_post pid kwargs now e).2
| plain_update e pid kwargs :
    forallb plain kwargs = true ->
    reachable_plain M e -> reachable_plain M (update_post pid kwargs e).2
| plain_batch e posts_data now :
    reachable_plain M e ->
    reachable_plain M (batch_add_posts posts_data now e).2
| plain_ranked e algorithm limit kwargs now :
    reachable_plain M e ->
    reachable_plain M (get_ranked_posts M algorithm limit kwargs now e).2
| plain_rank e pid algorithm kwargs now :
    reachable_plain M e ->
    reachable_plain M (get_post_rank M pid algorithm kwargs now e).2.

Lemma reachable_plain_store_ok M e : reachable_plain M e -> store_ok e.
Proof.
  induction 1 as [|? ? ? ? _ IH|? ? ? Hk _ IH|? ? ? _ IH|? ? ? ? ? _ IH
                 |? ? ? ? ? _ IH].
  - constructor.
  - by apply add_post_store_ok.
  - apply update_post_store_ok; [|done]. intros p x p' _.
    by rewrite (update_loop_plain _ _ Hk).
  - by apply batch_add_posts_store_ok.
  - unfold store_ok. by rewrite get_ranked_posts_posts.
  - unfold store_ok.
    by rewrite get_post_rank_state, get_ranked_posts_posts.
Qed.

(** X27. As long as no [update_post] raises inside its loop, each stored
    post has [base_score = likes + 2 * comments + 3 * shares] on its
    current counters: after every creation ([add_post], [batch_add_posts],
    also one that raises midway) and after every update, whatever fields it
    supplies, a [base_score] among them. *)
Theorem base_score_follows_counters M e pid p :
  reachable_plain M e -> dict_get pid (posts e) = Some p ->
  base_score p = likes p + 2 * comments p + 3 * shares p.
Proof.
  intros Hr Hp. apply reachable_plain_store_ok in Hr.
  apply (dict_get_Forall _ _ _ _ Hr Hp).
Qed.

Lemma base_score_follows_counters_witness :
  reachable_plain no_math store_a_updated /\
  exists p, dict_get "a" (posts store_a_updated) = Some p /\
    likes p = 150 /\ comments p = 30 /\
    base_score p = likes p + 2 * comments p + 3 * shares p.
Proof.
  split; [by apply plain_update, plain_add, plain_new|].
  eexists; split; [reflexivity|].
  split; [reflexivity|]. split; [reflexivity|].
  apply (base_score_follows_counters no_math store_a_updated "a");
    [by apply plain_update, plain_add, plain_new | reflexivity].
Defined.

(** ** batch_add_posts *)

Definition sel_post_id k := match k with kw_post_id v => Some v | _ => None end.

(** A post-data dict that describes a post: it has the key [post_id], and
    every key of it is a field of [Post]. *)
Definition describes_post (post_data : list kwarg) : Prop :=
  existsb is_post_id_kw post_data = true /\ forallb is_field post_data = true.

(** The [(post_id, post)] that one round of the loop of [batch_add_posts]
    stores. *)
Definition post_of_data (post_data : list kwarg) (now : float)
  : result (string * Post) :=
  pc ← pop_post_id post_data;
  p ← Post_new pc.1 pc.2 now;
  Ok (pc.1, p).

(** The last post of a batch with the id, if there is one. *)
Fixpoint last_in_batch (pid : string) (items : list (string * Post))
  : option Post :=
  match items with
  | [] => None
  | (k, p) :: rest =>
      match last_in_batch pid rest with
      | Some q => Some q
      | None => if String.eqb k pid then Some p else None
      end
  end.

Definition store_all (items : list (string * Post))
    (d : list (string * Post)) : list (string * Post) :=
  fold_left (fun d kp => dict_set kp.1 kp.2 d) items d.

Lemma store_all_get pid items d :
  dict_get pid (store_all items d)
  = match last_in_batch pid items with
    | Some p => Some p
    | None => dict_get pid d
    end.
Proof.
  revert d. induction items as [|[k p] rest IH]; intros d; [done|].
  cbn. unfold store_all in IH. rewrite IH.
  destruct (last_in_batch pid rest); [done|].
  destruct (String.eqb_spec k pid) as [->|Hne].
  - apply dict_get_set_eq.
  - by apply dict_get_set_ne.
Qed.

Lemma pop_post_id_fold post_data o :
  fold_left (fun o k => match k with kw_post_id v => Some v | _ => o end)
    post_data o
  = match supplied sel_post_id post_data with
    | Some v => Some v
    | None => o
    end.
Proof.
  revert o. induction post_data as [|k rest IH]; intros o; [done|].
  cbn. rewrite IH. destruct (supplied sel_post_id rest); [done|].
  by destruct k.
Qed.

Lemma supplied_is_Some post_data :
  existsb is_post_id_kw post_data = true ->
  is_Some (supplied sel_post_id post_data).
Proof.
  induction post_data as [|k rest IH]; [done|]. cbn.
  destruct (supplied sel_post_id rest); [by eauto|].
  intros H. apply orb_true_iff in H as [H|H].
  - by destruct k.
  - by destruct (IH H).
Qed.

Lemma describes_post_built post_data now :
  describes_post post_data ->
  exists pid p,
    supplied sel_post_id post_data = Some pid /\
    post_of_data post_data now = Ok (pid, p).
Proof.
  intros [Hid Hkeys]. destruct (supplied_is_Some _ Hid) as [pid Hpid].
  exists pid. unfold post_of_data, pop_post_id.
  rewrite pop_post_id_fold, Hpid. cbn. unfold Post_new.
  replace (existsb is_post_id_kw
             (List.filter (fun k => negb (is_post_id_kw k)) post_data))
    with false.
  2:{ symmetry. apply not_true_is_false. intros H.
      apply existsb_exists in H as (k & Hin & Hk).
      apply filter_In in Hin as [_ Hn]. by rewrite Hk in Hn. }
  replace (forallb is_field
             (List.filter (fun k => negb (is_post_id_kw k)) post_data))
    with true.
  2:{ symmetry. apply forallb_forall. intros k Hin.
      apply filter_In in Hin as [Hin _].
      eapply forallb_forall in Hkeys; eauto. }
  eexists. split; reflexivity.
Qed.

Lemma batch_add_loop_built posts_data now e :
  Forall describes_post posts_data ->
  exists items,
    Forall2 (fun d kp => post_of_data d now = Ok kp) posts_data items /\
    batch_add_loop posts_data now e
    = (Ok tt, set_posts (store_all items (posts e)) e).
Proof.
  intros H. revert e. induction H as [|d rest Hd Hrest IH]; intros e.
  - exists []. split; [constructor|]. by destruct e.
  - destruct (describes_post_built d now Hd) as (pid & p & _ & Hb).
    destruct (IH (set_posts (dict_set pid p (posts e)) e))
      as (items & Hitems & Hloop).
    exists ((pid, p) :: items). split; [by constructor|].
    cbn. unfold post_of_data in Hb.
    destruct (pop_post_id d) as [[pid' copy]|]; [|done]. cbn in Hb.
    destruct (Post_new pid' copy now) as [p'|]; [|done]. cbn in Hb.
    injection Hb as -> ->. by rewrite Hloop.
Qed.

(** C6. Given dicts that describe posts, [batch_add_posts] returns; it has
    stored the post of every dict, so the post stored under an id is that of
    the last dict of the batch with the id, and an id the batch does not
    name keeps its post; the cache is empty, and was invalidated once,
    whatever the length of the batch. [add_post] instead raises on an id
    that is present. *)
Theorem batch_add_overwrites e posts_data now :
  Forall describes_post posts_data ->
  exists items e',
    Forall2 (fun d kp => post_of_data d now = Ok kp) posts_data items /\
    batch_add_posts posts_data now e = (Ok tt, e') /\
    (forall pid,
       dict_get pid (posts e')
       = match last_in_batch pid items with
         | Some p => Some p
         | None => dict_get pid (posts e)
         end) /\
    invalidations e' = S (invalidations e) /\
    ranking_cache e' = ∅ /\ cache_timestamps e' = ∅ /\
    (forall pid p kwargs,
       last_in_batch pid items = Some p -> bind_call kwargs = Ok tt ->
       (add_post pid kwargs now e').1 = Raise (already_exists pid)).
Proof.
  intros H. destruct (batch_add_loop_built posts_data now e H)
    as (items & Hitems & Hloop).
  exists items. eexists. split; [done|].
  unfold batch_add_posts. rewrite Hloop.
  split; [reflexivity|]. cbn.
  split; [intros pid; apply store_all_get|].
  repeat (split; [done|]).
  intros pid p kwargs Hp Hb. unfold add_post, dict_mem. rewrite Hb. cbn.
  by rewrite store_all_get, Hp.
Qed.

(** [batch_add_posts([{post_id: "x", likes: 1}, {post_id: "x", likes: 99}])]
    on the store that holds "a". *)
Definition batch_x : list (list kwarg) :=
  [[kw_post_id "x"; kw_likes 1]; [kw_post_id "x"; kw_likes 99]].

Lemma batch_add_overwrites_witness :
  exists e',
    batch_add_posts batch_x 0%float store_a = (Ok tt, e') /\
    (likes <$> dict_get "x" (posts e')) = Some 99 /\
    (likes <$> dict_get "a" (posts e')) = Some 100 /\
    invalidations e' = S (invalidations store_a).
Proof.
  destruct (batch_add_overwrites store_a batch_x 0%float)
    as (items & e' & Hitems & Hrun & Hget & Hinv & _).
  { repeat constructor. }
  exists e'. split; [exact Hrun|].
  injection Hrun as <-. repeat split.
Defined.

(** ** Keys of the store *)

Lemma dict_set_keys {V} k (v : V) d :
  (dict_set k v d).*1 = if dict_mem k d then d.*1 else d.*1 ++ [k].
Proof.
  unfold dict_mem. induction d as [|[k' v'] d IH]; cbn; [done|].
  destruct (String.eqb_spec k' k) as [->|Hne]; cbn; [done|].
  rewrite IH. by destruct (dict_get k d).
Qed.

Lemma dict_get_None {V} k (d : list (string * V)) :
  dict_get k d = None -> k ∉ d.*1.
Proof.
  induction d as [|[k' v'] d IH]; cbn; [intros _; apply not_elem_of_nil|].
  destruct (String.eqb_spec k' k) as [->|Hne]; [done|].
  intros H. apply not_elem_of_cons. split; [congruence|by apply IH].
Qed.

Lemma dict_set_NoDup {V} k (v : V) d :
  NoDup d.*1 -> NoDup (dict_set k v d).*1.
Proof.
  intros H. rewrite dict_set_keys. unfold dict_mem.
  destruct (dict_get k d) eqn:E; [done|].
  apply NoDup_app. split; [done|]. split; [|apply NoDup_singleton].
  intros x Hx Hx'. apply list_elem_of_singleton in Hx' as ->.
  by apply dict_get_None in E.
Qed.

Lemma dict_get_elem_of {V} k (v : V) d :
  NoDup d.*1 -> (k, v) ∈ d -> dict_get k d = Some v.
Proof.
  induction d as [|[k' v'] d IH]; cbn; intros Hnd Hin.
  - by apply elem_of_nil in Hin.
  - apply NoDup_cons in Hnd as [Hk Hnd].
    apply elem_of_cons in Hin as [[= <- <-]|Hin].
    + by rewrite String.eqb_refl.
    + destruct (String.eqb_spec k' k) as [->|Hne]; [|by apply IH].
      exfalso. apply Hk. apply list_elem_of_fmap. by exists (k, v).
Qed.

Definition keys_ok (e : RankingEngine) : Prop := NoDup (posts e).*1.

Lemma add_post_keys_ok pid kwargs now e :
  keys_ok e -> keys_ok (add_post pid kwargs now e).2.
Proof.
  intros H. unfold add_post. destruct (bind_call kwargs); [|done].
  destruct (dict_mem pid (posts e)); [done|].
  destruct (Post_new pid kwargs now) as [p|] eqn:E; [|done].
  by apply dict_set_NoDup.
Qed.

Lemma update_post_keys_ok pid kwargs e :
  keys_ok e -> keys_ok (update_post pid kwargs e).2.
Proof.
  intros H.
  destruct (update_post_state pid kwargs e) as [->|(p & p' & _ & [->| ->])];
    [done|by apply dict_set_NoDup..].
Qed.

Lemma batch_add_loop_keys_ok posts_data now e :
  keys_ok e -> keys_ok (batch_add_loop posts_data now e).2.
Proof.
  revert e. induction posts_data as [|d rest IH]; intros e H; cbn; [done|].
  destruct (pop_post_id d) as [[pid copy]|]; [|done].
  destruct (Post_new pid copy now) as [p|] eqn:E; [|done].
  apply IH. by apply dict_set_NoDup.
Qed.

Lemma batch_add_posts_keys_ok posts_data now e :
  keys_ok e -> keys_ok (batch_add_posts posts_data now e).2.
Proof.
  intros H. unfold batch_add_posts.
  pose proof (batch_add_loop_keys_ok posts_data now e H) as H'.
  by destruct (batch_add_loop posts_data now e) as [[]?].
Qed.

Lemma reachable_keys_ok M e : reachable M e -> keys_ok e.
Proof.
  induction 1.
  - constructor.
  - by apply add_post_keys_ok.
  - by apply update_post_keys_ok.
  - by apply batch_add_posts_keys_ok.
  - unfold keys_ok. by rewrite get_ranked_posts_posts.
  - unfold keys_ok. by rewrite get_post_rank_state, get_ranked_posts_posts.
Qed.

(** ** Rankings *)

Lemma insert_desc_perm {A} (lt : A -> A -> bool) x l :
  insert_desc lt x l ≡ₚ x :: l.
Proof.
  induction l as [|y l IH]; cbn; [done|].
  destruct (lt x y); [|done]. rewrite IH. apply Permutation_swap.
Qed.

Lemma list_sort_reverse_perm {A} (lt : A -> A -> bool) l :
  list_sort_reverse lt l ≡ₚ l.
Proof.
  induction l as [|x l IH]; cbn; [done|].
  rewrite insert_desc_perm. by rewrite IH.
Qed.

Lemma slice_to_take {A} (l : list A) stop :
  exists n, slice_to l stop = take n l.
Proof. unfold slice_to. destruct (stop <? 0); eauto. Qed.

Lemma slice_to_elem_of {A} (l : list A) stop x :
  x ∈ slice_to l stop -> x ∈ l.
Proof.
  destruct (slice_to_take l stop) as [n ->]. apply subseteq_take.
Qed.


(** What a dict of the result says, given the entry and the store it was
    built from. *)
Definition annotates (d : list (string * Post)) (now : float)
    (sp : float * string) (r : ranked) : Prop :=
  r_score r = sp.1 /\ r_post_id r = sp.2 /\
  exists p, dict_get sp.2 d = Some p /\
    r_likes r = likes p /\ r_comments r = comments p /\
    r_shares r = shares p /\ r_upvotes r = upvotes p /\
    r_downvotes r = downvotes p /\ r_timestamp r = timestamp p /\
    r_age_hours r
    = PrimFloat.div (PrimFloat.sub now (timestamp p)) 3600%float.

Section Rankings.
Variable M : PyMath.

Lemma ranked_loop_spec d now rank entries res :
  ranked_loop d now rank entries = Ok res ->
  Forall2 (annotates d now) entries res /\
  forall i r, res !! i = Some r -> r_rank r = rank + Z.of_nat i.
Proof.
  revert rank res. induction entries as [|[score pid] rest IH];
    intros rank res; cbn.
  - intros [= <-]. split; [constructor|]. intros i r. by rewrite lookup_nil.
  - destruct (dict_get pid d) as [p|] eqn:Hp; [|done].
    destruct (ranked_loop d now (rank + 1) rest) as [tl|] eqn:Htl; [|done].
    cbn. intros [= <-]. destruct (IH _ _ Htl) as [Hall Hrank]. split.
    + constructor; [|done]. repeat split. exists p. by repeat split.
    + intros [|i] r; cbn.
      * intros [= <-]. cbn. lia.
      * intros Hr. rewrite (Hrank _ _ Hr). lia.
Qed.

Lemma calculate_scores_loop_spec items algorithm kwargs now scores :
  _calculate_scores_loop M items algorithm kwargs now = Ok scores ->
  Forall2 (fun kp sp =>
             sp.2 = kp.1 /\
             _calculate_scores_body M kp.2 algorithm kwargs now = Ok sp.1)
    items scores.
Proof.
  revert scores. induction items as [|[pid post] rest IH]; intros scores; cbn.
  - intros [= <-]. constructor.
  - destruct (_calculate_scores_body M post algorithm kwargs now)
      as [score|] eqn:Hs; [|done]. cbn.
    destruct (_calculate_scores_loop M rest algorithm kwargs now)
      as [tl|] eqn:Htl; [|done]. cbn.
    intros [= <-]. constructor; [done|]. by apply IH.
Qed.

(** A ranking computed now: not served from the cache. *)
Lemma get_ranked_posts_computed algorithm limit kwargs now e res e' :
  _is_cache_valid algorithm now e = false ->
  get_ranked_posts M algorithm limit kwargs now e = (Ok res, e') ->
  exists scores,
    _calculate_scores M algorithm kwargs now e = Ok scores /\
    ranking_cache e' !! algorithm
    = Some (list_sort_reverse score_id_lt scores) /\
    posts e' = posts e /\
    ranked_loop (posts e) now 1
      (slice_to (list_sort_reverse score_id_lt scores) limit) = Ok res.
Proof.
  unfold get_ranked_posts. intros ->.
  destruct (_calculate_scores M algorithm kwargs now e) as [scores|];
    [|done].
  cbn. intros [= Hres <-]. exists scores. cbn.
  by rewrite lookup_insert_eq.
Qed.

(** Every dict of a ranking computed now carries the score of the post
    stored under its id, as the algorithm gives it now. *)
Lemma computed_ranking_is_current algorithm limit kwargs now e res e' :
  keys_ok e ->
  _is_cache_valid algorithm now e = false ->
  get_ranked_posts M algorithm limit kwargs now e = (Ok res, e') ->
  Forall (fun r =>
            exists p, dict_get (r_post_id r) (posts e) = Some p /\
              _calculate_scores_body M p algorithm kwargs now
              = Ok (r_score r) /\
              r_likes r = likes p /\ r_comments r = comments p /\
              r_shares r = shares p) res.
Proof.
  intros Hk Hc Hg.
  destruct (get_ranked_posts_computed _ _ _ _ _ _ _ Hc Hg)
    as (scores & Hs & _ & _ & Hl).
  apply calculate_scores_loop_spec in Hs.
  apply ranked_loop_spec in Hl as [Hl _].
  apply Forall_forall. intros r Hr.
  apply list_elem_of_lookup in Hr as [i Hr].
  destruct (Forall2_lookup_r _ _ _ _ _ Hl Hr) as ([s pid] & Hsp & Ha).
  destruct Ha as (Hscore & Hid & p & Hp & Hlikes & Hcomments & Hshares & _).
  cbn in *. exists p. rewrite Hid. split; [done|].
  split; [|done].
  assert ((s, pid) ∈ scores) as Hin.
  { apply list_elem_of_lookup_2 in Hsp. apply slice_to_elem_of in Hsp.
    by rewrite list_sort_reverse_perm in Hsp. }
  apply list_elem_of_lookup in Hin as [j Hj].
  destruct (Forall2_lookup_r _ _ _ _ _ Hs Hj) as ([pid' p'] & Hkp & Hb).
  cbn in Hb. destruct Hb as [-> Hb].
  apply list_elem_of_lookup_2 in Hkp.
  apply (dict_get_elem_of _ _ _ Hk) in Hkp.
  rewrite Hscore. congruence.
Qed.
End Rankings.

(** ** Mutations and the cache *)

Inductive mutation : Type :=
| m_add (pid : string) (kwargs : list kwarg)
| m_update (pid : string) (kwargs : list kwarg)
| m_batch (posts_data : list (list kwarg)).

Definition mutate (m : mutation) (now : float) (e : RankingEngine)
  : result unit * RankingEngine :=
  match m with
  | m_add pid kwargs => add_post pid kwargs now e
  | m_update pid kwargs => update_post pid kwargs e
  | m_batch posts_data => batch_add_posts posts_data now e
  end.

Lemma mutate_empties m now e e' :
  mutate m now e = (Ok tt, e') ->
  ranking_cache e' = ∅ /\ cache_timestamps e' = ∅.
Proof.
  destruct m as [pid kwargs|pid kwargs|posts_data]; cbn.
  - unfold add_post. destruct (bind_call kwargs); [|done].
    destruct (dict_mem pid (posts e)); [done|].
    destruct (Post_new pid kwargs now); [|done]. by intros [= <-].
  - unfold update_post. destruct (bind_call kwargs); [|done].
    destruct (dict_get pid (posts e)) as [p|]; [|done].
    destruct (update_loop p kwargs) as [[[]|x] p']; [|done].
    by intros [= <-].
  - unfold batch_add_posts.
    destruct (batch_add_loop posts_data now e) as [[]?]; [|done].
    by intros [= <-].
Qed.

Lemma mutate_reachable M m now e :
  reachable M e -> reachable M (mutate m now e).2.
Proof. destruct m; cbn; by constructor. Qed.

(** X28. An [add_post], [update_post] or [batch_add_posts] that returns
    leaves both cache dicts empty, for every algorithm; so each dict of the
    next ranking, for whatever algorithm, carries the score the algorithm
    gives the post as it is stored now, and the post's current counters. *)
Theorem mutation_empties_cache M e m now e' :
  reachable M e ->
  mutate m now e = (Ok tt, e') ->
  ranking_cache e' = ∅ /\ cache_timestamps e' = ∅ /\
  forall algorithm limit kwargs now' res e'',
    get_ranked_posts M algorithm limit kwargs now' e' = (Ok res, e'') ->
    Forall (fun r =>
              exists p, dict_get (r_post_id r) (posts e') = Some p /\
                _calculate_scores_body M p algorithm kwargs now'
                = Ok (r_score r) /\
                r_likes r = likes p /\ r_comments r = comments p /\
                r_shares r = shares p) res.
Proof.
  intros Hr Hm. destruct (mutate_empties _ _ _ _ Hm) as [Hc Ht].
  split; [done|]. split; [done|].
  intros algorithm limit kwargs now' res e'' Hg.
  eapply computed_ranking_is_current; [| |exact Hg].
  - apply (reachable_keys_ok M).
    replace e' with (mutate m now e).2 by by rewrite Hm.
    by apply mutate_reachable.
  - unfold _is_cache_valid. by rewrite Ht, lookup_empty.
Qed.

(** After [update_post("a", likes=150, comments=30, base_score=7)] the
    engagement score of "a" at time 0 is 210, not the 140 of before. *)
Lemma mutation_empties_cache_witness :
  ranking_cache store_a_updated = ∅ /\
  exists res e'',
    get_ranked_posts no_math "engagement_score" 100 no_kwargs 0%float
      store_a_updated = (Ok res, e'') /\
    (fun r => (r_post_id r, r_likes r, r_score r)) <$> res
    = [("a", 150, 210%float)] /\
    Forall (fun r =>
              exists p, dict_get (r_post_id r) (posts store_a_updated)
                        = Some p /\
                _calculate_scores_body no_math p "engagement_score"
                  no_kwargs 0%float = Ok (r_score r) /\
                r_likes r = likes p /\ r_comments r = comments p /\
                r_shares r = shares p) res.
Proof.
  destruct (mutation_empties_cache no_math store_a
              (m_update "a" [kw_likes 150; kw_comments 30; kw_base_score 7])
              0%float store_a_updated)
    as (Hc & _ & Hnext); [apply reach_add, reach_new | reflexivity |].
  split; [exact Hc|].
  pose (run := get_ranked_posts no_math "engagement_score" 100 no_kwargs
                 0%float store_a_updated).
  exists (match run.1 with Ok res => res | Raise _ => [] end), run.2.
  assert (run = (Ok (match run.1 with Ok res => res | Raise _ => [] end),
                 run.2)) as Hrun by (vm_compute; reflexivity).
  split; [exact Hrun|]. split; [vm_compute; reflexivity|].
  exact (Hnext _ _ _ _ _ _ Hrun).
Defined.

(** ** The order of [(score, post_id)] tuples *)

Lemma ascii_compare_N a b :
  Ascii.compare a b = (Ascii.N_of_ascii a ?= Ascii.N_of_ascii b)%N.
Proof. reflexivity. Qed.

Lemma string_compare_not_Lt_trans a b c :
  String.compare a b ≠ Lt -> String.compare b c ≠ Lt ->
  String.compare a c ≠ Lt.
Proof.
  revert b c. induction a as [|x a IH]; intros [|y b] [|z c]; cbn;
    try done.
  rewrite !ascii_compare_N.
  destruct (N.compare_spec (Ascii.N_of_ascii x) (Ascii.N_of_ascii y));
    destruct (N.compare_spec (Ascii.N_of_ascii y) (Ascii.N_of_ascii z));
    destruct (N.compare_spec (Ascii.N_of_ascii x) (Ascii.N_of_ascii z));
    try done; try lia.
  apply IH.
Qed.

Lemma string_ltb_asym a b : String.ltb a b = true -> String.ltb b a = false.
Proof.
  unfold String.ltb. rewrite (String.compare_antisym a b).
  by destruct (String.compare b a).
Qed.

Lemma string_ltb_false_trans a b c :
  String.ltb a b = false -> String.ltb b c = false -> String.ltb a c = false.
Proof.
  unfold String.ltb. intros H1 H2.
  pose proof (string_compare_not_Lt_trans a b c).
  destruct (String.compare a b), (String.compare b c),
    (String.compare a c); try done; exfalso; by apply H.
Qed.

Import FloatOrder.

Lemma score_id_lt_asym a b :
  score_id_lt a b = true -> score_id_lt b a = false.
Proof.
  unfold score_id_lt. rewrite (eqb_sym b.1 a.1).
  destruct (PrimFloat.eqb a.1 b.1) eqn:E.
  - apply string_ltb_asym.
  - apply ltb_asym.
Qed.

Lemma score_id_lt_false_trans a b c :
  not_nan a.1 -> not_nan b.1 -> not_nan c.1 ->
  score_id_lt a b = false -> score_id_lt b c = false ->
  score_id_lt a c = false.
Proof.
  unfold score_id_lt. intros Ha Hb Hc.
  destruct (trichotomy a.1 b.1 Ha Hb) as [H1|[H1|H1]];
    destruct (trichotomy b.1 c.1 Hb Hc) as [H2|[H2|H2]].
  all: try (rewrite (ltb_eqb _ _ H1), H1; done).
  all: try (rewrite (ltb_eqb _ _ H2), H2; intros _; done).
  - rewrite H1, H2, (eqb_trans _ _ _ H1 H2). apply string_ltb_false_trans.
  - rewrite H1, (eqb_sym b.1 c.1), (ltb_eqb _ _ H2), (ltb_asym _ _ H2).
    intros _ _.
    assert (PrimFloat.ltb c.1 a.1 = true) as H3
      by by rewrite <-(eqb_ltb_r _ _ _ (eq_trans (eqb_sym b.1 a.1) H1)).
    by rewrite (eqb_sym a.1 c.1), (ltb_eqb _ _ H3), (ltb_asym _ _ H3).
  - rewrite H2, (eqb_sym a.1 b.1), (ltb_eqb _ _ H1), (ltb_asym _ _ H1).
    intros _ _.
    assert (PrimFloat.ltb c.1 a.1 = true) as H3
      by by rewrite (eqb_ltb_l _ _ _ (eq_trans (eqb_sym c.1 b.1) H2)).
    by rewrite (eqb_sym a.1 c.1), (ltb_eqb _ _ H3), (ltb_asym _ _ H3).
  - intros _ _. pose proof (ltb_trans _ _ _ H2 H1) as H3.
    by rewrite (eqb_sym a.1 c.1), (ltb_eqb _ _ H3), (ltb_asym _ _ H3).
Qed.

(** Descending: no entry is less than a later one. *)
Definition descending (l : list (float * string)) : Prop :=
  StronglySorted (fun a b => score_id_lt a b = false) l.

Definition no_nan (l : list (float * string)) : Prop :=
  Forall (fun sp => not_nan sp.1) l.

Lemma insert_desc_descending x l :
  not_nan x.1 -> no_nan l -> descending l ->
  descending (insert_desc score_id_lt x l).
Proof.
  intros Hx Hl Hs. induction Hs as [|y l Hs IH Hy]; cbn.
  - repeat constructor.
  - apply Forall_cons in Hl as [Hyn Hl].
    destruct (score_id_lt x y) eqn:E.
    + constructor; [by apply IH|].
      rewrite insert_desc_perm. constructor; [|done].
      by apply score_id_lt_asym.
    + constructor; [by constructor|]. constructor; [done|].
      rewrite Forall_forall in Hy, Hl. apply Forall_forall. intros z Hz.
      eapply (score_id_lt_false_trans x y z); auto.
Qed.

Lemma list_sort_reverse_descending l :
  no_nan l -> descending (list_sort_reverse score_id_lt l).
Proof.
  induction 1 as [|x l Hx Hl IH]; [constructor|].
  change (descending
            (insert_desc score_id_lt x (list_sort_reverse score_id_lt l))).
  apply insert_desc_descending; [done| |done].
  unfold no_nan. by rewrite list_sort_reverse_perm.
Qed.


(** ** The cache holds descending rankings *)









Lemma StronglySorted_lookup_lt {A} (R : A -> A -> Prop) l i j a b :
  StronglySorted R l -> l !! i = Some a -> l !! j = Some b -> (i < j)%nat ->
  R a b.
Proof.
  intros Hs. revert i j. induction Hs as [|x l Hs IH Hx]; intros i j.
  - by rewrite lookup_nil.
  - destruct i as [|i], j as [|j]; cbn; try lia.
    + intros [= <-] Hb _. rewrite Forall_forall in Hx. apply Hx.
      by eapply list_elem_of_lookup_2.
    + intros Ha Hb Hij. apply (IH i j); [done|done|lia].
Qed.


(** The store with "a" (likes 100, comments 20) and "b" (likes 10), both
    created at time 0. *)
Definition store_ab : RankingEngine :=
  (add_post "b" [kw_likes 10] 0%float store_a).2.




(** * Scoring *)

(** ** The weights of the hybrid score *)

Definition weight_keys : list string :=
  ["likes"; "comments"; "shares"; "time_decay"].

(** Membership in a list that is written out. *)
Ltac in_list :=
  repeat first [apply list_elem_of_here | apply list_elem_of_further].

Lemma of_int_raises n x : F.of_int n = Raise x -> x = OverflowError.
Proof. unfold F.of_int. destruct (is_infinity _); congruence. Qed.

Lemma truediv_raises a b x : F.truediv a b = Raise x -> x = ZeroDivisionError.
Proof. unfold F.truediv. destruct (PrimFloat.eqb _ _); congruence. Qed.

Lemma exp_raises M a x : exp M a = Raise x -> x = OverflowError.
Proof. unfold exp. destruct (math_exp M a); congruence. Qed.

Lemma getitem_raises w key x :
  getitem w key = Raise x -> x = KeyError key /\ dict_get key w = None.
Proof. unfold getitem. destruct (dict_get key w); [done|]. by intros [= <-]. Qed.

Lemma getitem_Ok w key v : getitem w key = Ok v -> dict_get key w = Some v.
Proof. unfold getitem. destruct (dict_get key w); [|done]. by intros [= <-]. Qed.

(** The hybrid score with the four weights [wl], [wc], [ws] and [wt]:
    the weighted sum of the counters, times [exp(-wt * elapsed)]. *)
Definition weighted_score (M : PyMath) (post : Post) (wl wc ws wt : float)
    (now : float) : result float :=
  l ← F.of_int (likes post);
  c ← F.of_int (comments post);
  s ← F.of_int (shares post);
  time_factor ←
    exp M (PrimFloat.mul (PrimFloat.opp wt)
             (PrimFloat.sub now (timestamp post)));
  Ok (PrimFloat.mul
        (PrimFloat.add
           (PrimFloat.add (PrimFloat.mul l wl) (PrimFloat.mul c wc))
           (PrimFloat.mul s ws))
        time_factor).

(** C8, as the code has it. Without a weights map the hybrid scorer uses
    the default map. A supplied map is used as given: when it holds the
    four keys, the score is the weighted score with the four values of the
    map, and nothing else of the map or of the defaults enters it. When the
    map lacks one of the four keys the call raises, with [KeyError] for a
    key the map lacks unless a counter is too large for a float
    ([OverflowError]) before that key is read. *)
Theorem hybrid_weights_all_or_none M post now :
  _hybrid_score M post None now
  = _hybrid_score M post (Some default_weights) now /\
  (forall w wl wc ws wt,
     dict_get "likes" w = Some wl -> dict_get "comments" w = Some wc ->
     dict_get "shares" w = Some ws -> dict_get "time_decay" w = Some wt ->
     _hybrid_score M post (Some w) now
     = weighted_score M post wl wc ws wt now) /\
  forall w key,
    key ∈ weight_keys -> dict_get key w = None ->
    exists x,
      _hybrid_score M post (Some w) now = Raise x /\
      (x = OverflowError \/
       exists k, k ∈ weight_keys /\ dict_get k w = None /\ x = KeyError k).
Proof.
  split; [reflexivity|]. split.
  { intros w wl wc ws wt Hl Hc Hs Ht.
    unfold _hybrid_score, weighted_score, getitem.
    rewrite Hl, Hc, Hs, Ht. cbn.
    destruct (F.of_int (likes post)); [|done]. cbn.
    destruct (F.of_int (comments post)); [|done]. cbn.
    by destruct (F.of_int (shares post)). }
  intros w key Hkey Hnone.
  assert (forall k, k ∈ weight_keys -> forall y,
            getitem w k = Raise y ->
            y = OverflowError \/
            exists k', k' ∈ weight_keys /\ dict_get k' w = None /\
              y = KeyError k') as Hget.
  { intros k Hk y Hy. apply getitem_raises in Hy as [-> Hy]. right.
    by exists k. }
  unfold _hybrid_score.
  destruct (getitem w "likes") as [wl|y] eqn:E1; cbn;
    [|eexists; split; [done|]; eapply Hget; [|done]; in_list].
  destruct (F.of_int (likes post)) as [l|y] eqn:E2; cbn;
    [|eexists; split; [done|]; left; by eapply of_int_raises].
  destruct (getitem w "comments") as [wc|y] eqn:E3; cbn;
    [|eexists; split; [done|]; eapply Hget; [|done]; in_list].
  destruct (F.of_int (comments post)) as [c|y] eqn:E4; cbn;
    [|eexists; split; [done|]; left; by eapply of_int_raises].
  destruct (getitem w "shares") as [ws|y] eqn:E5; cbn;
    [|eexists; split; [done|]; eapply Hget; [|done]; in_list].
  destruct (F.of_int (shares post)) as [sh|y] eqn:E6; cbn;
    [|eexists; split; [done|]; left; by eapply of_int_raises].
  destruct (getitem w "time_decay") as [wt|y] eqn:E7; cbn;
    [|eexists; split; [done|]; eapply Hget; [|done]; in_list].
  exfalso. apply getitem_Ok in E1, E3, E5, E7.
  unfold weight_keys in Hkey.
  repeat (apply elem_of_cons in Hkey as [->|Hkey]; [congruence|]).
  by apply elem_of_nil in Hkey.
Qed.

(** A post with likes 100 and comments 20, created at time 0. *)
Definition post_a : Post := mkPost "a" 100 20 0 0 0 0%float 140.

(** A math library of which only [exp(0) = 1] is known. *)
Definition exp_at_zero : PyMath :=
  {| math_exp := fun x => if PrimFloat.eqb x 0%float then Some 1%float
                          else None;
     math_log10 := fun _ => PrimFloat.nan;
     py_round := fun x _ => x |}.

(** A full map that is not the default one: likes count five times, and
    nothing else counts. *)
Definition likes_only : weights_t :=
  [("likes", 5.0%float); ("comments", 0.0%float); ("shares", 0.0%float);
   ("time_decay", 0.0%float)].

Lemma hybrid_weights_all_or_none_witness :
  _hybrid_score exp_at_zero post_a (Some likes_only) 0%float = Ok 500%float /\
  _hybrid_score exp_at_zero post_a None 0%float = Ok 140%float /\
  exists x,
    _hybrid_score no_math post_a (Some [("likes", 1.0%float)]) 0%float
    = Raise x /\
    (x = OverflowError \/
     exists k, k ∈ weight_keys /\
       dict_get k [("likes", 1.0%float)] = None /\ x = KeyError k).
Proof.
  split; [|split; [reflexivity|]].
  - destruct (hybrid_weights_all_or_none exp_at_zero post_a 0%float)
      as (_ & H & _).
    by rewrite (H likes_only 5.0%float 0.0%float 0.0%float 0.0%float).
  - destruct (hybrid_weights_all_or_none no_math post_a 0%float)
      as (_ & _ & H).
    apply (H [("likes", 1.0%float)] "shares"); [in_list|reflexivity].
Defined.

(** C8, as the claim has it, fails: with the map [{'likes': 1.0}] the
    scorer raises [KeyError('comments')]; it does not fall back to the
    default weight of comments. *)
Lemma hybrid_partial_map_raises :
  _hybrid_score no_math post_a (Some [("likes", 1.0%float)]) 0%float
  = Raise (KeyError "comments").
Proof. reflexivity. Qed.

(** ** Algorithm names *)

Definition algorithms : list string :=
  ["hot_score"; "engagement_score"; "time_decay"; "hybrid"].

Definition registered (algorithm : string) : bool :=
  existsb (String.eqb algorithm) algorithms.

Lemma registered_false algorithm :
  registered algorithm = false ->
  String.eqb algorithm "hot_score" = false /\
  String.eqb algorithm "engagement_score" = false /\
  String.eqb algorithm "time_decay" = false /\
  String.eqb algorithm "hybrid" = false.
Proof.
  unfold registered, algorithms. cbn [existsb]. rewrite !orb_false_iff.
  tauto.
Qed.

Section Names.
Variable M : PyMath.

Lemma dispatch_same post algorithm kwargs now :
  _calculate_scores_body M post algorithm kwargs now
  = _calculate_score M post algorithm kwargs now.
Proof. reflexivity. Qed.

Lemma hot_score_raises post now x :
  _hot_score M post now = Raise x ->
  x = OverflowError \/ x = ZeroDivisionError.
Proof.
  unfold _hot_score.
  destruct (F.of_int 1134028003) eqn:E1; cbn;
    [|intros [= ?]; subst; left; by eapply of_int_raises].
  destruct (F.of_int (if 0 <? _ then _ else _)) eqn:E2; cbn;
    [|intros [= ?]; subst; left; by eapply of_int_raises].
  destruct (F.of_int 45000) eqn:E3; cbn;
    [|intros [= ?]; subst; left; by eapply of_int_raises].
  destruct (F.truediv _ _) eqn:E4; cbn;
    [done|intros [= ?]; subst; right; by eapply truediv_raises].
Qed.

Lemma engagement_score_raises post now x :
  _engagement_score post now = Raise x ->
  x = OverflowError \/ x = ZeroDivisionError.
Proof.
  unfold _engagement_score.
  destruct (F.of_int _) eqn:E1; cbn;
    [|intros [= ?]; subst; left; by eapply of_int_raises].
  intros H. right. by eapply truediv_raises.
Qed.

Lemma time_decay_score_raises post rate now x :
  _time_decay_score M post rate now = Raise x -> x = OverflowError.
Proof.
  unfold _time_decay_score.
  destruct (exp M _) eqn:E1; cbn; [|intros [= ?]; subst; by eapply exp_raises].
  destruct (F.of_int _) eqn:E2; cbn;
    [done|intros [= ?]; subst; by eapply of_int_raises].
Qed.

Lemma hybrid_score_raises post w now x :
  _hybrid_score M post w now = Raise x ->
  x = OverflowError \/ exists k, x = KeyError k.
Proof.
  unfold _hybrid_score.
  set (m := match w with Some w => w | None => default_weights end).
  destruct (getitem m "likes") eqn:E1; cbn;
    [|intros [= ?]; subst; right; apply getitem_raises in E1 as [-> _];
      eauto].
  destruct (F.of_int (likes post)) eqn:E2; cbn;
    [|intros [= ?]; subst; left; by eapply of_int_raises].
  destruct (getitem m "comments") eqn:E3; cbn;
    [|intros [= ?]; subst; right; apply getitem_raises in E3 as [-> _];
      eauto].
  destruct (F.of_int (comments post)) eqn:E4; cbn;
    [|intros [= ?]; subst; left; by eapply of_int_raises].
  destruct (getitem m "shares") eqn:E5; cbn;
    [|intros [= ?]; subst; right; apply getitem_raises in E5 as [-> _];
      eauto].
  destruct (F.of_int (shares post)) eqn:E6; cbn;
    [|intros [= ?]; subst; left; by eapply of_int_raises].
  destruct (getitem m "time_decay") eqn:E7; cbn;
    [|intros [= ?]; subst; right; apply getitem_raises in E7 as [-> _];
      eauto].
  destruct (exp M _) eqn:Eexp; cbn; [done|].
  intros [= ?]; subst. left. by eapply exp_raises.
Qed.

(** A registered name reaches a scorer, and no scorer raises the error of
    an unknown name. *)
Lemma calculate_score_unknown post algorithm kwargs now :
  _calculate_score M post algorithm kwargs now
  = Raise (unknown_algorithm algorithm)
  <-> registered algorithm = false.
Proof.
  unfold _calculate_score, registered, algorithms. cbn [existsb].
  destruct (String.eqb algorithm "hot_score"); cbn.
  { split; [|done]. intros H. by apply hot_score_raises in H as [|]. }
  destruct (String.eqb algorithm "engagement_score"); cbn.
  { split; [|done]. intros H. by apply engagement_score_raises in H as [|]. }
  destruct (String.eqb algorithm "time_decay"); cbn.
  { split; [|done]. intros H. by apply time_decay_score_raises in H. }
  destruct (String.eqb algorithm "hybrid"); cbn; [|done].
  split; [|done]. intros H. by apply hybrid_score_raises in H as [|[? ?]].
Qed.

(** C9, as the code has it. Both paths dispatch on the same four names, and
    a name outside them makes the dispatch raise [ValueError] ("Unknown
    algorithm"), which no registered name does. The dispatch runs once per
    post: the engine raises when its store is not empty (and it holds no
    unexpired cache entry under the name), and the streaming selector when
    it reads at least one post. *)
Theorem unknown_algorithm_raises algorithm_ :
  (forall post kwargs now,
     _calculate_scores_body M post algorithm_ kwargs now
     = _calculate_score M post algorithm_ kwargs now /\
     (_calculate_score M post algorithm_ kwargs now
      = Raise (unknown_algorithm algorithm_)
      <-> registered algorithm_ = false)) /\
  (registered algorithm_ = false ->
   (forall e limit kwargs now,
      posts e ≠ [] -> _is_cache_valid algorithm_ now e = false ->
      get_ranked_posts M algorithm_ limit kwargs now e
      = (Raise (unknown_algorithm algorithm_), e)) /\
   (forall self_batch_size top_k kwargs now post_iterator,
      post_iterator ≠ [] -> 1 <= self_batch_size ->
      rank_posts_streaming M self_batch_size algorithm_ top_k kwargs now
        post_iterator
      = Raise (unknown_algorithm algorithm_))).
Proof.
  split.
  { intros post kwargs now. split; [apply dispatch_same|].
    apply calculate_score_unknown. }
  intros Hreg. split.
  - intros e limit kwargs now Hne Hc. unfold get_ranked_posts.
    rewrite Hc. unfold _calculate_scores.
    destruct (posts e) as [|[pid post] rest]; [done|]. cbn.
    rewrite dispatch_same.
    by rewrite (proj2 (calculate_score_unknown post algorithm_ kwargs now)
                  Hreg).
  - intros bs top_k kwargs now it Hne Hbs. unfold rank_posts_streaming.
    destruct it as [|post rest]; [done|]. cbn [length batches].
    destruct (Z.to_nat bs) as [|n] eqn:En; [lia|]. cbn.
    unfold score_and_keep.
    by rewrite (proj2 (calculate_score_unknown post algorithm_ kwargs now)
                  Hreg).
Qed.
End Names.

Lemma unknown_algorithm_raises_witness :
  get_ranked_posts no_math "not_a_real_algorithm" 100 no_kwargs 0%float
    store_a
  = (Raise (ValueError "Unknown algorithm: not_a_real_algorithm"), store_a) /\
  rank_posts_streaming no_math 100000 "not_a_real_algorithm" 10 no_kwargs
    0%float [post_a]
  = Raise (ValueError "Unknown algorithm: not_a_real_algorithm").
Proof.
  destruct (unknown_algorithm_raises no_math "not_a_real_algorithm")
    as [_ H].
  destruct (H eq_refl) as [Hengine Hstream]. split.
  - apply Hengine; [discriminate | reflexivity].
  - apply Hstream; [discriminate | lia].
Defined.

(** C9, as the claim has it, fails on the empty store and on the empty
    sequence: no post is scored, the name is never looked at, and both
    paths return an empty ranking. *)
Lemma unknown_algorithm_accepted_when_empty :
  (get_ranked_posts no_math "not_a_real_algorithm" 100 no_kwargs 0%float
     new_engine).1 = Ok [] /\
  rank_posts_streaming no_math 100000 "not_a_real_algorithm" 10 no_kwargs
    0%float []
  = Ok (mkResult [] 0 "not_a_real_algorithm" 100000).
Proof. split; reflexivity. Qed.

(** * The streaming selector *)

(** ** Tied scores *)

(** C2: the code pushes [(score, post)] on the heap, with no tie-break
    between the score and the post. When the first two posts of a sequence
    differ and have equal scores, and the heap has room for both, the second
    [heappush] compares the two posts and raises [TypeError]. *)
Theorem tied_scores_raise M self_batch_size algorithm_ top_k kwargs now
    p q s s' rest :
  1 <= self_batch_size -> 2 <= top_k ->
  _calculate_score M p algorithm_ kwargs now = Ok s ->
  _calculate_score M q algorithm_ kwargs now = Ok s' ->
  PrimFloat.eqb s' s = true -> Post_eqb q p = false ->
  rank_posts_streaming M self_batch_size algorithm_ top_k kwargs now
    (p :: q :: rest)
  = Raise unorderable.
Proof.
  intros Hbs Hk Hp Hq Hs Hpq. unfold rank_posts_streaming.
  assert (score_and_keep M algorithm_ top_k kwargs now [] p = Ok [(s, p)])
    as H1.
  { unfold score_and_keep. rewrite Hp. cbn [mbind result_bind length].
    destruct (Z.ltb_spec (Z.of_nat 0) top_k); [reflexivity|lia]. }
  assert (score_and_keep M algorithm_ top_k kwargs now [(s, p)] q
          = Raise unorderable) as H2.
  { unfold score_and_keep. rewrite Hq. cbn [mbind result_bind length].
    destruct (Z.ltb_spec (Z.of_nat 1) top_k); [|lia].
    cbn. unfold entry_lt. cbn. by rewrite Hs, Hpq. }
  cbn [length batches].
  destruct (Z.to_nat self_batch_size) as [|[|n]] eqn:En; [lia| |].
  - cbn [take drop score_batch]. rewrite H1. cbn. by rewrite H2.
  - cbn [take drop score_batch]. rewrite H1. cbn. by rewrite H2.
Qed.

(** Two posts with no engagement, created at the same time. *)
Definition post_b : Post := mkPost "b" 0 0 0 0 0 0%float 0.
Definition post_c : Post := mkPost "c" 0 0 0 0 0 0%float 0.

Lemma tied_scores_raise_witness :
  rank_posts_streaming no_math 100000 "engagement_score" 100 no_kwargs
    10%float [post_b; post_c]
  = Raise (TypeError
             "'<' not supported between instances of 'Post' and 'Post'").
Proof.
  apply (tied_scores_raise no_math 100000 "engagement_score" 100 no_kwargs
           10%float post_b post_c 0%float 0%float []);
    [lia | lia | reflexivity | reflexivity | reflexivity | reflexivity].
Defined.

(** Three posts created at time 0, with engagement 5, 3 and 3. *)
Definition posts_with_tie : list Post :=
  [mkPost "x" 5 0 0 0 0 0%float 5; mkPost "y" 3 0 0 0 0 0%float 3;
   mkPost "z" 3 0 0 0 0 0%float 3].

(** C1 at a sequence with a tie: of three posts with scores 5, 3 and 3 the
    top two are asked for; the third post meets the second at the root of
    the full heap, [heappushpop] compares the two posts, and the call raises
    instead of returning two ids. The same happens with batches of one. *)
Theorem top_k_with_tie_raises :
  (fun p => _engagement_score p 0%float) <$> posts_with_tie
  = [Ok 5%float; Ok 3%float; Ok 3%float] /\
  rank_posts_streaming no_math 100000 "engagement_score" 2 no_kwargs 0%float
    posts_with_tie = Raise unorderable /\
  rank_posts_streaming no_math 1 "engagement_score" 2 no_kwargs 0%float
    posts_with_tie = Raise unorderable.
Proof. repeat split. Qed.

(** ** The heap, when its items can be compared

    [U] holds the items a call can meet. They are pairwise different, and
    on two different items of [U] the comparison [lt] returns [ltb], a
    strict total order. *)

Lemma parent_lt pos : (0 < pos)%nat -> ((pos - 1) `div` 2 < pos)%nat.
Proof. intros. apply Nat.Div0.div_lt_upper_bound. lia. Qed.

Lemma parent_child pos :
  (0 < pos)%nat ->
  pos = (2 * ((pos - 1) `div` 2) + 1)%nat \/
  pos = (2 * ((pos - 1) `div` 2) + 2)%nat.
Proof.
  intros. pose proof (Nat.div_mod_eq (pos - 1) 2).
  pose proof (Nat.mod_upper_bound (pos - 1) 2). lia.
Qed.

Lemma child_parent i j :
  (j = 2 * i + 1 \/ j = 2 * i + 2)%nat -> ((j - 1) `div` 2 = i)%nat.
Proof.
  intros [->| ->].
  - replace (2 * i + 1 - 1)%nat with (i * 2)%nat by lia.
    by rewrite Nat.div_mul.
  - replace (2 * i + 2 - 1)%nat with (1 + i * 2)%nat by lia.
    by rewrite Nat.div_add.
Qed.

Lemma insert_swap_perm {A} (l : list A) i j a b :
  l !! i = Some a -> l !! j = Some b -> <[i:=b]>(<[j:=a]> l) ≡ₚ l.
Proof.
  revert i j. induction l as [|x l IH]; intros [|i] [|j]; cbn; try done.
  - by intros [= ->] [= ->].
  - intros [= ->] Hj.
    rewrite (insert_take_drop l j) by (by eapply lookup_lt_Some).
    rewrite <-(take_drop_middle l j b Hj) at 3. solve_Permutation.
  - intros Hi [= ->].
    rewrite (insert_take_drop l i) by (by eapply lookup_lt_Some).
    rewrite <-(take_drop_middle l i a Hi) at 3. solve_Permutation.
  - intros Hi Hj. f_equiv. by apply IH.
Qed.

(** Moving the hole: the item [p] at [j] goes to the hole at [i], and the
    hole to [j]. *)
Lemma move_hole_perm {A} (h : list A) i j x p :
  i ≠ j -> (i < length h)%nat -> h !! j = Some p ->
  <[j:=x]>(<[i:=p]> h) ≡ₚ <[i:=x]> h.
Proof.
  intros Hij Hi Hj.
  assert (<[i:=p]>(<[j:=x]>(<[i:=x]> h)) = <[j:=x]>(<[i:=p]> h)) as <-.
  { rewrite (list_insert_insert_ne _ j i x x) by done.
    rewrite list_insert_insert_eq. by apply list_insert_insert_ne. }
  apply insert_swap_perm.
  - by apply list_lookup_insert_eq.
  - by rewrite list_lookup_insert_ne.
Qed.

Section HeapCorrect.
Context {A : Type}.
Variable lt : A -> A -> result bool.
Variable ltb : A -> A -> bool.
Variable U : list A.
Hypothesis lt_ok :
  forall x y, x ∈ U -> y ∈ U -> x ≠ y -> lt x y = Ok (ltb x y).
Hypothesis ltb_total :
  forall x y, x ∈ U -> y ∈ U -> x ≠ y -> ltb x y = true \/ ltb y x = true.
Hypothesis ltb_trans :
  forall x y z, x ∈ U -> y ∈ U -> z ∈ U ->
    ltb x y = true -> ltb y z = true -> ltb x z = true.

Definition is_child (i j : nat) : Prop :=
  (j = 2 * i + 1 \/ j = 2 * i + 2)%nat.

(** The heap invariant: every item is less than its children. *)
Definition heap_ordered (h : list A) : Prop :=
  forall i j a b,
    is_child i j -> h !! i = Some a -> h !! j = Some b -> ltb a b = true.

(** The invariant off the hole at [pos]. *)
Definition ordered_except (h : list A) (pos : nat) : Prop :=
  forall i j a b,
    is_child i j -> i ≠ pos -> j ≠ pos ->
    h !! i = Some a -> h !! j = Some b -> ltb a b = true.

(** The parent of the hole is less than the children of the hole. *)
Definition spans_hole (h : list A) (pos : nat) : Prop :=
  forall j c p,
    is_child pos j -> h !! j = Some c -> (0 < pos)%nat ->
    h !! ((pos - 1) `div` 2)%nat = Some p -> ltb p c = true.

(** [x] is less than the children of the hole. *)
Definition fits_above (h : list A) (pos : nat) (x : A) : Prop :=
  forall j c, is_child pos j -> h !! j = Some c -> ltb x c = true.

(** Items of a heap: pairwise different items of [U]. *)
Definition items (T : list A) : Prop := NoDup T /\ T ⊆ U.

Lemma items_perm T T' : T ≡ₚ T' -> items T -> items T'.
Proof. intros HP [Hn Hs]. split; by rewrite <-HP. Qed.

(** What filling the hole with [x] gives. *)
Definition filled (h : list A) (pos : nat) (x : A) : list A := <[pos:=x]> h.

Lemma filled_in_U h pos x i a :
  items (filled h pos x) -> (pos < length h)%nat ->
  (i = pos /\ a = x \/ i ≠ pos /\ h !! i = Some a) -> a ∈ U.
Proof.
  intros [_ Hs] Hpos Hi. apply Hs.
  apply list_elem_of_lookup. exists i. unfold filled.
  destruct Hi as [[-> ->]|[Hne Ha]].
  - by apply list_lookup_insert_eq.
  - by rewrite list_lookup_insert_ne.
Qed.

Lemma filled_neq h pos x i j a b :
  items (filled h pos x) -> (pos < length h)%nat ->
  (i = pos /\ a = x \/ i ≠ pos /\ h !! i = Some a) ->
  (j = pos /\ b = x \/ j ≠ pos /\ h !! j = Some b) ->
  i ≠ j -> a ≠ b.
Proof.
  intros [Hn _] Hpos Hi Hj Hij ->.
  apply Hij. apply (NoDup_lookup (filled h pos x) i j b Hn); unfold filled.
  - destruct Hi as [[-> ->]|[Hne Ha]].
    + by apply list_lookup_insert_eq.
    + by rewrite list_lookup_insert_ne.
  - destruct Hj as [[-> ->]|[Hne Hb]].
    + by apply list_lookup_insert_eq.
    + by rewrite list_lookup_insert_ne.
Qed.

Lemma fill_ordered h pos x :
  (pos < length h)%nat ->
  ordered_except h pos -> fits_above h pos x ->
  (forall p, (0 < pos)%nat -> h !! ((pos - 1) `div` 2)%nat = Some p ->
             ltb p x = true) ->
  heap_ordered (filled h pos x).
Proof.
  intros Hpos Hord Hfit Hpar i j a b Hc. unfold filled.
  destruct (decide (i = pos)) as [->|Hi], (decide (j = pos)) as [->|Hj].
  - unfold is_child in Hc. lia.
  - rewrite list_lookup_insert_eq, list_lookup_insert_ne by done.
    intros [= <-] Hb. by eapply Hfit.
  - rewrite list_lookup_insert_ne, list_lookup_insert_eq by done.
    intros Ha [= <-]. apply Hpar.
    + unfold is_child in Hc. lia.
    + by rewrite (child_parent i pos Hc).
  - rewrite !list_lookup_insert_ne by done. by apply Hord.
Qed.

Lemma siftdown_loop_correct fuel h pos x :
  (pos <= fuel)%nat -> (pos < length h)%nat ->
  items (filled h pos x) ->
  ordered_except h pos -> spans_hole h pos -> fits_above h pos x ->
  exists h',
    heapq._siftdown_loop lt fuel h 0 pos x = Ok h' /\
    h' ≡ₚ filled h pos x /\ heap_ordered h'.
Proof.
  revert h pos. induction fuel as [|fuel IH]; intros h pos Hf Hpos HT Hord
    Hspan Hfit.
  - assert (pos = 0)%nat as -> by lia. cbn. unfold heapq.setitem.
    destruct (Nat.ltb_spec 0 (length h)); [|lia].
    eexists. split; [done|]. split; [done|].
    apply fill_ordered; try done. intros p Hp. lia.
  - cbn [heapq._siftdown_loop]. destruct (Nat.ltb_spec 0 pos) as [H0|H0].
    2:{ assert (pos = 0)%nat as -> by lia. unfold heapq.setitem.
        destruct (Nat.ltb_spec 0 (length h)); [|lia].
        eexists. split; [done|]. split; [done|].
        apply fill_ordered; try done. intros p Hp. lia. }
    pose proof (parent_lt pos H0) as Hlt.
    set (parentpos := ((pos - 1) `div` 2)%nat) in *.
    destruct (lookup_lt_is_Some_2 h parentpos) as [p Hp]; [lia|].
    unfold heapq.getitem. rewrite Hp. cbn [mbind result_bind].
    assert (x ∈ U) as HxU by (eapply filled_in_U; eauto).
    assert (p ∈ U) as HpU.
    { eapply (filled_in_U h pos x parentpos); eauto. right. split; [lia|done]. }
    assert (x ≠ p) as Hxp.
    { eapply (filled_neq h pos x pos parentpos); eauto; [|lia].
      right. split; [lia|done]. }
    rewrite (lt_ok x p HxU HpU Hxp). cbn [mbind result_bind].
    destruct (ltb x p) eqn:Hlt_xp.
    + unfold heapq.setitem. destruct (Nat.ltb_spec pos (length h)); [|lia].
      cbn [mbind result_bind].
      assert (filled (<[pos:=p]> h) parentpos x ≡ₚ filled h pos x) as HP.
      { unfold filled. apply move_hole_perm; [lia|done|done]. }
      destruct (IH (<[pos:=p]> h) parentpos) as (h' & Hrun & Hperm & Hheap).
      * lia.
      * rewrite length_insert. lia.
      * by apply (items_perm _ _ (symmetry HP)).
      * (* the invariant off the new hole *)
        intros i j a b Hc Hi Hj.
        destruct (decide (i = pos)) as [->|Hi'].
        { unfold is_child in Hc.
          rewrite list_lookup_insert_eq by done.
          rewrite list_lookup_insert_ne by lia. intros [= <-] Hb.
          eapply (Hspan j b p); eauto. }
        destruct (decide (j = pos)) as [->|Hj'].
        { exfalso. apply Hi. symmetry. by apply child_parent. }
        rewrite !list_lookup_insert_ne by done. by apply Hord.
      * (* the grandparent and the children of the new hole *)
        intros j c g Hc Hj Hpp Hg.
        pose proof (parent_lt parentpos Hpp) as Hgrand.
        rewrite list_lookup_insert_ne in Hg by lia.
        assert (ltb g p = true) as Hgp.
        { eapply (Hord ((parentpos - 1) `div` 2)%nat parentpos g p); eauto.
          - by apply parent_child.
          - lia.
          - lia. }
        destruct (decide (j = pos)) as [->|Hj'].
        { rewrite list_lookup_insert_eq in Hj by done. by injection Hj as <-. }
        rewrite list_lookup_insert_ne in Hj by done.
        assert (ltb p c = true) as Hpc.
        { eapply (Hord parentpos j p c); eauto. lia. }
        assert (g ∈ U) as HgU.
        { eapply (filled_in_U h pos x ((parentpos - 1) `div` 2)%nat); eauto.
          right. split; [lia|done]. }
        assert (c ∈ U) as HcU.
        { eapply (filled_in_U h pos x j); eauto. }
        by apply (ltb_trans g p c).
      * (* [x] and the children of the new hole *)
        intros j c Hc Hj.
        destruct (decide (j = pos)) as [->|Hj'].
        { rewrite list_lookup_insert_eq in Hj by done. by injection Hj as <-. }
        rewrite list_lookup_insert_ne in Hj by done.
        assert (ltb p c = true) as Hpc.
        { eapply (Hord parentpos j p c); eauto. lia. }
        assert (c ∈ U) as HcU.
        { eapply (filled_in_U h pos x j); eauto. }
        by apply (ltb_trans x p c).
      * exists h'. split; [done|]. split; [|done]. by rewrite Hperm.
    + unfold heapq.setitem. destruct (Nat.ltb_spec pos (length h)); [|lia].
      eexists. split; [done|]. split; [done|].
      apply fill_ordered; try done. intros p' _ Hp'.
      assert (p' = p) as -> by (unfold parentpos in Hp; congruence).
      destruct (ltb_total x p HxU HpU Hxp); congruence.
Qed.

(** One round of the loop of [_siftup]: the smaller child [c], at [ch],
    moves up into the hole. *)
Lemma siftup_step h pos ch c x :
  (pos < length h)%nat -> is_child pos ch -> h !! ch = Some c ->
  ordered_except h pos -> spans_hole h pos ->
  (forall j s, is_child pos j -> j ≠ ch -> h !! j = Some s ->
               ltb c s = true) ->
  filled (<[pos:=c]> h) ch x ≡ₚ filled h pos x /\
  ordered_except (<[pos:=c]> h) ch /\
  spans_hole (<[pos:=c]> h) ch.
Proof.
  intros Hpos Hch Hc Hord Hspan Hmin.
  assert (pos ≠ ch) as Hne by (unfold is_child in Hch; lia).
  split; [|split].
  - unfold filled. by apply move_hole_perm.
  - intros i j a b Hij Hi Hj.
    destruct (decide (i = pos)) as [->|Hi'].
    { assert (j ≠ pos) by (unfold is_child in Hij; lia).
      rewrite list_lookup_insert_eq, list_lookup_insert_ne by done.
      intros [= <-] Hb. by eapply Hmin. }
    destruct (decide (j = pos)) as [->|Hj'].
    { rewrite list_lookup_insert_ne, list_lookup_insert_eq by done.
      intros Ha [= <-]. eapply (Hspan ch c a); eauto.
      - unfold is_child in Hij. lia.
      - by rewrite (child_parent i pos Hij). }
    rewrite !list_lookup_insert_ne by done. by apply Hord.
  - intros j c' p Hj Hc' _.
    rewrite (child_parent pos ch Hch).
    rewrite list_lookup_insert_eq by done.
    assert (j ≠ pos) by (unfold is_child in Hj, Hch; lia).
    rewrite list_lookup_insert_ne in Hc' by done.
    intros [= <-]. eapply (Hord ch j); eauto.
Qed.

Lemma siftup_loop_correct fuel h pos x :
  (length h <= fuel + pos)%nat -> (pos < length h)%nat ->
  items (filled h pos x) -> ordered_except h pos -> spans_hole h pos ->
  exists h' pos',
    heapq._siftup_loop lt fuel h (length h) pos = Ok (h', pos') /\
    length h' = length h /\ (pos' < length h)%nat /\
    (length h <= 2 * pos' + 1)%nat /\
    filled h' pos' x ≡ₚ filled h pos x /\ ordered_except h' pos'.
Proof.
  remember (length h) as endpos eqn:Hend.
  revert h pos Hend. induction fuel as [|fuel IH];
    intros h pos Hend Hf Hpos HT Hord Hspan; [lia|].
  cbn [heapq._siftup_loop].
  destruct (Nat.ltb_spec (2 * pos + 1) endpos) as [Hc|Hc].
  2:{ exists h, pos. by repeat split. }
  (* the smaller child *)
  assert (exists ch c,
            (if (2 * pos + 1 + 1 <? endpos)%nat
             then c ← heapq.getitem h (2 * pos + 1)%nat;
                  r ← heapq.getitem h (2 * pos + 1 + 1)%nat;
                  b ← lt c r;
                  Ok (if b : bool then (2 * pos + 1)%nat
                      else (2 * pos + 1 + 1)%nat)
             else Ok (2 * pos + 1)%nat) = Ok ch /\
            is_child pos ch /\ h !! ch = Some c /\
            forall j s, is_child pos j -> j ≠ ch -> h !! j = Some s ->
                        ltb c s = true) as (ch & c & -> & Hch & Hcc & Hmin).
  { destruct (lookup_lt_is_Some_2 h (2 * pos + 1)) as [cl Hcl]; [lia|].
    destruct (Nat.ltb_spec (2 * pos + 1 + 1) endpos) as [Hr|Hr].
    - destruct (lookup_lt_is_Some_2 h (2 * pos + 1 + 1)) as [cr Hcr]; [lia|].
      unfold heapq.getitem. rewrite Hcl, Hcr. cbn [mbind result_bind].
      assert (cl ∈ U) as HlU.
      { eapply (filled_in_U h pos x (2 * pos + 1)); eauto; [lia|].
        right. split; [lia|done]. }
      assert (cr ∈ U) as HrU.
      { eapply (filled_in_U h pos x (2 * pos + 1 + 1)); eauto; [lia|].
        right. split; [lia|done]. }
      assert (cl ≠ cr) as Hlr.
      { eapply (filled_neq h pos x (2 * pos + 1) (2 * pos + 1 + 1));
          eauto; try lia; right; (split; [lia|done]). }
      rewrite (lt_ok cl cr HlU HrU Hlr). cbn [mbind result_bind].
      destruct (ltb cl cr) eqn:E.
      + exists (2 * pos + 1)%nat, cl. split; [done|].
        split; [by left|]. split; [done|].
        intros j s [->| ->] Hne Hs; [done|].
        replace (2 * pos + 2)%nat with (2 * pos + 1 + 1)%nat in Hs by lia.
        congruence.
      + exists (2 * pos + 1 + 1)%nat, cr. split; [done|].
        split; [right; lia|]. split; [done|].
        intros j s [->| ->] Hne Hs; [|lia].
        assert (s = cl) as -> by congruence.
        destruct (ltb_total cl cr HlU HrU Hlr); congruence.
    - exists (2 * pos + 1)%nat, cl. split; [done|].
      split; [by left|]. split; [done|].
      intros j s [->| ->] Hne Hs; [done|].
      apply lookup_lt_Some in Hs. lia. }
  cbn [mbind result_bind]. unfold heapq.getitem. rewrite Hcc.
  cbn [mbind result_bind]. unfold heapq.setitem.
  destruct (Nat.ltb_spec pos (length h)) as [_|]; [|lia].
  cbn [mbind result_bind].
  destruct (siftup_step h pos ch c x) as (HP & Hord' & Hspan'); try done;
    [lia|].
  assert (ch < length h)%nat as Hchlt by (by eapply lookup_lt_Some).
  destruct (IH (<[pos:=c]> h) ch) as (h' & pos' & Hrun & Hlen & Hpos' & Hleaf
    & HP' & Hord'').
  - by rewrite length_insert.
  - unfold is_child in Hch. lia.
  - lia.
  - by apply (items_perm _ _ (symmetry HP)).
  - done.
  - done.
  - exists h', pos'. split; [done|].
    repeat split; try done. by rewrite HP'.
Qed.

Lemma leaf_no_child (h : list A) pos j c :
  (length h <= 2 * pos + 1)%nat -> is_child pos j -> h !! j = Some c -> False.
Proof.
  intros Hleaf Hj Hc. apply lookup_lt_Some in Hc. unfold is_child in Hj. lia.
Qed.

(** From a leaf, where the hole has no children, [_siftdown] restores the
    heap. *)
Lemma siftdown_from_leaf h pos x :
  (pos < length h)%nat -> (length h <= 2 * pos + 1)%nat ->
  h !! pos = Some x -> items h -> ordered_except h pos ->
  exists h',
    heapq._siftdown lt h 0 pos = Ok h' /\ h' ≡ₚ h /\ heap_ordered h'.
Proof.
  intros Hpos Hleaf Hx HT Hord. unfold heapq._siftdown, heapq.getitem.
  rewrite Hx. cbn [mbind result_bind].
  assert (filled h pos x = h) as Hfill by by apply list_insert_id.
  destruct (siftdown_loop_correct pos h pos x) as (h' & Hrun & HP & Hheap);
    try done.
  - by rewrite Hfill.
  - intros j c p Hj Hc. by destruct (leaf_no_child h pos j c).
  - intros j c Hj Hc. by destruct (leaf_no_child h pos j c).
  - exists h'. by rewrite <-Hfill at 2.
Qed.

Lemma siftup_correct h x :
  h !! 0%nat = Some x -> items h -> ordered_except h 0 ->
  exists h', heapq._siftup lt h 0 = Ok h' /\ h' ≡ₚ h /\ heap_ordered h'.
Proof.
  intros Hx HT Hord. unfold heapq._siftup, heapq.getitem.
  rewrite Hx. cbn [mbind result_bind].
  assert (0 < length h)%nat as Hlen by (by eapply lookup_lt_Some).
  assert (filled h 0 x = h) as Hfill by by apply list_insert_id.
  destruct (siftup_loop_correct (length h) h 0 x)
    as (h1 & p1 & Hrun & Hlen1 & Hp1 & Hleaf & HP & Hord1); try done.
  - lia.
  - by rewrite Hfill.
  - intros j c p _ _ H0. lia.
  - rewrite Hrun. cbn [mbind result_bind fst snd]. unfold heapq.setitem.
    destruct (Nat.ltb_spec p1 (length h1)); [|lia].
    cbn [mbind result_bind]. rewrite Hfill in HP.
    destruct (siftdown_from_leaf (<[p1:=x]> h1) p1 x)
      as (h' & Hrun' & HP' & Hheap).
    + rewrite length_insert. lia.
    + rewrite length_insert. lia.
    + apply list_lookup_insert_eq. lia.
    + by apply (items_perm _ _ (symmetry HP)).
    + intros i j a b Hij Hi Hj. rewrite !list_lookup_insert_ne by done.
      by apply Hord1.
    + exists h'. split; [done|]. split; [|done]. by rewrite HP'.
Qed.

Lemma heappush_correct h x :
  heap_ordered h -> items (h ++ [x]) ->
  exists h',
    heapq.heappush lt h x = Ok h' /\ h' ≡ₚ h ++ [x] /\ heap_ordered h'.
Proof.
  intros Hheap HT. unfold heapq.heappush.
  replace (length (h ++ [x]) - 1)%nat with (length h)
    by (rewrite length_app; cbn; lia).
  apply (siftdown_from_leaf (h ++ [x]) (length h) x); try done.
  - rewrite length_app. cbn. lia.
  - rewrite length_app. cbn. lia.
  - by rewrite lookup_app_r, Nat.sub_diag.
  - intros i j a b Hij Hi Hj Ha Hb.
    assert (i < length h)%nat.
    { apply lookup_lt_Some in Ha. rewrite length_app in Ha. cbn in Ha. lia. }
    assert (j < length h)%nat.
    { apply lookup_lt_Some in Hb. rewrite length_app in Hb. cbn in Hb. lia. }
    rewrite lookup_app_l in Ha, Hb by done. by eapply Hheap.
Qed.

(** The root of a heap is less than every other item. *)
Lemma root_minimal h top :
  heap_ordered h -> items h -> h !! 0%nat = Some top ->
  forall i y, (0 < i)%nat -> h !! i = Some y -> ltb top y = true.
Proof.
  intros Hheap [Hn Hs] Htop i.
  induction (lt_wf i) as [i _ IH]. intros y Hi Hy.
  pose proof (parent_lt i Hi) as Hlt.
  destruct (lookup_lt_is_Some_2 h ((i - 1) `div` 2)) as [p Hp].
  { apply lookup_lt_Some in Hy. lia. }
  assert (ltb p y = true) as Hpy.
  { apply (Hheap ((i - 1) `div` 2)%nat i p y); [|done|done].
    by apply parent_child. }
  destruct (decide ((i - 1) `div` 2 = 0)%nat) as [H0|H0].
  - rewrite H0 in Hp. congruence.
  - apply (ltb_trans top p y); try done.
    + apply Hs. by eapply list_elem_of_lookup_2.
    + apply Hs. by eapply list_elem_of_lookup_2.
    + apply Hs. by eapply list_elem_of_lookup_2.
    + apply (IH ((i - 1) `div` 2)%nat); [done|lia|done].
Qed.

(** [heappushpop] either hands [x] back, when [x] is less than every item
    of the heap, or hands back the root, which is less than [x] and than
    every other item, and keeps [x] in its place. *)
Lemma heappushpop_correct h x :
  heap_ordered h -> items (x :: h) ->
  exists out h',
    heapq.heappushpop lt h x = Ok (out, h') /\
    heap_ordered h' /\ out :: h' ≡ₚ x :: h /\
    (forall y, y ∈ h' -> ltb out y = true).
Proof.
  intros Hheap HT. destruct h as [|top h0].
  { exists x, []. cbn. split; [done|]. split; [done|]. split; [done|].
    intros y Hy. by apply elem_of_nil in Hy. }
  destruct HT as [Hn Hs]. cbn [heapq.heappushpop].
  assert (x ∈ U) as HxU by (apply Hs; in_list).
  assert (top ∈ U) as HtU by (apply Hs; in_list).
  assert (top ≠ x) as Htx.
  { apply NoDup_cons in Hn as [Hx _]. intros ->. apply Hx. in_list. }
  assert (items (top :: h0)) as HT0.
  { split; [by apply NoDup_cons in Hn as [_ ?]|].
    intros y Hy. apply Hs. by apply list_elem_of_further. }
  assert (forall y, y ∈ h0 -> ltb top y = true) as Hmin.
  { intros y Hy. apply list_elem_of_lookup in Hy as [i Hy].
    apply (root_minimal (top :: h0) top Hheap HT0 eq_refl (S i) y);
      [lia|done]. }
  rewrite (lt_ok top x HtU HxU Htx). cbn [mbind result_bind].
  destruct (ltb top x) eqn:E.
  - change (heapq.setitem (top :: h0) 0 x) with (Ok (x :: h0)).
    cbn [mbind result_bind].
    destruct (siftup_correct (x :: h0) x) as (h' & Hrun & HP & Hheap').
    + done.
    + split.
      * apply NoDup_cons in Hn as [Hx Hn]. apply NoDup_cons in Hn as [_ Hn].
        apply NoDup_cons. split; [|done]. intros Hin. apply Hx.
        by apply list_elem_of_further.
      * intros y Hy. apply Hs. apply elem_of_cons in Hy as [->|Hy];
          [in_list|]. by do 2 apply list_elem_of_further.
    + intros i j a b Hij Hi Hj Ha Hb. apply (Hheap i j a b Hij).
      * by destruct i.
      * by destruct j.
    + rewrite Hrun. cbn [mbind result_bind]. exists top, h'.
      split; [done|]. split; [done|].
      split; [rewrite HP; apply Permutation_swap|].
      intros y Hy. rewrite HP in Hy.
      apply elem_of_cons in Hy as [->|Hy]; [done|by apply Hmin].
  - exists x, (top :: h0). split; [done|]. split; [done|]. split; [done|].
    assert (ltb x top = true) as Hxt
      by (destruct (ltb_total top x HtU HxU Htx); congruence).
    intros y Hy. apply elem_of_cons in Hy as [->|Hy]; [done|].
    apply (ltb_trans x top y); try done; [|by apply Hmin].
    apply Hs. by do 2 apply list_elem_of_further.
Qed.
End HeapCorrect.

(** ** Keeping the top [K] *)

Section TopK.
Context {A : Type}.
Variable lt : A -> A -> result bool.
Variable ltb : A -> A -> bool.
Variable U : list A.
Hypothesis lt_ok :
  forall x y, x ∈ U -> y ∈ U -> x ≠ y -> lt x y = Ok (ltb x y).
Hypothesis ltb_total :
  forall x y, x ∈ U -> y ∈ U -> x ≠ y -> ltb x y = true \/ ltb y x = true.
Hypothesis ltb_trans :
  forall x y z, x ∈ U -> y ∈ U -> z ∈ U ->
    ltb x y = true -> ltb y z = true -> ltb x z = true.
Hypothesis ltb_irrefl : forall x, x ∈ U -> ltb x x = false.

(** What the loop of [rank_posts_streaming] does with a scored post. *)
Definition keep (top_k : Z) (h : list A) (x : A) : result (list A) :=
  if Z.of_nat (length h) <? top_k then heapq.heappush lt h x
  else snd <$> heapq.heappushpop lt h x.

Fixpoint keep_all (top_k : Z) (xs : list A) (h : list A) : result (list A) :=
  match xs with
  | [] => Ok h
  | x :: rest => h' ← keep top_k h x; keep_all top_k rest h'
  end.

(** The heap [h] holds the [K] greatest of the items met, or all of them
    when they are fewer; [D] holds the others. *)
Definition kept (K : nat) (h D : list A) : Prop :=
  heap_ordered ltb h /\
  (forall d y, d ∈ D -> y ∈ h -> ltb d y = true) /\
  length h = (length (h ++ D) `min` K)%nat.

Lemma keep_step top_k h D x :
  kept (Z.to_nat top_k) h D -> items U (x :: h ++ D) ->
  exists h' D',
    keep top_k h x = Ok h' /\
    kept (Z.to_nat top_k) h' D' /\ h' ++ D' ≡ₚ x :: h ++ D.
Proof.
  intros (Hheap & Hlow & Hlen) HT. unfold keep.
  rewrite length_app in Hlen.
  assert (items U (x :: h)) as HTh.
  { destruct HT as [Hn Hs]. split.
    - apply NoDup_cons in Hn as [Hx Hn]. apply NoDup_app in Hn as (Hn & _).
      apply NoDup_cons. split; [|done]. intros Hin. apply Hx.
      apply elem_of_app. by left.
    - intros y Hy. apply Hs. apply elem_of_cons in Hy as [->|Hy]; [in_list|].
      apply list_elem_of_further, elem_of_app. by left. }
  destruct (Z.ltb_spec (Z.of_nat (length h)) top_k) as [Hroom|Hfull].
  - assert (D = []) as -> by (apply length_zero_iff_nil; lia).
    destruct (heappush_correct lt ltb U lt_ok ltb_total ltb_trans h x Hheap)
      as (h' & Hrun & HP & Hheap').
    { apply (items_perm U (x :: h)); [|done]. apply Permutation_cons_append. }
    exists h', []. split; [done|]. split.
    + split; [done|]. split; [intros d y Hd; by apply elem_of_nil in Hd|].
      rewrite app_nil_r, HP, length_app. cbn. lia.
    + rewrite !app_nil_r, HP. symmetry. apply Permutation_cons_append.
  - destruct (heappushpop_correct lt ltb U lt_ok ltb_total ltb_trans h x
                Hheap HTh) as (out & h' & Hrun & Hheap' & HP & Hmin).
    rewrite Hrun. exists h', (out :: D). split; [done|].
    assert (length h' = length h) as Hlen'.
    { apply Permutation_length in HP. cbn in HP. lia. }
    split.
    + split; [done|]. split.
      * intros d y Hd Hy. apply elem_of_cons in Hd as [->|Hd];
          [by apply Hmin|].
        assert (y ∈ x :: h) as Hy'.
        { rewrite <-HP. by apply list_elem_of_further. }
        apply elem_of_cons in Hy' as [->|Hy']; [|by apply Hlow].
        (* [x] was kept, so the root, which is above [d], is below [x] *)
        assert (out ∈ h) as Hout.
        { assert (out ∈ x :: h) as Ho by (rewrite <-HP; in_list).
          apply elem_of_cons in Ho as [->|Ho]; [|done].
          specialize (Hmin x Hy). rewrite ltb_irrefl in Hmin; [done|].
          destruct HT as [_ Hs]. apply Hs. in_list. }
        destruct HT as [_ Hs].
        apply (ltb_trans d out x).
        -- apply Hs. apply list_elem_of_further, elem_of_app. by right.
        -- apply Hs. apply list_elem_of_further, elem_of_app. by left.
        -- apply Hs. in_list.
        -- by apply Hlow.
        -- by apply Hmin.
      * rewrite length_app. cbn. lia.
    + rewrite <-Permutation_middle, (app_comm_cons h' D out), HP. done.
Qed.

Lemma keep_all_correct top_k xs h D :
  kept (Z.to_nat top_k) h D -> items U (xs ++ h ++ D) ->
  exists h' D',
    keep_all top_k xs h = Ok h' /\
    kept (Z.to_nat top_k) h' D' /\ h' ++ D' ≡ₚ xs ++ h ++ D.
Proof.
  revert h D. induction xs as [|x xs IH]; intros h D Hk HT.
  - by exists h, D.
  - destruct (keep_step top_k h D x Hk) as (h1 & D1 & Hrun & Hk1 & HP1).
    { destruct HT as [Hn Hs]. split.
      - cbn in Hn. apply NoDup_cons in Hn as [Hx Hn].
        apply NoDup_app in Hn as (_ & _ & Hn). apply NoDup_cons.
        split; [|done]. intros Hin. apply Hx. apply elem_of_app. by right.
      - intros y Hy. apply Hs. apply elem_of_cons in Hy as [->|Hy];
          [in_list|]. apply list_elem_of_further, elem_of_app. by right. }
    destruct (IH h1 D1 Hk1) as (h' & D' & Hrun' & Hk' & HP').
    { apply (items_perm U ((x :: xs) ++ h ++ D)); [|done].
      rewrite HP1. cbn. apply Permutation_middle. }
    exists h', D'. cbn. rewrite Hrun. cbn. split; [done|]. split; [done|].
    rewrite HP', HP1. symmetry. apply Permutation_middle.
Qed.

(** *** Sorting the heap *)

Lemma insert_desc_r_pure x l :
  items U (x :: l) -> insert_desc_r lt x l = Ok (insert_desc ltb x l).
Proof.
  induction l as [|y l IH]; intros [Hn Hs]; cbn; [done|].
  assert (x ≠ y) as Hxy.
  { apply NoDup_cons in Hn as [Hx _]. intros ->. apply Hx. in_list. }
  rewrite (lt_ok x y); [|apply Hs; in_list|apply Hs; in_list|done]. cbn.
  destruct (ltb x y); [|done]. rewrite IH; [done|]. split.
  - apply NoDup_cons in Hn as [Hx Hn]. apply NoDup_cons in Hn as [_ Hn].
    apply NoDup_cons. split; [|done]. intros Hin. apply Hx.
    by apply list_elem_of_further.
  - intros z Hz. apply Hs. apply elem_of_cons in Hz as [->|Hz]; [in_list|].
    by do 2 apply list_elem_of_further.
Qed.

Lemma sorted_reverse_pure l :
  items U l -> sorted_reverse lt l = Ok (list_sort_reverse ltb l).
Proof.
  induction l as [|x l IH]; intros [Hn Hs]; [done|].
  cbn [sorted_reverse].
  change (list_sort_reverse ltb (x :: l))
    with (insert_desc ltb x (list_sort_reverse ltb l)).
  apply NoDup_cons in Hn as [Hx Hn].
  rewrite IH; [|split; [done|]; intros z Hz; apply Hs;
                  by apply list_elem_of_further].
  cbn [mbind result_bind]. apply insert_desc_r_pure. split.
  - apply NoDup_cons. split; [by rewrite list_sort_reverse_perm|].
    by rewrite list_sort_reverse_perm.
  - intros z Hz. apply Hs. apply elem_of_cons in Hz as [->|Hz]; [in_list|].
    apply list_elem_of_further. by rewrite list_sort_reverse_perm in Hz.
Qed.

(** Strictly descending. *)
Definition strictly_descending (l : list A) : Prop :=
  StronglySorted (fun a b => ltb b a = true) l.

Lemma insert_desc_strict x l :
  items U (x :: l) -> strictly_descending l ->
  strictly_descending (insert_desc ltb x l).
Proof.
  intros [Hn Hs] Hl. induction Hl as [|y l Hl IH Hy]; cbn.
  - repeat constructor.
  - assert (x ≠ y) as Hxy.
    { apply NoDup_cons in Hn as [Hx _]. intros ->. apply Hx. in_list. }
    assert (x ∈ U) as HxU by (apply Hs; in_list).
    assert (y ∈ U) as HyU by (apply Hs; in_list).
    destruct (ltb x y) eqn:E.
    + constructor.
      * apply IH.
        -- apply NoDup_cons in Hn as [Hx Hn]. apply NoDup_cons in Hn as [_ Hn].
           apply NoDup_cons. split; [|done]. intros Hin. apply Hx.
           by apply list_elem_of_further.
        -- intros z Hz. apply Hs. apply elem_of_cons in Hz as [->|Hz];
             [in_list|]. by do 2 apply list_elem_of_further.
      * rewrite insert_desc_perm. by constructor.
    + assert (ltb y x = true) as Hyx
        by (destruct (ltb_total x y HxU HyU Hxy); congruence).
      constructor; [by constructor|]. constructor; [done|].
      rewrite Forall_forall in Hy. apply Forall_forall. intros z Hz.
      apply (ltb_trans z y x); try done; [|by apply Hy].
      apply Hs. by do 2 apply list_elem_of_further.
Qed.

Lemma list_sort_reverse_strict l :
  items U l -> strictly_descending (list_sort_reverse ltb l).
Proof.
  induction l as [|x l IH]; intros [Hn Hs]; [constructor|].
  change (strictly_descending
            (insert_desc ltb x (list_sort_reverse ltb l))).
  apply NoDup_cons in Hn as [Hx Hn]. apply insert_desc_strict.
  - split.
    + apply NoDup_cons. by rewrite list_sort_reverse_perm.
    + intros z Hz. apply Hs. by rewrite list_sort_reverse_perm in Hz.
  - apply IH. split; [done|]. intros z Hz. apply Hs.
    by apply list_elem_of_further.
Qed.

(** Two strictly descending lists of the same items are the same list. *)
Lemma strictly_descending_unique l1 l2 :
  l1 ⊆ U -> strictly_descending l1 -> strictly_descending l2 ->
  l1 ≡ₚ l2 -> l1 = l2.
Proof.
  intros Hs H1. revert l2 Hs. induction H1 as [|x l1 H1 IH Hx];
    intros l2 Hs H2 HP.
  - by apply Permutation_nil_l in HP.
  - destruct H2 as [|y l2 H2 Hy].
    { by apply Permutation_nil_r in HP. }
    assert (x = y) as ->.
    { assert (x ∈ y :: l2) as Hx' by (rewrite <-HP; in_list).
      apply elem_of_cons in Hx' as [->|Hin]; [done|].
      - assert (y ∈ x :: l1) as Hy' by (rewrite HP; in_list).
        apply elem_of_cons in Hy' as [->|Hy']; [done|].
        rewrite Forall_forall in Hx, Hy.
        assert (x ∈ U) as HxU by (apply Hs; in_list).
        assert (y ∈ U) as HyU by (apply Hs; by apply list_elem_of_further).
        pose proof (ltb_trans x y x HxU HyU HxU (Hy x Hin) (Hx y Hy')) as Hc.
        by rewrite ltb_irrefl in Hc. }
    f_equal. apply IH; [|done|by apply (Permutation_cons_inv HP)].
    intros z Hz. apply Hs. by apply list_elem_of_further.
Qed.

(** The heap, sorted, is the front of all the items, sorted. *)
Lemma kept_sorted_is_front K h D T :
  items U T -> h ++ D ≡ₚ T -> kept K h D ->
  list_sort_reverse ltb h = take K (list_sort_reverse ltb T).
Proof.
  intros HT HP (_ & Hlow & Hlen).
  assert (items U (h ++ D)) as HhD by by apply (items_perm U T).
  assert (items U h /\ items U D) as [Hh HD].
  { destruct HhD as [Hn Hs]. apply NoDup_app in Hn as (? & _ & ?).
    split; (split; [done|]); intros z Hz; apply Hs, elem_of_app; auto. }
  assert (list_sort_reverse ltb T
          = list_sort_reverse ltb h ++ list_sort_reverse ltb D) as ->.
  { apply strictly_descending_unique.
    - intros z Hz. rewrite list_sort_reverse_perm in Hz. by apply HT.
    - by apply list_sort_reverse_strict.
    - apply StronglySorted_app_2; try by apply list_sort_reverse_strict.
      intros a b Ha Hb. rewrite list_sort_reverse_perm in Ha, Hb.
      by apply Hlow.
    - by rewrite !list_sort_reverse_perm. }
  rewrite length_app in Hlen.
  assert (length (list_sort_reverse ltb h) = length h) as Hl
    by by rewrite list_sort_reverse_perm.
  destruct (Nat.le_gt_cases K (length h)).
  - rewrite take_app_le by lia. rewrite take_ge by lia. done.
  - assert (D = []) as -> by (apply length_zero_iff_nil; lia).
    cbn. rewrite app_nil_r. rewrite take_ge by lia. done.
Qed.
End TopK.

(** ** The selector on scores that differ *)

(** [a < b] on [(score, post)] tuples whose scores differ. *)
Definition by_score (a b : float * Post) : bool := PrimFloat.ltb a.1 b.1.

Fixpoint pairwise {A} (R : A -> A -> Prop) (l : list A) : Prop :=
  match l with
  | [] => True
  | x :: rest => Forall (R x) rest /\ pairwise R rest
  end.

(** No score is NaN, and no two posts of the sequence have equal scores. *)
Definition distinct_scores (scored : list (float * Post)) : Prop :=
  Forall (fun x => not_nan x.1) scored /\
  pairwise (fun x y => PrimFloat.eqb x.1 y.1 = false) scored.

Lemma distinct_scores_neq scored x y :
  distinct_scores scored -> x ∈ scored -> y ∈ scored -> x ≠ y ->
  PrimFloat.eqb x.1 y.1 = false.
Proof.
  intros [_ Hp]. induction scored as [|a rest IH]; intros Hx Hy Hxy.
  - by apply elem_of_nil in Hx.
  - destruct Hp as [Ha Hp]. rewrite Forall_forall in Ha.
    apply elem_of_cons in Hx as [->|Hx], Hy as [->|Hy].
    + done.
    + by apply Ha.
    + rewrite eqb_sym. by apply Ha.
    + by apply IH.
Qed.

Lemma distinct_scores_NoDup scored : distinct_scores scored -> NoDup scored.
Proof.
  intros [Hn Hp]. induction scored as [|a rest IH]; [constructor|].
  destruct Hp as [Ha Hp]. apply Forall_cons in Hn as [Hna Hn].
  constructor; [|by apply IH]. intros Hin.
  rewrite Forall_forall in Ha. specialize (Ha a Hin).
  unfold not_nan in Hna. congruence.
Qed.

Section Selector.
Variable M : PyMath.
Variables (self_batch_size : Z) (algorithm_ : string) (top_k : Z)
  (kwargs : score_kwargs) (now : float).
Variable scored : list (float * Post).
Hypothesis scores_distinct : distinct_scores scored.

Lemma entry_lt_by_score x y :
  x ∈ scored -> y ∈ scored -> x ≠ y -> entry_lt x y = Ok (by_score x y).
Proof.
  intros Hx Hy Hxy. unfold entry_lt.
  by rewrite (distinct_scores_neq scored x y).
Qed.

Lemma by_score_total x y :
  x ∈ scored -> y ∈ scored -> x ≠ y ->
  by_score x y = true \/ by_score y x = true.
Proof.
  intros Hx Hy Hxy. unfold by_score.
  destruct scores_distinct as [Hn _]. rewrite Forall_forall in Hn.
  destruct (trichotomy x.1 y.1 (Hn x Hx) (Hn y Hy)) as [H|[H|H]]; auto.
  by rewrite (distinct_scores_neq scored x y) in H.
Qed.

Lemma by_score_trans x y z :
  x ∈ scored -> y ∈ scored -> z ∈ scored ->
  by_score x y = true -> by_score y z = true -> by_score x z = true.
Proof. intros _ _ _. apply ltb_trans. Qed.

Lemma by_score_irrefl x : x ∈ scored -> by_score x x = false.
Proof. intros _. apply ltb_irrefl. Qed.

Lemma score_batch_keep_all posts_scored h :
  Forall (fun sp => _calculate_score M sp.2 algorithm_ kwargs now = Ok sp.1)
    posts_scored ->
  score_batch M algorithm_ top_k kwargs now posts_scored.*2 h
  = keep_all entry_lt top_k posts_scored h.
Proof.
  intros H. revert h. induction H as [|[s p] rest Hs Hrest IH]; intros h;
    [done|].
  cbn [fmap list_fmap score_batch keep_all snd]. unfold score_and_keep.
  cbn in Hs. rewrite Hs. cbn [mbind result_bind]. unfold keep.
  destruct (Z.of_nat (length h) <? top_k).
  - destruct (heapq.heappush entry_lt h (s, p)); [|done]. apply IH.
  - destruct (heapq.heappushpop entry_lt h (s, p)); [|done]. apply IH.
Qed.

Lemma score_batch_app l1 l2 h :
  score_batch M algorithm_ top_k kwargs now (l1 ++ l2) h
  = (h' ← score_batch M algorithm_ top_k kwargs now l1 h;
     score_batch M algorithm_ top_k kwargs now l2 h').
Proof.
  revert h. induction l1 as [|p l1 IH]; intros h; [done|]. cbn.
  destruct (score_and_keep M algorithm_ top_k kwargs now h p); [|done].
  apply IH.
Qed.

(** Batching is chunking: with batches of at least one post, and fuel for
    every post, the loop scores the posts one after the other and counts
    them. *)
Lemma batches_all fuel it h total :
  1 <= self_batch_size -> (length it <= fuel)%nat ->
  batches M self_batch_size algorithm_ top_k kwargs now fuel it h total
  = (h' ← score_batch M algorithm_ top_k kwargs now it h;
     Ok (h', total + Z.of_nat (length it))).
Proof.
  intros Hbs. revert it h total. induction fuel as [|fuel IH];
    intros it h total Hf.
  - destruct it; [|cbn in Hf; lia]. cbn. by rewrite take_nil.
  - cbn [batches].
    destruct (Z.to_nat self_batch_size) as [|n] eqn:En; [lia|].
    destruct it as [|p it]; [done|].
    cbn [take drop].
    pose proof (take_drop n it) as Htd.
    assert (length (p :: take n it) + length (drop n it)
            = length (p :: it))%nat as Hlen.
    { cbn [length]. rewrite <-Htd at 3. rewrite length_app. lia. }
    transitivity
      (h' ← score_batch M algorithm_ top_k kwargs now
              ((p :: take n it) ++ drop n it) h;
       Ok (h', total + Z.of_nat (length (p :: it)))).
    2:{ cbn [app]. by rewrite Htd. }
    rewrite score_batch_app.
    destruct (score_batch M algorithm_ top_k kwargs now (p :: take n it) h)
      as [h1|]; [|done].
    cbn [mbind result_bind].
    rewrite IH by (rewrite length_drop; cbn in Hf; lia).
    destruct (score_batch M algorithm_ top_k kwargs now (drop n it) h1);
      [|done].
    cbn [mbind result_bind]. do 2 f_equal. lia.
Qed.

(** X1. On a sequence whose posts all get a score, no score NaN and no two
    scores equal, [rank_posts_streaming] returns: its [top_posts] are the
    first [top_k] of the scored posts sorted into descending order of score,
    and its [total_posts_processed] is the length of the sequence, whatever
    the batch size is, from 1 on. *)
Theorem streaming_top_k_is_front_of_sort :
  1 <= self_batch_size ->
  Forall (fun sp => _calculate_score M sp.2 algorithm_ kwargs now = Ok sp.1)
    scored ->
  rank_posts_streaming M self_batch_size algorithm_ top_k kwargs now
    scored.*2
  = Ok (mkResult
          (take (Z.to_nat top_k) (list_sort_reverse by_score scored))
          (Z.of_nat (length scored)) algorithm_ self_batch_size).
Proof.
  intros Hbs Hscored. unfold rank_posts_streaming.
  rewrite batches_all by done.
  rewrite (score_batch_keep_all scored [] Hscored).
  assert (items scored scored) as HU
    by (split; [by apply distinct_scores_NoDup|done]).
  destruct (keep_all_correct entry_lt by_score scored entry_lt_by_score
              by_score_total by_score_trans by_score_irrefl top_k scored
              [] []) as (h & D & Hrun & Hkept & HP).
  { split; [|split]; [by intros i j a b _; rewrite lookup_nil|
                      by intros d y Hd; apply elem_of_nil in Hd|done]. }
  { by rewrite !app_nil_r. }
  rewrite Hrun. cbn [mbind result_bind fst snd].
  rewrite !app_nil_r in HP.
  assert (items scored h) as Hh.
  { pose proof (items_perm scored scored (h ++ D) (symmetry HP) HU)
      as [Hn Hs].
    apply NoDup_app in Hn as (? & _ & _).
    split; [done|]. intros z Hz. apply Hs, elem_of_app. by left. }
  rewrite (sorted_reverse_pure entry_lt by_score scored entry_lt_by_score h
             Hh).
  cbn [mbind result_bind].
  rewrite (kept_sorted_is_front by_score scored by_score_total by_score_trans
             by_score_irrefl (Z.to_nat top_k) h D scored HU HP Hkept).
  by rewrite length_fmap, Z.add_0_l.
Qed.
End Selector.

(** Seven posts created at time 0, scored by engagement at time 0: the
    scores are the likes. *)
Definition seven_scored : list (float * Post) :=
  [(5%float, mkPost "a" 5 0 0 0 0 0%float 5);
   (3%float, mkPost "b" 3 0 0 0 0 0%float 3);
   (9%float, mkPost "c" 9 0 0 0 0 0%float 9);
   (1%float, mkPost "d" 1 0 0 0 0 0%float 1);
   (7%float, mkPost "e" 7 0 0 0 0 0%float 7);
   (4%float, mkPost "f" 4 0 0 0 0 0%float 4);
   (8%float, mkPost "g" 8 0 0 0 0 0%float 8)].

Lemma streaming_top_k_is_front_of_sort_witness :
  distinct_scores seven_scored /\
  exists top,
    rank_posts_streaming no_math 2 "engagement_score" 3 no_kwargs 0%float
      seven_scored.*2
    = Ok (mkResult top 7 "engagement_score" 2) /\
    (fun sp => post_id sp.2) <$> top = ["c"; "g"; "e"].
Proof.
  assert (distinct_scores seven_scored) as Hd.
  { split; [repeat constructor|]. cbn. repeat split; repeat constructor. }
  split; [exact Hd|]. eexists. split.
  - apply (streaming_top_k_is_front_of_sort no_math 2 "engagement_score" 3
             no_kwargs 0%float seven_scored Hd); [lia|].
    repeat constructor.
  - reflexivity.
Defined.

(** ** Batches, on every sequence *)

(** X2. With batches of at least one post the outcome of
    [rank_posts_streaming], a result or an exception, is that of the call
    with batches of one post, apart from the batch size recorded in the
    result. *)
Theorem batch_size_is_chunking M self_batch_size algorithm_ top_k kwargs now
    post_iterator :
  1 <= self_batch_size ->
  rank_posts_streaming M self_batch_size algorithm_ top_k kwargs now
    post_iterator
  = (r ← rank_posts_streaming M 1 algorithm_ top_k kwargs now post_iterator;
     Ok (mkResult (top_posts r) (total_posts_processed r) (algorithm r)
           self_batch_size)).
Proof.
  intros Hbs. unfold rank_posts_streaming.
  rewrite !batches_all by (done || lia).
  destruct (score_batch M algorithm_ top_k kwargs now post_iterator [])
    as [h|]; [|done].
  cbn [mbind result_bind fst snd].
  by destruct (sorted_reverse entry_lt h).
Qed.

Lemma batch_size_is_chunking_witness :
  rank_posts_streaming no_math 3 "engagement_score" 2 no_kwargs 0%float
    seven_scored.*2
  = (r ← rank_posts_streaming no_math 1 "engagement_score" 2 no_kwargs
           0%float seven_scored.*2;
     Ok (mkResult (top_posts r) (total_posts_processed r) (algorithm r) 3)) /\
  (fun sp => post_id sp.2) <$>
    match rank_posts_streaming no_math 3 "engagement_score" 2 no_kwargs
            0%float seven_scored.*2 with
    | Ok r => top_posts r
    | Raise _ => []
    end = ["c"; "g"].
Proof.
  split; [|reflexivity].
  apply (batch_size_is_chunking no_math 3 "engagement_score" 2 no_kwargs
           0%float seven_scored.*2). lia.
Defined.

(** ** The size of the heap, on every sequence *)

Section HeapLength.
Context {A : Type}.
Variable lt : A -> A -> result bool.

Lemma setitem_length (h : list A) i x h' :
  heapq.setitem h i x = Ok h' -> length h' = length h.
Proof.
  unfold heapq.setitem. destruct (i <? length h)%nat; [|done].
  intros [= <-]. apply length_insert.
Qed.

Lemma siftdown_loop_length fuel (h : list A) startpos pos x h' :
  heapq._siftdown_loop lt fuel h startpos pos x = Ok h' ->
  length h' = length h.
Proof.
  revert h pos. induction fuel as [|fuel IH]; intros h pos;
    cbn [heapq._siftdown_loop]; [apply setitem_length|].
  destruct (startpos <? pos)%nat; [|apply setitem_length].
  destruct (heapq.getitem h _) as [p|]; [|done]. cbn [mbind result_bind].
  destruct (lt x p) as [[]|]; cbn [mbind result_bind];
    [|apply setitem_length|done].
  destruct (heapq.setitem h pos p) as [h1|] eqn:E; [|done].
  cbn [mbind result_bind]. intros H. apply IH in H.
  apply setitem_length in E. congruence.
Qed.

Lemma siftdown_length (h : list A) startpos pos h' :
  heapq._siftdown lt h startpos pos = Ok h' -> length h' = length h.
Proof.
  unfold heapq._siftdown. destruct (heapq.getitem h pos); [|done].
  apply siftdown_loop_length.
Qed.

Lemma siftup_loop_length fuel (h : list A) endpos pos h' pos' :
  heapq._siftup_loop lt fuel h endpos pos = Ok (h', pos') ->
  length h' = length h.
Proof.
  revert h pos. induction fuel as [|fuel IH]; intros h pos;
    cbn [heapq._siftup_loop]; [by intros [= <- _]|].
  destruct (2 * pos + 1 <? endpos)%nat; [|by intros [= <- _]].
  match goal with
  | |- context [mbind _ ?c] => destruct c as [ch|]; [|done]
  end.
  cbn [mbind result_bind].
  destruct (heapq.getitem h ch) as [c|]; [|done]. cbn [mbind result_bind].
  destruct (heapq.setitem h pos c) as [h1|] eqn:E; [|done].
  cbn [mbind result_bind]. intros H. apply IH in H.
  apply setitem_length in E. congruence.
Qed.

Lemma siftup_length (h : list A) pos h' :
  heapq._siftup lt h pos = Ok h' -> length h' = length h.
Proof.
  unfold heapq._siftup. destruct (heapq.getitem h pos) as [x|]; [|done].
  cbn [mbind result_bind].
  destruct (heapq._siftup_loop lt (length h) h (length h) pos)
    as [[h1 p1]|] eqn:E1; [|done].
  cbn [mbind result_bind fst snd].
  destruct (heapq.setitem h1 p1 x) as [h2|] eqn:E2; [|done].
  cbn [mbind result_bind]. intros H. apply siftdown_length in H.
  apply siftup_loop_length in E1. apply setitem_length in E2. congruence.
Qed.

Lemma heappush_length (h : list A) x h' :
  heapq.heappush lt h x = Ok h' -> length h' = S (length h).
Proof.
  unfold heapq.heappush. intros H. apply siftdown_length in H.
  rewrite H, length_app. cbn. lia.
Qed.

Lemma heappushpop_length (h : list A) x out h' :
  heapq.heappushpop lt h x = Ok (out, h') -> length h' = length h.
Proof.
  destruct h as [|top h0]; cbn [heapq.heappushpop]; [by intros [= _ <-]|].
  destruct (lt top x) as [[]|]; cbn [mbind result_bind];
    [|by intros [= _ <-]|done].
  change (heapq.setitem (top :: h0) 0 x) with (Ok (x :: h0)).
  cbn [mbind result_bind].
  destruct (heapq._siftup lt (x :: h0) 0) as [h1|] eqn:E; [|done].
  cbn [mbind result_bind]. intros [= _ <-]. by apply siftup_length in E.
Qed.

Lemma insert_desc_r_length (x : A) l l' :
  insert_desc_r lt x l = Ok l' -> length l' = S (length l).
Proof.
  revert l'. induction l as [|y l IH]; intros l'; cbn;
    [by intros [= <-]|].
  destruct (lt x y) as [[]|]; cbn; [|by intros [= <-]|done].
  destruct (insert_desc_r lt x l) as [r|]; [|done]. cbn.
  intros [= <-]. cbn. by rewrite (IH r).
Qed.

Lemma sorted_reverse_length (l l' : list A) :
  sorted_reverse lt l = Ok l' -> length l' = length l.
Proof.
  revert l'. induction l as [|x l IH]; intros l'; cbn;
    [by intros [= <-]|].
  destruct (sorted_reverse lt l) as [s|]; [|done]. cbn.
  intros H. apply insert_desc_r_length in H. by rewrite H, (IH s).
Qed.
End HeapLength.

Section Bound.
Variable M : PyMath.
Variables (algorithm_ : string) (top_k : Z) (kwargs : score_kwargs)
  (now : float).

Lemma score_and_keep_length h post h' :
  score_and_keep M algorithm_ top_k kwargs now h post = Ok h' ->
  (length h <= Z.to_nat top_k)%nat ->
  (length h' <= Z.to_nat top_k)%nat /\ (length h' <= S (length h))%nat.
Proof.
  unfold score_and_keep.
  destruct (_calculate_score M post algorithm_ kwargs now) as [s|]; [|done].
  cbn [mbind result_bind].
  destruct (Z.ltb_spec (Z.of_nat (length h)) top_k).
  - intros H' _. apply heappush_length in H'. lia.
  - destruct (heapq.heappushpop entry_lt h (s, post)) as [[out h1]|] eqn:E;
      [|done].
    cbn. intros [= <-] Hle. apply heappushpop_length in E. lia.
Qed.

Lemma score_batch_length posts_ h h' :
  score_batch M algorithm_ top_k kwargs now posts_ h = Ok h' ->
  (length h <= Z.to_nat top_k)%nat ->
  (length h' <= Z.to_nat top_k)%nat /\
  (length h' <= length h + length posts_)%nat.
Proof.
  revert h. induction posts_ as [|p rest IH]; intros h; cbn.
  - intros [= <-]. lia.
  - destruct (score_and_keep M algorithm_ top_k kwargs now h p) as [h1|]
      eqn:E; [|done].
    cbn. intros H Hle.
    destruct (score_and_keep_length _ _ _ E Hle) as [H1 H2].
    destruct (IH _ H H1). lia.
Qed.

(** X3. Whatever the sequence, a result that [rank_posts_streaming] returns
    has at most [top_k] posts, and at most as many as the sequence; it
    counts every post of the sequence. *)
Theorem streaming_result_is_bounded self_batch_size post_iterator r :
  1 <= self_batch_size ->
  rank_posts_streaming M self_batch_size algorithm_ top_k kwargs now
    post_iterator = Ok r ->
  (length (top_posts r) <= Z.to_nat top_k)%nat /\
  (length (top_posts r) <= length post_iterator)%nat /\
  total_posts_processed r = Z.of_nat (length post_iterator).
Proof.
  intros Hbs. unfold rank_posts_streaming.
  rewrite batches_all by done.
  destruct (score_batch M algorithm_ top_k kwargs now post_iterator [])
    as [h|] eqn:E; [|done].
  cbn [mbind result_bind fst snd].
  destruct (sorted_reverse entry_lt h) as [top|] eqn:Es; [|done].
  cbn [mbind result_bind]. intros [= <-]. cbn.
  apply sorted_reverse_length in Es.
  destruct (score_batch_length _ _ _ E); [cbn; lia|]. cbn in *. lia.
Qed.
End Bound.

Lemma streaming_result_is_bounded_witness :
  exists r,
    rank_posts_streaming no_math 2 "engagement_score" 3 no_kwargs 0%float
      seven_scored.*2 = Ok r /\
    length (top_posts r) = 3%nat /\ total_posts_processed r = 7.
Proof.
  pose (run := rank_posts_streaming no_math 2 "engagement_score" 3 no_kwargs
                 0%float seven_scored.*2).
  exists (match run with Ok r => r | Raise _ => mkResult [] 0 "" 0 end).
  assert (run = Ok (match run with
                    | Ok r => r
                    | Raise _ => mkResult [] 0 "" 0
                    end)) as Hrun by (vm_compute; reflexivity).
  split; [exact Hrun|].
  destruct (streaming_result_is_bounded no_math "engagement_score" 3
              no_kwargs 0%float 2 seven_scored.*2 _ ltac:(lia) Hrun)
    as (_ & _ & Htotal).
  split; [vm_compute; reflexivity|exact Htotal].
Defined.

(** * The cache between mutations *)

(** ** A cached ranking is served as it is *)

(** X4. While the cache entry of an algorithm has not expired,
    [get_ranked_posts] reads neither the keyword arguments nor the scorers:
    it returns the cached ranking, whatever parameters it was computed
    with, and leaves the engine as it is. *)
Theorem cached_ranking_ignores_parameters M algorithm_ limit kwargs kwargs'
    now e :
  _is_cache_valid algorithm_ now e = true ->
  get_ranked_posts M algorithm_ limit kwargs now e
  = get_ranked_posts M algorithm_ limit kwargs' now e /\
  (get_ranked_posts M algorithm_ limit kwargs now e).2 = e.
Proof.
  intros Hc. unfold get_ranked_posts. rewrite Hc.
  by destruct (ranking_cache e !! algorithm_).
Qed.

(** The store with "a", after a ranking by engagement score at time 0. *)
Definition store_a_ranked : RankingEngine :=
  (get_ranked_posts no_math "engagement_score" 100 no_kwargs 0%float
     store_a).2.

Lemma cached_ranking_ignores_parameters_witness :
  _is_cache_valid "engagement_score" 10%float store_a_ranked = true /\
  r_score <$>
    match (get_ranked_posts no_math "engagement_score" 100 no_kwargs
             10%float store_a_ranked).1 with
    | Ok res => res
    | Raise _ => []
    end = [140%float] /\
  _engagement_score post_a 10%float = Ok (140 / 11)%float /\
  get_ranked_posts no_math "engagement_score" 100 no_kwargs 10%float
    store_a_ranked
  = get_ranked_posts no_math "engagement_score" 100
      {| kw_decay_rate := Some 0.5%float; kw_weights := None |} 10%float
      store_a_ranked.
Proof.
  split; [reflexivity|]. split; [reflexivity|]. split; [reflexivity|].
  apply (cached_ranking_ignores_parameters no_math "engagement_score" 100
           no_kwargs {| kw_decay_rate := Some 0.5%float; kw_weights := None |}
           10%float store_a_ranked).
  reflexivity.
Defined.

(** ** A batch that raises *)

Lemma batch_add_loop_caches posts_data now e :
  ranking_cache (batch_add_loop posts_data now e).2 = ranking_cache e /\
  cache_timestamps (batch_add_loop posts_data now e).2 = cache_timestamps e /\
  invalidations (batch_add_loop posts_data now e).2 = invalidations e.
Proof.
  revert e. induction posts_data as [|d rest IH]; intros e; cbn; [done|].
  destruct (pop_post_id d) as [[pid copy]|]; [|done].
  destruct (Post_new pid copy now) as [p|]; [|done].
  destruct (IH (set_posts (dict_set pid p (posts e)) e)) as (-> & -> & ->).
  done.
Qed.



(** * Rankings of the resident engine, computed and cached *)

(** ** What a computed ranking holds *)

Lemma dict_get_is_Some {V} k (d : list (string * V)) :
  k ∈ d.*1 -> is_Some (dict_get k d).
Proof.
  induction d as [|[k' v'] d IH]; cbn; [by intros ?%elem_of_nil|].
  destruct (String.eqb_spec k' k) as [->|Hne]; [by eauto|].
  intros [?|?]%elem_of_cons; [congruence|by apply IH].
Qed.

Lemma dict_get_not_elem {V} k (d : list (string * V)) :
  k ∉ d.*1 -> dict_get k d = None.
Proof.
  intros Hk. destruct (dict_get k d) eqn:E; [|done].
  exfalso. apply Hk. clear Hk. revert E.
  induction d as [|[k' v'] d IH]; cbn; [done|].
  destruct (String.eqb_spec k' k) as [->|Hne];
    [intros _; apply list_elem_of_here|].
  intros H. apply list_elem_of_further. by apply IH.
Qed.

Lemma dict_get_Some_elem {V} k (v : V) d :
  dict_get k d = Some v -> (k, v) ∈ d.
Proof.
  induction d as [|[k' v'] d IH]; cbn; [done|].
  destruct (String.eqb_spec k' k) as [->|Hne].
  - intros [= ->]. apply list_elem_of_here.
  - intros H. apply list_elem_of_further. by apply IH.
Qed.

Lemma ranked_loop_returns d now rank entries :
  Forall (fun sp : float * string => is_Some (dict_get sp.2 d)) entries ->
  exists res, ranked_loop d now rank entries = Ok res.
Proof.
  intros H. revert rank. induction H as [|[s pid] rest [p Hp] _ IH];
    intros rank; cbn; [by eauto|].
  cbn in Hp. rewrite Hp. destruct (IH (rank + 1)) as [tl ->]. cbn. by eauto.
Qed.

Lemma ranked_loop_ids d now rank entries res :
  ranked_loop d now rank entries = Ok res ->
  (fun r => (r_score r, r_post_id r)) <$> res = entries.
Proof.
  revert rank res. induction entries as [|[s pid] rest IH]; intros rank res;
    cbn.
  - by intros [= <-].
  - destruct (dict_get pid d); [|done].
    destruct (ranked_loop d now (rank + 1) rest) as [tl|] eqn:E; [|done].
    cbn. intros [= <-]. cbn. by rewrite (IH _ _ E).
Qed.

Section Computed.
Variable M : PyMath.

Lemma calculate_scores_loop_ids items algorithm kwargs now scores :
  _calculate_scores_loop M items algorithm kwargs now = Ok scores ->
  scores.*2 = items.*1.
Proof.
  revert scores. induction items as [|[pid post] rest IH]; intros scores; cbn.
  - by intros [= <-].
  - destruct (_calculate_scores_body M post algorithm kwargs now); [|done].
    cbn.
    destruct (_calculate_scores_loop M rest algorithm kwargs now) as [tl|];
      [|done].
    cbn. intros [= <-]. cbn. by rewrite (IH tl).
Qed.

(** The loop raises what the first post that does not score raises. *)
Lemma calculate_scores_loop_raises items algorithm kwargs now x :
  _calculate_scores_loop M items algorithm kwargs now = Raise x ->
  exists pid p, (pid, p) ∈ items /\
    _calculate_scores_body M p algorithm kwargs now = Raise x.
Proof.
  induction items as [|[pid post] rest IH]; cbn; [done|].
  destruct (_calculate_scores_body M post algorithm kwargs now) as [s|y]
    eqn:E; cbn.
  - destruct (_calculate_scores_loop M rest algorithm kwargs now) as [tl|y];
      [done|].
    cbn. intros [= ->]. destruct IH as (pid' & p' & Hin & Hp); [done|].
    exists pid', p'. split; [by apply list_elem_of_further|done].
  - intros [= ->]. exists pid, post. split; [apply list_elem_of_here|done].
Qed.

Lemma calculate_scores_loop_returns items algorithm kwargs now :
  Forall (fun kp : string * Post =>
            is_ok (_calculate_scores_body M kp.2 algorithm kwargs now) = true)
    items ->
  exists scores,
    _calculate_scores_loop M items algorithm kwargs now = Ok scores.
Proof.
  induction 1 as [|[pid post] rest Hp _ [tl IH]]; cbn; [by eauto|].
  cbn in Hp.
  destruct (_calculate_scores_body M post algorithm kwargs now); [|done].
  cbn. rewrite IH. cbn. by eauto.
Qed.

(** A ranking that is computed: the cache entry it leaves holds every
    stored id once, and the dicts returned are the entries of its slice. *)
Lemma computed_ranking_spec algorithm limit kwargs now e res e' :
  keys_ok e ->
  _is_cache_valid algorithm now e = false ->
  get_ranked_posts M algorithm limit kwargs now e = (Ok res, e') ->
  exists scores,
    _calculate_scores M algorithm kwargs now e = Ok scores /\
    scores.*2 = (posts e).*1 /\
    e' = mkEngine (posts e)
           (<[algorithm := list_sort_reverse score_id_lt scores]>
              (ranking_cache e))
           (<[algorithm := now]> (cache_timestamps e)) (invalidations e) /\
    (fun r => (r_score r, r_post_id r)) <$> res
    = slice_to (list_sort_reverse score_id_lt scores) limit /\
    (forall i r, res !! i = Some r -> r_rank r = Z.of_nat i + 1).
Proof.
  intros Hk Hc. unfold get_ranked_posts. rewrite Hc.
  destruct (_calculate_scores M algorithm kwargs now e) as [scores|] eqn:Hs;
    [|done].
  cbn. intros [= Hres <-]. exists scores. split; [done|].
  split; [by eapply calculate_scores_loop_ids|]. split; [done|].
  split; [by eapply ranked_loop_ids|].
  apply ranked_loop_spec in Hres as [_ Hrank].
  intros i r Hi. rewrite (Hrank i r Hi). lia.
Qed.
End Computed.

Lemma slice_to_nonneg {A} (l : list A) stop :
  0 <= stop -> slice_to l stop = take (Z.to_nat stop) l.
Proof. intros H. unfold slice_to. by destruct (Z.ltb_spec stop 0); [lia|]. Qed.

Lemma slice_to_all {A} (l : list A) stop :
  Z.of_nat (length l) <= stop -> slice_to l stop = l.
Proof.
  intros H. rewrite slice_to_nonneg by lia. apply take_ge. lia.
Qed.

Lemma NoDup_take_fmap {A B} (f : A -> B) n (l : list A) :
  NoDup (f <$> l) -> NoDup (f <$> take n l).
Proof.
  intros H. rewrite fmap_take. eapply sublist_NoDup; [done|apply sublist_take].
Qed.

(** X6. A ranking that [get_ranked_posts] computes (no unexpired cache
    entry) names no post twice and only stored posts; with a limit that is
    not negative it has [min(limit, len(posts))] dicts, and with a limit of
    at least [len(posts)] it names every stored post. *)
Theorem computed_ranking_names_each_post M e algorithm limit kwargs now res e' :
  reachable M e ->
  _is_cache_valid algorithm now e = false ->
  get_ranked_posts M algorithm limit kwargs now e = (Ok res, e') ->
  NoDup (r_post_id <$> res) /\
  (forall pid, pid ∈ r_post_id <$> res -> is_Some (dict_get pid (posts e))) /\
  (0 <= limit ->
   Z.of_nat (length res) = Z.min limit (Z.of_nat (length (posts e)))) /\
  (Z.of_nat (length (posts e)) <= limit ->
   r_post_id <$> res ≡ₚ (posts e).*1).
Proof.
  intros Hr Hc Hg. pose proof (reachable_keys_ok M e Hr) as Hk.
  destruct (computed_ranking_spec M _ _ _ _ _ _ _ Hk Hc Hg)
    as (scores & _ & Hids & _ & Hres & _).
  set (full := list_sort_reverse score_id_lt scores) in *.
  assert (full.*2 ≡ₚ (posts e).*1) as Hperm.
  { rewrite <-Hids. unfold full. by rewrite list_sort_reverse_perm. }
  assert (r_post_id <$> res = (slice_to full limit).*2) as Hres'.
  { rewrite <-Hres, <-list_fmap_compose. done. }
  assert (length full = length (posts e)) as Hlen.
  { rewrite <-(length_fmap snd full), Hperm. apply length_fmap. }
  rewrite Hres'. split; [|split; [|split]].
  - destruct (slice_to_take full limit) as [n ->].
    apply NoDup_take_fmap. by rewrite Hperm.
  - intros pid Hin. apply dict_get_is_Some. rewrite <-Hperm.
    apply list_elem_of_fmap in Hin as (sp & -> & Hin).
    apply list_elem_of_fmap. exists sp. split; [done|].
    by eapply slice_to_elem_of.
  - intros Hl. rewrite <-(length_fmap r_post_id res), Hres', length_fmap.
    rewrite slice_to_nonneg, length_take by done. lia.
  - intros Hl. rewrite slice_to_all by lia. done.
Qed.

Lemma computed_ranking_names_each_post_witness :
  exists res e',
    get_ranked_posts no_math "engagement_score" 5 no_kwargs 0%float store_ab
    = (Ok res, e') /\
    r_post_id <$> res = ["a"; "b"] /\
    r_post_id <$> res ≡ₚ (posts store_ab).*1.
Proof.
  pose (run := get_ranked_posts no_math "engagement_score" 5 no_kwargs
                 0%float store_ab).
  exists (match run.1 with Ok res => res | Raise _ => [] end), run.2.
  assert (run = (Ok (match run.1 with Ok res => res | Raise _ => [] end),
                 run.2)) as Hrun by (vm_compute; reflexivity).
  split; [exact Hrun|]. split; [vm_compute; reflexivity|].
  destruct (computed_ranking_names_each_post no_math store_ab
              "engagement_score" 5 no_kwargs 0%float _ _
              ltac:(apply reach_add, reach_add, reach_new) eq_refl Hrun)
    as (_ & _ & _ & Hall).
  apply Hall. vm_compute. discriminate.
Defined.
(** ** get_post_rank *)

(** X7. When [get_post_rank] computes the ranking and returns, it returns
    [None] exactly for an id that is not stored; for a stored id it returns
    the 1-based position of the id in the ranking of all posts. *)
Theorem post_rank_is_position M e pid algorithm kwargs now r e' :
  reachable M e ->
  _is_cache_valid algorithm now e = false ->
  get_post_rank M pid algorithm kwargs now e = (Ok r, e') ->
  exists res,
    get_ranked_posts M algorithm (Z.of_nat (length (posts e))) kwargs now e
    = (Ok res, e') /\
    match r with
    | None => dict_get pid (posts e) = None
    | Some k =>
        is_Some (dict_get pid (posts e)) /\
        1 <= k <= Z.of_nat (length (posts e)) /\
        (r_post_id <$> res) !! Z.to_nat (k - 1) = Some pid
    end.
Proof.
  intros Hr Hc. unfold get_post_rank.
  destruct (get_ranked_posts M algorithm (Z.of_nat (length (posts e))) kwargs
              now e) as [[res|] e1] eqn:Hg; [|done].
  intros [= <- <-]. exists res. split; [done|].
  pose proof (reachable_keys_ok M e Hr) as Hk.
  destruct (computed_ranking_spec M _ _ _ _ _ _ _ Hk Hc Hg)
    as (scores & _ & Hids & _ & Hres & Hrank).
  assert (r_post_id <$> res ≡ₚ (posts e).*1) as Hperm.
  { replace (r_post_id <$> res)
      with ((fun r => (r_score r, r_post_id r)) <$> res).*2
      by (by rewrite <-list_fmap_compose).
    rewrite Hres, slice_to_all.
    - by rewrite list_sort_reverse_perm, Hids.
    - rewrite <-(length_fmap snd), list_sort_reverse_perm, Hids, length_fmap.
      lia. }
  destruct (List.find _ res) as [x|] eqn:Hf; cbn.
  - apply find_some in Hf as [Hin Hx]. apply String.eqb_eq in Hx.
    apply list_elem_of_In, list_elem_of_lookup in Hin as [i Hi].
    rewrite (Hrank i x Hi).
    pose proof (lookup_lt_Some _ _ _ Hi) as Hlt.
    rewrite <-(length_fmap r_post_id), Hperm, length_fmap in Hlt.
    split; [|split; [lia|]].
    + apply dict_get_is_Some. rewrite <-Hperm, <-Hx.
      apply list_elem_of_fmap. exists x. split; [done|].
      by eapply list_elem_of_lookup_2.
    + replace (Z.to_nat (Z.of_nat i + 1 - 1)) with i by lia.
      by rewrite list_lookup_fmap, Hi, <-Hx.
  - apply dict_get_not_elem. rewrite <-Hperm.
    intros (x & -> & Hin)%list_elem_of_fmap.
    apply list_elem_of_In in Hin.
    pose proof (find_none _ _ Hf x Hin) as Hx. cbn in Hx.
    by rewrite String.eqb_refl in Hx.
Qed.

Lemma post_rank_is_position_witness :
  (get_post_rank no_math "b" "engagement_score" no_kwargs 0%float store_ab).1
  = Ok (Some 2) /\
  (get_post_rank no_math "z" "engagement_score" no_kwargs 0%float store_ab).1
  = Ok None /\
  exists res : list ranked,
    (r_post_id <$> res) !! Z.to_nat (2 - 1) = Some "b".
Proof.
  split; [reflexivity|]. split; [reflexivity|].
  pose (run := get_post_rank no_math "b" "engagement_score" no_kwargs 0%float
                 store_ab).
  assert (run = (Ok (Some 2), run.2)) as Hrun by (vm_compute; reflexivity).
  destruct (post_rank_is_position no_math store_ab "b" "engagement_score"
              no_kwargs 0%float (Some 2) run.2
              ltac:(apply reach_add, reach_add, reach_new) eq_refl Hrun)
    as (res & _ & _ & _ & Hpos).
  by exists res.
Defined.

(** ** Equal scores *)

Lemma string_ltb_total a b :
  a ≠ b -> String.ltb a b = false -> String.ltb b a = true.
Proof.
  unfold String.ltb. intros Hne. rewrite (String.compare_antisym b a).
  destruct (String.compare a b) eqn:E; try done.
  by apply String.compare_eq_iff in E.
Qed.

(** X8. In a ranking that [get_ranked_posts] computes, with no score NaN,
    two neighbours with equal scores stand in descending order of their
    ids: the sort is on [(score, post_id)] tuples. *)
Theorem equal_scores_rank_by_id M e algorithm limit kwargs now res e' i r r' :
  reachable M e ->
  _is_cache_valid algorithm now e = false ->
  get_ranked_posts M algorithm limit kwargs now e = (Ok res, e') ->
  (forall pid p s,
     dict_get pid (posts e) = Some p ->
     _calculate_scores_body M p algorithm kwargs now = Ok s -> not_nan s) ->
  res !! i = Some r -> res !! S i = Some r' ->
  PrimFloat.eqb (r_score r) (r_score r') = true ->
  String.ltb (r_post_id r') (r_post_id r) = true.
Proof.
  intros Hr Hc Hg Hnan Hi Hi' Heq.
  pose proof (reachable_keys_ok M e Hr) as Hk.
  destruct (computed_ranking_spec M _ _ _ _ _ _ _ Hk Hc Hg)
    as (scores & Hs & Hids & _ & Hres & _).
  set (full := list_sort_reverse score_id_lt scores) in *.
  assert (no_nan scores) as Hn.
  { apply calculate_scores_loop_spec in Hs. apply Forall_forall.
    intros sp Hsp. apply list_elem_of_lookup in Hsp as [j Hj].
    destruct (Forall2_lookup_r _ _ _ _ _ Hs Hj) as ([pid p] & Hkp & Hb).
    cbn in Hb. destruct Hb as [_ Hb].
    apply list_elem_of_lookup_2 in Hkp.
    eapply Hnan; [|exact Hb]. by apply dict_get_elem_of. }
  pose proof (list_sort_reverse_descending scores Hn) as Hdesc.
  fold full in Hdesc.
  destruct (slice_to_take full limit) as [n Hslice]. rewrite Hslice in Hres.
  assert (full !! i = Some (r_score r, r_post_id r)) as Hfi.
  { assert (take n full !! i = Some (r_score r, r_post_id r)) as H
      by (by rewrite <-Hres, list_lookup_fmap, Hi).
    by apply lookup_take_Some in H as [H _]. }
  assert (full !! S i = Some (r_score r', r_post_id r')) as Hfi'.
  { assert (take n full !! S i = Some (r_score r', r_post_id r')) as H
      by (by rewrite <-Hres, list_lookup_fmap, Hi').
    by apply lookup_take_Some in H as [H _]. }
  pose proof (StronglySorted_lookup_lt
                (fun a b => score_id_lt a b = false) full i (S i) _ _
                Hdesc Hfi Hfi' ltac:(lia)) as Hlt.
  unfold score_id_lt in Hlt. cbn in Hlt. rewrite Heq in Hlt.
  apply string_ltb_total; [|done].
  assert (NoDup full.*2) as Hnd.
  { unfold full. rewrite list_sort_reverse_perm, Hids. exact Hk. }
  intros Hsame.
  assert (full.*2 !! i = Some (r_post_id r)) as H1
    by (by rewrite list_lookup_fmap, Hfi).
  assert (full.*2 !! S i = Some (r_post_id r)) as H2
    by (by rewrite list_lookup_fmap, Hfi', Hsame).
  pose proof (NoDup_lookup _ _ _ _ Hnd H1 H2). lia.
Qed.

(** Two posts with equal counters, created at the same time. *)
Definition store_tie : RankingEngine :=
  (add_post "q" [kw_likes 3] 0%float
     (add_post "p" [kw_likes 3] 0%float new_engine).2).2.

Lemma equal_scores_rank_by_id_witness :
  (fun r => (r_post_id r, r_score r)) <$>
    match (get_ranked_posts no_math "engagement_score" 10 no_kwargs 0%float
             store_tie).1 with
    | Ok res => res
    | Raise _ => []
    end = [("q", 3%float); ("p", 3%float)] /\
  String.ltb "p" "q" = true.
Proof.
  split; [reflexivity|].
  pose (run := get_ranked_posts no_math "engagement_score" 10 no_kwargs
                 0%float store_tie).
  pose (res := match run.1 with Ok res => res | Raise _ => [] end).
  assert (run = (Ok res, run.2)) as Hrun by (vm_compute; reflexivity).
  assert (exists r r', res !! 0%nat = Some r /\ res !! 1%nat = Some r' /\
            r_post_id r = "q" /\ r_post_id r' = "p" /\
            PrimFloat.eqb (r_score r) (r_score r') = true)
    as (r & r' & H0 & H1 & Hq & Hp & Heq).
  { vm_compute. do 2 eexists. repeat split. }
  rewrite <-Hq, <-Hp.
  apply (equal_scores_rank_by_id no_math store_tie "engagement_score" 10
           no_kwargs 0%float res run.2 0%nat r r'
           ltac:(apply reach_add, reach_add, reach_new) eq_refl Hrun);
    [|exact H0|exact H1|exact Heq].
  intros pid p s Hp' Hs.
  assert (p = mkPost "p" 3 0 0 0 0 0%float 3 \/
          p = mkPost "q" 3 0 0 0 0 0%float 3) as [->| ->].
  { apply dict_get_Some_elem in Hp'. vm_compute in Hp'.
    apply elem_of_cons in Hp' as [[= _ <-]|Hp']; [by left|].
    apply elem_of_cons in Hp' as [[= _ <-]|Hp']; [by right|].
    by apply elem_of_nil in Hp'. }
  - vm_compute in Hs. injection Hs as <-. reflexivity.
  - vm_compute in Hs. injection Hs as <-. reflexivity.
Defined.
(** ** The cache over time *)

(** X9. A ranking computed at time [now] is kept for 60 seconds: the call
    stores the sorted scores, a permutation [full] of the scores it
    computed, and returns the entries of [full[:limit]]. A call at a time
    [now'] with [now' - now < 60] returns the entries of [full[:limit']],
    from the same [full], whatever parameters it is given, and leaves the
    engine as it is. From [now' - now >= 60] on the entry has expired: the
    call computes the scores again, at [now'] and with its own parameters,
    and stores and serves their sorted list. *)
Theorem ranking_is_served_for_ttl M e algorithm limit kwargs now res e1
    limit' kwargs' now' :
  reachable M e ->
  _is_cache_valid algorithm now e = false ->
  get_ranked_posts M algorithm limit kwargs now e = (Ok res, e1) ->
  exists scores full,
    _calculate_scores M algorithm kwargs now e = Ok scores /\
    full ≡ₚ scores /\
    ranking_cache e1 !! algorithm = Some full /\
    (fun r => (r_score r, r_post_id r)) <$> res = slice_to full limit /\
    _is_cache_valid algorithm now' e1
    = PrimFloat.ltb (PrimFloat.sub now' now) 60%float /\
    (PrimFloat.ltb (PrimFloat.sub now' now) 60%float = true ->
     exists res',
       get_ranked_posts M algorithm limit' kwargs' now' e1 = (Ok res', e1) /\
       (fun r => (r_score r, r_post_id r)) <$> res' = slice_to full limit') /\
    (PrimFloat.ltb (PrimFloat.sub now' now) 60%float = false ->
     forall res' e2,
       get_ranked_posts M algorithm limit' kwargs' now' e1 = (Ok res', e2) ->
       cache_timestamps e2 !! algorithm = Some now' /\
       exists scores' full',
         _calculate_scores M algorithm kwargs' now' e = Ok scores' /\
         full' ≡ₚ scores' /\
         ranking_cache e2 !! algorithm = Some full' /\
         (fun r => (r_score r, r_post_id r)) <$> res'
         = slice_to full' limit').
Proof.
  intros Hr Hc Hg. pose proof (reachable_keys_ok M e Hr) as Hk.
  destruct (computed_ranking_spec M _ _ _ _ _ _ _ Hk Hc Hg)
    as (scores & Hs & Hids & -> & Hres & _).
  exists scores, (list_sort_reverse score_id_lt scores).
  split; [done|]. split; [apply list_sort_reverse_perm|].
  set (full := list_sort_reverse score_id_lt scores) in *.
  split; [cbn; by rewrite lookup_insert_eq|]. split; [done|].
  assert (_is_cache_valid algorithm now'
            (mkEngine (posts e) (<[algorithm := full]> (ranking_cache e))
               (<[algorithm := now]> (cache_timestamps e)) (invalidations e))
          = PrimFloat.ltb (PrimFloat.sub now' now) 60%float) as Hv.
  { unfold _is_cache_valid. cbn. by rewrite lookup_insert_eq. }
  split; [done|]. split.
  - intros Hlt. unfold get_ranked_posts. rewrite Hv, Hlt.
    cbn [ranking_cache]. rewrite lookup_insert_eq. cbn [posts].
    destruct (ranked_loop_returns (posts e) now' 1 (slice_to full limit'))
      as [res' Hres'].
    { apply Forall_forall. intros sp Hsp. apply slice_to_elem_of in Hsp.
      apply dict_get_is_Some. rewrite <-Hids.
      apply list_elem_of_fmap. exists sp. split; [done|].
      unfold full in Hsp. by rewrite list_sort_reverse_perm in Hsp. }
    exists res'. rewrite Hres'. split; [done|]. by eapply ranked_loop_ids.
  - intros Hlt res' e2 Hg'.
    assert (keys_ok
              (mkEngine (posts e) (<[algorithm := full]> (ranking_cache e))
                 (<[algorithm := now]> (cache_timestamps e))
                 (invalidations e))) as Hk' by exact Hk.
    rewrite Hlt in Hv.
    destruct (computed_ranking_spec M _ _ _ _ _ _ _ Hk' Hv Hg')
      as (scores' & Hs' & _ & -> & Hres' & _).
    cbn. rewrite !lookup_insert_eq. split; [done|].
    exists scores', (list_sort_reverse score_id_lt scores').
    split; [done|]. split; [apply list_sort_reverse_perm|]. by split.
Qed.

Lemma ranking_is_served_for_ttl_witness :
  exists res',
    get_ranked_posts no_math "engagement_score" 100 no_kwargs 10%float
      store_a_ranked = (Ok res', store_a_ranked) /\
    (fun r => (r_score r, r_post_id r)) <$> res' = [(140%float, "a")] /\
    _is_cache_valid "engagement_score" 60%float store_a_ranked = false.
Proof.
  pose (run := get_ranked_posts no_math "engagement_score" 100 no_kwargs
                 0%float store_a).
  pose (res := match run.1 with Ok res => res | Raise _ => [] end).
  assert (run = (Ok res, store_a_ranked)) as Hrun
    by (vm_compute; reflexivity).
  destruct (ranking_is_served_for_ttl no_math store_a "engagement_score" 100
              no_kwargs 0%float res store_a_ranked 100 no_kwargs 10%float
              ltac:(apply reach_add, reach_new) eq_refl Hrun)
    as (scores & full & _ & _ & Hfull & _ & _ & Hserved & _).
  destruct (Hserved eq_refl) as (res' & Hres' & Hpairs).
  exists res'. split; [exact Hres'|]. split; [|reflexivity].
  rewrite Hpairs. vm_compute in Hfull. injection Hfull as <-. reflexivity.
Defined.

(** ** What a ranking can raise *)

(** Every cache entry with a timestamp has a ranking, and the ranking names
    stored posts only. *)
Definition cache_ok (e : RankingEngine) : Prop :=
  forall algorithm,
    is_Some (cache_timestamps e !! algorithm) ->
    exists full,
      ranking_cache e !! algorithm = Some full /\
      Forall (fun sp => is_Some (dict_get sp.2 (posts e))) full.

Lemma invalidate_cache_ok e : cache_ok (_invalidate_cache e).
Proof. intros algorithm. cbn. rewrite lookup_empty. by intros [? ?]. Qed.

Lemma dict_set_keeps {V} k k' (v : V) d :
  is_Some (dict_get k d) -> is_Some (dict_get k (dict_set k' v d)).
Proof.
  intros H. destruct (decide (k' = k)) as [->|Hne].
  - rewrite dict_get_set_eq. by eauto.
  - by rewrite dict_get_set_ne.
Qed.

Lemma batch_add_loop_keeps posts_data now e k :
  is_Some (dict_get k (posts e)) ->
  is_Some (dict_get k (posts (batch_add_loop posts_data now e).2)).
Proof.
  revert e. induction posts_data as [|d rest IH]; intros e H; cbn; [done|].
  destruct (pop_post_id d) as [[pid copy]|]; [|done].
  destruct (Post_new pid copy now) as [p|]; [|done].
  apply IH. cbn. by apply dict_set_keeps.
Qed.

Lemma add_post_cache_ok pid kwargs now e :
  cache_ok e -> cache_ok (add_post pid kwargs now e).2.
Proof.
  intros H. unfold add_post. destruct (bind_call kwargs); [|done].
  destruct (dict_mem pid (posts e)); [done|].
  destruct (Post_new pid kwargs now); [|done]. apply invalidate_cache_ok.
Qed.

Lemma update_post_cache_ok pid kwargs e :
  cache_ok e -> cache_ok (update_post pid kwargs e).2.
Proof.
  intros H.
  destruct (update_post_state pid kwargs e) as [->|(p & p' & _ & [->| ->])];
    [done| |apply invalidate_cache_ok].
  intros algorithm Hsome. destruct (H algorithm Hsome) as (full & Hfull & Hall).
  exists full. split; [done|].
  eapply Forall_impl; [exact Hall|]. intros sp. apply dict_set_keeps.
Qed.

Lemma batch_add_posts_cache_ok posts_data now e :
  cache_ok e -> cache_ok (batch_add_posts posts_data now e).2.
Proof.
  intros H. unfold batch_add_posts.
  pose proof (batch_add_loop_caches posts_data now e) as (Hc & Ht & _).
  pose proof (batch_add_loop_keeps posts_data now e) as Hkeep.
  destruct (batch_add_loop posts_data now e) as [[] e1]; cbn in *.
  - apply invalidate_cache_ok.
  - intros algorithm. rewrite Ht, Hc. intros Hsome.
    destruct (H algorithm Hsome) as (full & Hfull & Hall).
    exists full. split; [done|].
    eapply Forall_impl; [exact Hall|]. intros sp. apply Hkeep.
Qed.

Lemma get_ranked_posts_cache_ok M algorithm limit kwargs now e :
  cache_ok e -> cache_ok (get_ranked_posts M algorithm limit kwargs now e).2.
Proof.
  intros H. unfold get_ranked_posts.
  destruct (_is_cache_valid algorithm now e).
  - by destruct (ranking_cache e !! algorithm).
  - destruct (_calculate_scores M algorithm kwargs now e) as [scores|] eqn:Hs;
      [|done].
    cbn. intros algorithm'. cbn.
    destruct (decide (algorithm = algorithm')) as [<-|Hne].
    + rewrite !lookup_insert_eq. intros _. eexists. split; [done|].
      apply Forall_forall. intros sp Hsp.
      rewrite list_sort_reverse_perm in Hsp.
      apply dict_get_is_Some.
      rewrite <-(calculate_scores_loop_ids M _ _ _ _ _ Hs).
      apply list_elem_of_fmap. by exists sp.
    + rewrite !lookup_insert_ne by done. apply H.
Qed.

Lemma reachable_cache_ok M e : reachable M e -> cache_ok e.
Proof.
  induction 1.
  - intros algorithm. cbn. rewrite lookup_empty. by intros [? ?].
  - by apply add_post_cache_ok.
  - by apply update_post_cache_ok.
  - by apply batch_add_posts_cache_ok.
  - by apply get_ranked_posts_cache_ok.
  - rewrite get_post_rank_state. by apply get_ranked_posts_cache_ok.
Qed.







(** ** A mutation that raises *)

Lemma mutate_raises_state m now e x e' :
  mutate m now e = (Raise x, e') ->
  ranking_cache e' = ranking_cache e /\
  cache_timestamps e' = cache_timestamps e /\
  invalidations e' = invalidations e /\
  forall k, is_Some (dict_get k (posts e)) -> is_Some (dict_get k (posts e')).
Proof.
  destruct m as [pid kwargs|pid kwargs|posts_data]; cbn.
  - unfold add_post. destruct (bind_call kwargs); [|by intros [= _ <-]].
    destruct (dict_mem pid (posts e)); [by intros [= _ <-]|].
    destruct (Post_new pid kwargs now); [done|by intros [= _ <-]].
  - unfold update_post. destruct (bind_call kwargs); [|by intros [= _ <-]].
    destruct (dict_get pid (posts e)) as [p|]; [|by intros [= _ <-]].
    destruct (update_loop p kwargs) as [[[]|y] p']; [done|].
    intros [= _ <-]. cbn. repeat split. intros k. apply dict_set_keeps.
  - unfold batch_add_posts.
    pose proof (batch_add_loop_caches posts_data now e) as (Hc & Ht & Hi).
    pose proof (batch_add_loop_keeps posts_data now e) as Hkeep.
    destruct (batch_add_loop posts_data now e) as [[|y] e1]; [done|].
    by intros [= _ <-].
Qed.

(** C4 fails in the code, on a mutation that raises after it has changed
    the store: a [batch_add_posts] that raises at a later dict, or an
    [update_post] that raises inside its loop. Whatever a raising mutation
    has stored, the cache is as it was before the call, so a ranking asked
    for while the entry is valid is the cached one: the scores computed
    before the mutation, next to the counters stored by it. *)
Theorem raising_mutation_serves_old_scores M e m now x e' algorithm limit
    kwargs now' :
  reachable M e ->
  mutate m now e = (Raise x, e') ->
  _is_cache_valid algorithm now' e = true ->
  ranking_cache e' = ranking_cache e /\
  cache_timestamps e' = cache_timestamps e /\
  invalidations e' = invalidations e /\
  exists full res,
    ranking_cache e !! algorithm = Some full /\
    get_ranked_posts M algorithm limit kwargs now' e' = (Ok res, e') /\
    (fun r => (r_score r, r_post_id r)) <$> res = slice_to full limit.
Proof.
  intros Hr Hm Hv.
  destruct (mutate_raises_state _ _ _ _ _ Hm) as (Hc & Ht & Hi & Hkeep).
  repeat (split; [done|]).
  assert (is_Some (cache_timestamps e !! algorithm)) as Hsome.
  { unfold _is_cache_valid in Hv.
    by destruct (cache_timestamps e !! algorithm). }
  destruct (reachable_cache_ok M e Hr algorithm Hsome) as (full & Hfull & Hall).
  destruct (ranked_loop_returns (posts e') now' 1 (slice_to full limit))
    as [res Hres].
  { apply Forall_forall. intros sp Hsp. apply slice_to_elem_of in Hsp.
    rewrite Forall_forall in Hall. by apply Hkeep, Hall. }
  exists full, res. split; [done|].
  unfold get_ranked_posts, _is_cache_valid. rewrite Ht, Hc.
  unfold _is_cache_valid in Hv. rewrite Hv, Hfull, Hres.
  split; [done|]. by eapply ranked_loop_ids.
Qed.

(** On the store with "a" ranked at time 0, a batch at time 1 gives "a" 999
    likes and then raises at a dict without id. The ranking at time 2 has
    "a" with 999 likes and the score 140 of the post it replaced; the
    engagement score of the post as stored, created at time 1, is 499.5. *)
Lemma raising_mutation_serves_old_scores_witness :
  exists e' res p,
    batch_add_posts [[kw_post_id "a"; kw_likes 999]; [kw_likes 1]] 1%float
      store_a_ranked = (Raise (KeyError "post_id"), e') /\
    get_ranked_posts no_math "engagement_score" 100 no_kwargs 2%float e'
    = (Ok res, e') /\
    (fun r => (r_score r, r_post_id r)) <$> res = [(140%float, "a")] /\
    dict_get "a" (posts e') = Some p /\ likes p = 999 /\
    _engagement_score p 2%float = Ok 499.5%float.
Proof.
  pose (run := batch_add_posts [[kw_post_id "a"; kw_likes 999]; [kw_likes 1]]
                 1%float store_a_ranked).
  assert (run = (Raise (KeyError "post_id"), run.2)) as Hrun
    by (vm_compute; reflexivity).
  destruct (raising_mutation_serves_old_scores no_math store_a_ranked
              (m_batch [[kw_post_id "a"; kw_likes 999]; [kw_likes 1]])
              1%float (KeyError "post_id") run.2 "engagement_score" 100
              no_kwargs 2%float
              ltac:(apply reach_ranked, reach_add, reach_new) Hrun eq_refl)
    as (_ & _ & _ & full & res & Hfull & Hres & Hpairs).
  exists run.2, res, (mkPost "a" 999 0 0 0 0 1%float 999).
  split; [exact Hrun|]. split; [exact Hres|].
  split; [|repeat split; vm_compute; reflexivity].
  rewrite Hpairs. vm_compute in Hfull. injection Hfull as <-. reflexivity.
Defined.

(** ** A post one second ahead of the clock *)

(** X12. The engagement score divides by [now - timestamp + 1]. A stored
    post whose timestamp makes that zero, one second ahead of the clock,
    makes every computed engagement ranking raise ([ZeroDivisionError], or
    [OverflowError] when a counter is too large for a float), and the
    engine is left as it was. *)
Theorem engagement_ranking_divides_by_age M e pid p limit kwargs now :
  dict_get pid (posts e) = Some p ->
  PrimFloat.eqb (PrimFloat.add (PrimFloat.sub now (timestamp p)) 1%float)
    0%float = true ->
  _is_cache_valid "engagement_score" now e = false ->
  exists x,
    get_ranked_posts M "engagement_score" limit kwargs now e = (Raise x, e) /\
    (x = ZeroDivisionError \/ x = OverflowError).
Proof.
  intros Hp Hz Hc. unfold get_ranked_posts. rewrite Hc.
  destruct (_calculate_scores M "engagement_score" kwargs now e)
    as [scores|x] eqn:Hs.
  - exfalso. apply calculate_scores_loop_spec in Hs.
    apply dict_get_Some_elem, list_elem_of_lookup in Hp as [i Hi].
    destruct (Forall2_lookup_l _ _ _ _ _ Hs Hi) as (sp & _ & _ & Hb).
    cbn in Hb. unfold _calculate_scores_body in Hb. cbn in Hb.
    unfold _engagement_score in Hb.
    destruct (F.of_int _); [|done]. cbn in Hb. unfold F.truediv in Hb.
    by rewrite Hz in Hb.
  - exists x. split; [done|].
    apply calculate_scores_loop_raises in Hs as (pid' & p' & _ & Hb).
    unfold _calculate_scores_body in Hb. cbn in Hb.
    apply engagement_score_raises in Hb. tauto.
Qed.

Lemma engagement_ranking_divides_by_age_witness :
  get_ranked_posts no_math "engagement_score" 10 no_kwargs 4%float
    (add_post "f" [kw_likes 1; kw_timestamp 5%float] 0%float new_engine).2
  = (Raise ZeroDivisionError,
     (add_post "f" [kw_likes 1; kw_timestamp 5%float] 0%float new_engine).2).
Proof.
  destruct (engagement_ranking_divides_by_age no_math
              (add_post "f" [kw_likes 1; kw_timestamp 5%float] 0%float
                 new_engine).2
              "f" (mkPost "f" 1 0 0 0 0 5%float 1) 10 no_kwargs 4%float
              eq_refl eq_refl eq_refl) as (x & Hx & _).
  rewrite Hx. vm_compute in Hx. by injection Hx as <-.
Defined.

(** ** add_post, then a lookup *)

Lemma fold_setattr_update kwargs p :
  forallb is_field kwargs = true ->
  fold_left setattr kwargs p = fold_left update_step kwargs p.
Proof.
  revert p. induction kwargs as [|k rest IH]; intros p H; [done|].
  cbn in H. apply andb_true_iff in H as [Hk Hrest].
  cbn. unfold update_step at 2. rewrite Hk. by apply IH.
Qed.

(** X13. An [add_post] that returns has stored, under an id that was not
    there, a post with that id: each counter is the value of its keyword, or
    0 without one, the timestamp is the keyword's value, or the time of the
    call, and the base score is the formula. The posts stored before are as
    they were, and the new id is the last key of the store. *)
Theorem add_post_stores_the_post e pid kwargs now e' :
  add_post pid kwargs now e = (Ok tt, e') ->
  dict_get pid (posts e) = None /\
  (exists p,
     dict_get pid (posts e') = Some p /\
     post_id p = pid /\
     likes p = default 0 (supplied sel_likes kwargs) /\
     comments p = default 0 (supplied sel_comments kwargs) /\
     shares p = default 0 (supplied sel_shares kwargs) /\
     upvotes p = default 0 (supplied sel_upvotes kwargs) /\
     downvotes p = default 0 (supplied sel_downvotes kwargs) /\
     timestamp p = default now (supplied sel_timestamp kwargs) /\
     base_score p = likes p + 2 * comments p + 3 * shares p) /\
  (forall pid', pid' ≠ pid ->
     dict_get pid' (posts e') = dict_get pid' (posts e)) /\
  (posts e').*1 = (posts e).*1 ++ [pid].
Proof.
  unfold add_post, bind_call, dict_mem.
  destruct (existsb is_post_id_kw kwargs) eqn:Hb; [done|].
  destruct (dict_get pid (posts e)) eqn:Hget; [done|].
  unfold Post_new. rewrite Hb.
  destruct (forallb is_field kwargs) eqn:Hkeys; [|done].
  intros [= <-]. cbn. split; [done|]. split; [|split].
  - eexists. split; [apply dict_get_set_eq|].
    rewrite fold_setattr_update by done.
    split; [cbn; by rewrite fold_update_post_id|].
    split; [cbn; by rewrite (fold_update_field likes sel_likes)
                      by (by intros ? [])|].
    split; [cbn; by rewrite (fold_update_field comments sel_comments)
                      by (by intros ? [])|].
    split; [cbn; by rewrite (fold_update_field shares sel_shares)
                      by (by intros ? [])|].
    split; [cbn; by rewrite (fold_update_field upvotes sel_upvotes)
                      by (by intros ? [])|].
    split; [cbn; by rewrite (fold_update_field downvotes sel_downvotes)
                      by (by intros ? [])|].
    split; [cbn; by rewrite (fold_update_field timestamp sel_timestamp)
                      by (by intros ? [])|].
    apply post_init_base_ok.
  - intros pid' Hne. apply dict_get_set_ne. congruence.
  - rewrite dict_set_keys. unfold dict_mem. by rewrite Hget.
Qed.

Lemma add_post_stores_the_post_witness :
  exists p,
    dict_get "b" (posts store_ab) = Some p /\
    likes p = 10 /\ comments p = 0 /\ base_score p = 10 /\
    (posts store_ab).*1 = ["a"; "b"].
Proof.
  destruct (add_post_stores_the_post store_a "b" [kw_likes 10] 0%float
              store_ab eq_refl)
    as (_ & (p & Hp & _ & Hl & Hc & Hs & _ & _ & _ & Hb) & _ & Hkeys).
  exists p. split; [exact Hp|]. split; [exact Hl|]. split; [exact Hc|].
  split; [by rewrite Hb, Hl, Hc, Hs|]. exact Hkeys.
Defined.

(** ** update_post, twice *)

Lemma Post_ext p q :
  post_id p = post_id q -> likes p = likes q -> comments p = comments q ->
  shares p = shares q -> upvotes p = upvotes q ->
  downvotes p = downvotes q -> timestamp p = timestamp q ->
  base_score p = base_score q -> p = q.
Proof. destruct p, q. cbn. by intros -> -> -> -> -> -> -> ->. Qed.

(** The post that a returning [update_post] stores. *)
Definition updated (p : Post) (kwargs : list kwarg) : Post :=
  recalculate (fold_left update_step kwargs p).

Lemma update_post_plain pid kwargs e p :
  bind_call kwargs = Ok tt ->
  forallb plain kwargs = true ->
  dict_get pid (posts e) = Some p ->
  update_post pid kwargs e
  = (Ok tt,
     _invalidate_cache
       (set_posts (dict_set pid (updated p kwargs) (posts e)) e)).
Proof.
  intros Hb Hplain Hp. unfold update_post.
  by rewrite Hb, Hp, (update_loop_plain kwargs p Hplain).
Qed.

Lemma updated_fields kwargs p :
  existsb is_post_id_kw kwargs = false ->
  let p' := updated p kwargs in
  post_id p' = post_id p /\
  likes p' = default (likes p) (supplied sel_likes kwargs) /\
  comments p' = default (comments p) (supplied sel_comments kwargs) /\
  shares p' = default (shares p) (supplied sel_shares kwargs) /\
  upvotes p' = default (upvotes p) (supplied sel_upvotes kwargs) /\
  downvotes p' = default (downvotes p) (supplied sel_downvotes kwargs) /\
  timestamp p' = default (timestamp p) (supplied sel_timestamp kwargs) /\
  base_score p' = engagement_formula (likes p') (comments p') (shares p').
Proof.
  intros Hb. cbn. unfold updated, recalculate.
  split; [cbn; by apply fold_update_post_id|].
  repeat (split; [cbn; apply fold_update_field; by intros ? []|]).
  reflexivity.
Qed.

Lemma updated_idempotent kwargs p :
  existsb is_post_id_kw kwargs = false ->
  updated (updated p kwargs) kwargs = updated p kwargs.
Proof.
  intros Hb.
  destruct (updated_fields kwargs p Hb)
    as (H1 & H2 & H3 & H4 & H5 & H6 & H7 & H8).
  destruct (updated_fields kwargs (updated p kwargs) Hb)
    as (G1 & G2 & G3 & G4 & G5 & G6 & G7 & G8).
  apply Post_ext.
  - done.
  - rewrite G2, H2. by destruct (supplied sel_likes kwargs).
  - rewrite G3, H3. by destruct (supplied sel_comments kwargs).
  - rewrite G4, H4. by destruct (supplied sel_shares kwargs).
  - rewrite G5, H5. by destruct (supplied sel_upvotes kwargs).
  - rewrite G6, H6. by destruct (supplied sel_downvotes kwargs).
  - rewrite G7, H7. by destruct (supplied sel_timestamp kwargs).
  - rewrite G8, H8, G2, G3, G4, H2, H3, H4.
    by destruct (supplied sel_likes kwargs), (supplied sel_comments kwargs),
      (supplied sel_shares kwargs).
Qed.


Lemma dict_set_twice {V} k (v w : V) d :
  dict_set k w (dict_set k v d) = dict_set k w d.
Proof.
  induction d as [|[k' v'] d IH]; cbn.
  - by rewrite String.eqb_refl.
  - destruct (String.eqb_spec k' k) as [->|Hne]; cbn.
    + by rewrite String.eqb_refl.
    + destruct (String.eqb_spec k' k); [done|]. by rewrite IH.
Qed.

(** X14. [update_post] is idempotent on the store, for keywords that are
    fields, or names that are neither fields nor [__class__], [__dict__],
    [__weakref__]: when a call with such keywords has returned, a second
    call with the same keywords returns as well and leaves every post as
    the first call left it. Each call empties the cache. *)
Theorem update_post_twice e pid kwargs e1 :
  forallb plain kwargs = true ->
  update_post pid kwargs e = (Ok tt, e1) ->
  exists e2,
    update_post pid kwargs e1 = (Ok tt, e2) /\
    posts e2 = posts e1 /\
    ranking_cache e2 = ∅ /\ cache_timestamps e2 = ∅ /\
    invalidations e2 = S (invalidations e1).
Proof.
  intros Hplain. unfold update_post at 1.
  destruct (bind_call kwargs) as [[]|] eqn:Hb; [|done].
  destruct (dict_get pid (posts e)) as [p|] eqn:Hp; [|done].
  rewrite (update_loop_plain kwargs p Hplain). intros [= <-].
  rewrite (update_post_plain pid kwargs _ (updated p kwargs) Hb Hplain)
    by apply dict_get_set_eq.
  eexists. split; [done|]. cbn.
  unfold bind_call in Hb.
  destruct (existsb is_post_id_kw kwargs) eqn:Hid; [done|].
  fold (updated p kwargs).
  rewrite updated_idempotent by done.
  by rewrite dict_set_twice.
Qed.

Lemma update_post_twice_witness :
  exists e2,
    update_post "a" [kw_likes 150; kw_comments 30; kw_base_score 7]
      store_a_updated = (Ok tt, e2) /\
    posts e2 = posts store_a_updated.
Proof.
  destruct (update_post_twice store_a "a"
              [kw_likes 150; kw_comments 30; kw_base_score 7]
              store_a_updated eq_refl eq_refl) as (e2 & H1 & H2 & _).
  by exists e2.
Defined.



(** * The streaming selector and the engine *)

(** ** No room in the heap *)

(** X16. With [top_k <= 0] the heap stays empty: [heappushpop] on the empty
    heap hands the entry back without a comparison. The call returns no post
    and counts all of them, also when scores tie, as long as every post gets
    a score. *)
Theorem nonpositive_top_k_keeps_nothing M self_batch_size algorithm_ top_k
    kwargs now post_iterator :
  1 <= self_batch_size -> top_k <= 0 ->
  Forall (fun p => is_ok (_calculate_score M p algorithm_ kwargs now) = true)
    post_iterator ->
  rank_posts_streaming M self_batch_size algorithm_ top_k kwargs now
    post_iterator
  = Ok (mkResult [] (Z.of_nat (length post_iterator)) algorithm_
          self_batch_size).
Proof.
  intros Hbs Hk Hall. unfold rank_posts_streaming.
  rewrite batches_all by (done || lia).
  assert (score_batch M algorithm_ top_k kwargs now post_iterator [] = Ok [])
    as ->.
  { induction Hall as [|p rest Hp _ IH]; [done|]. cbn.
    unfold score_and_keep.
    destruct (_calculate_score M p algorithm_ kwargs now) as [s|]; [|done].
    cbn [mbind result_bind length].
    destruct (Z.ltb_spec (Z.of_nat 0) top_k); [lia|]. cbn. exact IH. }
  cbn. by rewrite Z.add_0_l.
Qed.

Lemma nonpositive_top_k_keeps_nothing_witness :
  rank_posts_streaming no_math 100000 "engagement_score" 0 no_kwargs 10%float
    [post_b; post_c]
  = Ok (mkResult [] 2 "engagement_score" 100000).
Proof.
  apply (nonpositive_top_k_keeps_nothing no_math 100000 "engagement_score" 0
           no_kwargs 10%float [post_b; post_c]); [lia|lia|].
  by repeat constructor.
Defined.

(** ** The two paths agree where scores differ *)

Lemma insert_desc_fmap {A B} (f : A -> B) (lt1 : A -> A -> bool)
    (lt2 : B -> B -> bool) x l :
  Forall (fun y => lt2 (f x) (f y) = lt1 x y) l ->
  insert_desc lt2 (f x) (f <$> l) = f <$> insert_desc lt1 x l.
Proof.
  induction 1 as [|y l Hy _ IH]; [done|]. cbn. rewrite Hy.
  destruct (lt1 x y); [|done]. cbn. by rewrite IH.
Qed.

Lemma list_sort_reverse_fmap {A B} (f : A -> B) (lt1 : A -> A -> bool)
    (lt2 : B -> B -> bool) l :
  pairwise (fun x y => lt2 (f x) (f y) = lt1 x y) l ->
  list_sort_reverse lt2 (f <$> l) = f <$> list_sort_reverse lt1 l.
Proof.
  induction l as [|x l IH]; [done|]. intros [Hx Hl].
  change (insert_desc lt2 (f x) (list_sort_reverse lt2 (f <$> l))
          = f <$> insert_desc lt1 x (list_sort_reverse lt1 l)).
  rewrite IH by done. apply insert_desc_fmap.
  by rewrite list_sort_reverse_perm.
Qed.

Lemma pairwise_impl {A} (R S : A -> A -> Prop) l :
  (forall x y, R x y -> S x y) -> pairwise R l -> pairwise S l.
Proof.
  intros HRS. induction l as [|x l IH]; [done|]. intros [Hx Hl].
  split; [|by apply IH]. eapply Forall_impl; [exact Hx|]. apply HRS.
Qed.

Lemma pairwise_fmap {A B} (f : A -> B) (R : B -> B -> Prop) l :
  pairwise R (f <$> l) <-> pairwise (fun x y => R (f x) (f y)) l.
Proof.
  induction l as [|x l IH]; [done|]. cbn. rewrite Forall_fmap, IH. done.
Qed.

(** Every stored post carries the id it is stored under. *)
Definition ids_ok (e : RankingEngine) : Prop :=
  Forall (fun kp => post_id kp.2 = kp.1) (posts e).

Section Agreement.
Variable M : PyMath.
Variables (self_batch_size : Z) (algorithm_ : string) (top_k : Z)
  (kwargs : score_kwargs) (now : float).

(** The selector on scored posts whose scores differ. *)
Lemma selector_returns_front scored :
  distinct_scores scored ->
  1 <= self_batch_size ->
  Forall (fun sp => _calculate_score M sp.2 algorithm_ kwargs now = Ok sp.1)
    scored ->
  rank_posts_streaming M self_batch_size algorithm_ top_k kwargs now
    scored.*2
  = Ok (mkResult
          (take (Z.to_nat top_k) (list_sort_reverse by_score scored))
          (Z.of_nat (length scored)) algorithm_ self_batch_size).
Proof.
  intros Hd Hbs Hscored. unfold rank_posts_streaming.
  rewrite batches_all by done.
  rewrite (score_batch_keep_all M algorithm_ top_k kwargs now scored []
             Hscored).
  assert (items scored scored) as HU
    by (split; [by apply distinct_scores_NoDup|done]).
  destruct (keep_all_correct entry_lt by_score scored
              (entry_lt_by_score scored Hd) (by_score_total scored Hd)
              (by_score_trans scored) (by_score_irrefl scored) top_k scored
              [] []) as (h & D & Hrun & Hkept & HP).
  { split; [|split]; [by intros i j a b _; rewrite lookup_nil|
                      by intros d y Hd'; apply elem_of_nil in Hd'|done]. }
  { by rewrite !app_nil_r. }
  rewrite Hrun. cbn [mbind result_bind fst snd].
  rewrite !app_nil_r in HP.
  assert (items scored h) as Hh.
  { pose proof (items_perm scored scored (h ++ D) (symmetry HP) HU)
      as [Hn Hs].
    apply NoDup_app in Hn as (? & _ & _).
    split; [done|]. intros z Hz. apply Hs, elem_of_app. by left. }
  rewrite (sorted_reverse_pure entry_lt by_score scored
             (entry_lt_by_score scored Hd) h Hh).
  cbn [mbind result_bind].
  rewrite (kept_sorted_is_front by_score scored (by_score_total scored Hd)
             (by_score_trans scored) (by_score_irrefl scored)
             (Z.to_nat top_k) h D scored HU HP Hkept).
  by rewrite length_fmap, Z.add_0_l.
Qed.

Lemma scored_of_loop items scores :
  _calculate_scores_loop M items algorithm_ kwargs now = Ok scores ->
  Forall (fun kp => post_id kp.2 = kp.1) items ->
  exists scored : list (float * Post),
    scored.*2 = items.*2 /\
    Forall (fun sp => _calculate_score M sp.2 algorithm_ kwargs now = Ok sp.1)
      scored /\
    (fun sp => (sp.1, post_id sp.2)) <$> scored = scores.
Proof.
  revert scores. induction items as [|[pid post] rest IH]; intros scores; cbn.
  - intros [= <-] _. by exists [].
  - destruct (_calculate_scores_body M post algorithm_ kwargs now) as [s|]
      eqn:Hs; [|done].
    cbn.
    destruct (_calculate_scores_loop M rest algorithm_ kwargs now) as [tl|];
      [|done].
    cbn. intros [= <-] [Hid Hrest]%Forall_cons. cbn in Hid.
    destruct (IH tl eq_refl Hrest) as (scored & H1 & H2 & H3).
    exists ((s, post) :: scored). cbn. rewrite H1, H3, Hid.
    split; [done|]. split; [|done]. by constructor.
Qed.

(** X17. Take an engine in which every post carries the id it is stored
    under, and one clock reading [now] at which the scores of the stored
    posts are not NaN and differ from one another. The streaming selector
    over the stored posts and the engine's own ranking, both scoring at
    [now], agree: both return, and the first [top_k] scores and ids are the
    same, in the same order. *)
Theorem streaming_agrees_with_engine e scores :
  ids_ok e ->
  1 <= self_batch_size -> 0 <= top_k ->
  _is_cache_valid algorithm_ now e = false ->
  _calculate_scores M algorithm_ kwargs now e = Ok scores ->
  no_nan scores ->
  pairwise (fun x y => PrimFloat.eqb x.1 y.1 = false) scores ->
  exists r res e',
    rank_posts_streaming M self_batch_size algorithm_ top_k kwargs now
      (posts e).*2 = Ok r /\
    get_ranked_posts M algorithm_ top_k kwargs now e = (Ok res, e') /\
    (fun sp => (sp.1, post_id sp.2)) <$> top_posts r
    = (fun x => (r_score x, r_post_id x)) <$> res.
Proof.
  intros Hr Hbs Hk Hc Hs Hn Hp.
  destruct (scored_of_loop (posts e) scores Hs Hr)
    as (scored & H2 & Hall & Hf).
  assert (distinct_scores scored) as Hd.
  { split.
    - unfold no_nan in Hn. rewrite <-Hf, Forall_fmap in Hn. exact Hn.
    - rewrite <-Hf in Hp. apply pairwise_fmap in Hp. exact Hp. }
  eexists. rewrite <-H2.
  rewrite (selector_returns_front scored Hd Hbs Hall).
  unfold get_ranked_posts. rewrite Hc, Hs.
  cbn [fst snd posts].
  destruct (ranked_loop_returns (posts e) now 1
              (slice_to (list_sort_reverse score_id_lt scores) top_k))
    as [res Hres].
  { apply Forall_forall. intros sp Hsp. apply slice_to_elem_of in Hsp.
    rewrite list_sort_reverse_perm in Hsp. apply dict_get_is_Some.
    rewrite <-(calculate_scores_loop_ids M _ _ _ _ _ Hs).
    apply list_elem_of_fmap. by exists sp. }
  rewrite Hres. do 2 eexists. split; [done|]. split; [done|]. cbn.
  rewrite (ranked_loop_ids _ _ _ _ _ Hres), slice_to_nonneg by done.
  rewrite <-Hf, fmap_take. f_equal. symmetry.
  apply list_sort_reverse_fmap.
  destruct Hd as [_ Hd]. eapply pairwise_impl; [|exact Hd].
  intros x y Hxy. unfold score_id_lt, by_score. cbn. by rewrite Hxy.
Qed.
End Agreement.

(** Three posts with engagement 5, 9 and 7, created at time 0. *)
Definition store_three : RankingEngine :=
  (batch_add_posts
     [[kw_post_id "a"; kw_likes 5]; [kw_post_id "b"; kw_likes 9];
      [kw_post_id "c"; kw_likes 7]] 0%float new_engine).2.

Lemma streaming_agrees_with_engine_witness :
  exists r res e',
    rank_posts_streaming no_math 2 "engagement_score" 2 no_kwargs 0%float
      (posts store_three).*2 = Ok r /\
    get_ranked_posts no_math "engagement_score" 2 no_kwargs 0%float
      store_three = (Ok res, e') /\
    (fun sp => (sp.1, post_id sp.2)) <$> top_posts r
    = (fun x => (r_score x, r_post_id x)) <$> res /\
    r_post_id <$> res = ["b"; "c"].
Proof.
  destruct (streaming_agrees_with_engine no_math 2 "engagement_score" 2
              no_kwargs 0%float store_three
              [(5%float, "a"); (9%float, "b"); (7%float, "c")]
              ltac:(by repeat constructor) ltac:(lia) ltac:(lia)
              eq_refl eq_refl)
    as (r & res & e' & H1 & H2 & H3).
  { by repeat constructor. }
  { cbn. repeat split; by repeat constructor. }
  exists r, res, e'. split; [exact H1|]. split; [exact H2|].
  split; [exact H3|].
  vm_compute in H2. injection H2 as <- _. reflexivity.
Defined.
(** * Ints that fit a double *)

Lemma digits2_pos_iter_xO k m :
  digits2_pos (Pos.iter xO m k) = (digits2_pos m + k)%positive.
Proof.
  induction k as [|k IH] using Pos.peano_ind.
  - cbn. lia.
  - rewrite Pos.iter_succ. cbn [digits2_pos]. rewrite IH. lia.
Qed.

Lemma digits2_pos_size m : digits2_pos m = Pos.size m.
Proof. induction m as [m IH|m IH|]; cbn; by rewrite ?IH. Qed.

Lemma digits2_pos_bound m k :
  Z.pos m < 2 ^ k -> 0 <= k -> Z.pos (digits2_pos m) <= k.
Proof.
  intros Hm Hk. rewrite digits2_pos_size.
  pose proof (Pos.size_le m) as Hle.
  destruct (Z.le_gt_cases (Z.pos (Pos.size m)) k) as [|Hgt]; [done|].
  exfalso.
  assert (2 ^ (k + 1) <= 2 ^ Z.pos (Pos.size m)) as Hpow
    by (apply Z.pow_le_mono_r; lia).
  assert (Z.pos (2 ^ Pos.size m) <= Z.pos m~0) as Hle' by lia.
  rewrite Pos2Z.inj_pow in Hle'. rewrite Z.pow_add_r in Hpow by lia.
  lia.
Qed.

(** An int below [2 ^ 53] in size is a double. *)
Lemma binary_normalize_small s m :
  Z.pos m < 2 ^ 53 ->
  exists mz e,
    binary_normalize prec emax (if s : bool then Z.neg m else Z.pos m) 0 false
    = S754_finite s mz e /\
    valid_binary (S754_finite s mz e) = true.
Proof.
  intros Hm. pose proof (digits2_pos_bound m 53 Hm ltac:(lia)) as Hd.
  set (d := digits2_pos m) in *.
  assert (fexp prec emax (Z.pos d + 0) = Z.pos d - 53) as Hfexp.
  { unfold fexp, SpecFloat.emin, prec, emax.
    change IntDef.Z.max with Z.max. lia. }
  assert (exists mz,
            shl_align m 0 (Z.pos d - 53) = (mz, Z.pos d - 53) /\
            Z.pos (digits2_pos mz) = 53) as (mz & Halign & Hdz).
  { unfold shl_align. rewrite Z.sub_0_r.
    destruct (Z.pos d - 53) as [|p|p] eqn:E; [|lia|].
    - exists m. split; [done|]. fold d. lia.
    - exists (Pos.iter xO m p). split; [done|].
      rewrite digits2_pos_iter_xO. fold d. lia. }
  assert (fexp prec emax (Z.pos (digits2_pos mz) + (Z.pos d - 53))
          = Z.pos d - 53) as Hfexp'.
  { rewrite Hdz. unfold fexp, SpecFloat.emin, prec, emax.
    change IntDef.Z.max with Z.max. lia. }
  exists mz, (Z.pos d - 53).
  assert (binary_round prec emax s m 0 = S754_finite s mz (Z.pos d - 53))
    as Hround.
  { unfold binary_round. fold d. rewrite Hfexp, Halign.
    unfold binary_round_aux, shr_fexp. cbn [Zdigits2].
    rewrite Hfexp', Z.sub_diag. cbn [shr shr_record_of_loc shr_m
      loc_of_shr_record round_nearest_even Zdigits2].
    rewrite Hfexp', Z.sub_diag. cbn [shr shr_m].
    unfold prec, emax. destruct (Z.leb_spec (Z.pos d - 53) (1024 - 53));
      [done|lia]. }
  split.
  - destruct s; exact Hround.
  - cbn. unfold bounded, canonical_mantissa. rewrite Hfexp', Z.eqb_refl.
    unfold prec, emax. cbn. apply Z.leb_le. lia.
Qed.

Lemma of_int_small n : Z.abs n < 2 ^ 53 -> exists f, F.of_int n = Ok f.
Proof.
  intros Hn. unfold F.of_int.
  destruct n as [|m|m].
  - by eexists.
  - destruct (binary_normalize_small false m Hn) as (mz & e & -> & Hv).
    unfold is_infinity. rewrite FloatAxioms.eqb_spec, FloatAxioms.abs_spec.
    rewrite (FloatAxioms.Prim2SF_SF2Prim _ Hv). cbn. by eexists.
  - destruct (binary_normalize_small true m Hn) as (mz & e & -> & Hv).
    unfold is_infinity. rewrite FloatAxioms.eqb_spec, FloatAxioms.abs_spec.
    rewrite (FloatAxioms.Prim2SF_SF2Prim _ Hv). cbn. by eexists.
Qed.

(** * generate_test_posts *)

(** [mapM] returns when the function returns on every element. *)
Lemma mapM_Ok {A B} (f : A -> result B) l k :
  mapM f l = Ok k <-> Forall2 (fun x y => f x = Ok y) l k.
Proof.
  revert k. induction l as [|x l IH]; intros k; cbn.
  - split; [intros [= <-]; constructor|by intros ->%Forall2_nil_inv_l].
  - destruct (f x) as [y|] eqn:E; cbn.
    + destruct (mapM f l) as [k'|] eqn:E'; cbn.
      * split.
        -- intros [= <-]. constructor; [done|]. by apply IH.
        -- intros (y' & k'' & Hy & Hk & ->)%Forall2_cons_inv_l.
           apply IH in Hk. rewrite Hy in E. by injection E as <-;
             injection Hk as <-.
      * split; [done|].
        intros (y' & k'' & Hy & Hk & ->)%Forall2_cons_inv_l.
        by apply IH in Hk.
    + split; [done|].
      intros (y' & k'' & Hy & Hk & ->)%Forall2_cons_inv_l. congruence.
Qed.

(** The index a formatted number stands for. *)
Definition decode_08d (s : string) : option N :=
  N.of_uint <$> NilEmpty.uint_of_string s.

Lemma of_uint_iter_D0 k d : N.of_uint (Nat.iter k D0 d) = N.of_uint d.
Proof. induction k as [|k IH]; [done|]. cbn [Nat.iter]. by rewrite <-IH. Qed.

Lemma decode_format_08d i :
  0 <= i -> decode_08d (format_08d i) = Some (Z.to_N i).
Proof.
  intros Hi. unfold decode_08d, format_08d.
  destruct (Z.ltb_spec i 0); [lia|].
  rewrite NilEmpty.usu. cbn.
  rewrite of_uint_iter_D0, DecimalN.Unsigned.of_to. f_equal. lia.
Qed.

Lemma format_08d_inj i j :
  0 <= i -> 0 <= j -> format_08d i = format_08d j -> i = j.
Proof.
  intros Hi Hj H.
  pose proof (decode_format_08d i Hi) as H1.
  pose proof (decode_format_08d j Hj) as H2.
  rewrite H, H2 in H1. injection H1. lia.
Qed.

Lemma append_inj_r a b c : String.append a b = String.append a c -> b = c.
Proof. induction a as [|x a IH]; cbn; [done|]. intros [= H]. by apply IH. Qed.

(** What the loop yields for an index that is not negative. *)
Lemma test_post_spec base_time i :
  0 <= i ->
  exists p age,
    test_post base_time i = Ok p /\
    post_id p = String.append "post_" (format_08d i) /\
    likes p = (i * 7) mod 10000 + 1 /\
    comments p = (i * 3) mod 1000 + 1 /\
    shares p = (i * 5) mod 500 + 1 /\
    upvotes p = likes p + i mod 100 /\
    downvotes p = i mod 50 /\
    F.of_int (i mod 2592000) = Ok age /\
    timestamp p = PrimFloat.sub base_time age /\
    base_score p = likes p + 2 * comments p + 3 * shares p.
Proof.
  intros Hi. unfold test_post.
  change (86400 * 30) with 2592000.
  destruct (of_int_small (i mod 2592000)) as [age Hage].
  { pose proof (Z.mod_pos_bound i 2592000 ltac:(lia)). lia. }
  rewrite Hage. cbn [mbind result_bind].
  eexists _, age. split; [reflexivity|]. cbn.
  unfold engagement_formula. repeat split; lia.
Qed.

(** X18. [generate_test_posts(n)] yields [n] posts, none for a negative
    [n], and never raises. The ids of the posts are pairwise different, and
    the post with index [i] has likes in 1..10000, comments in 1..1000,
    shares in 1..500, more upvotes than downvotes, a timestamp less than 30
    days before the start, and the base score of the formula. *)
Theorem generate_test_posts_yields num_posts base_time :
  exists ps,
    generate_test_posts num_posts base_time = Ok ps /\
    length ps = Z.to_nat num_posts /\
    NoDup (post_id <$> ps) /\
    forall i p, ps !! i = Some p ->
      test_post base_time (Z.of_nat i) = Ok p /\
      1 <= likes p <= 10000 /\ 1 <= comments p <= 1000 /\
      1 <= shares p <= 500 /\ 0 <= downvotes p < upvotes p /\
      (exists age, F.of_int (Z.of_nat i mod 2592000) = Ok age /\
         timestamp p = PrimFloat.sub base_time age) /\
      base_score p = likes p + 2 * comments p + 3 * shares p.
Proof.
  unfold generate_test_posts.
  set (idx := Z.of_nat <$> seq 0 (Z.to_nat num_posts)).
  assert (Forall (fun i => 0 <= i) idx) as Hidx.
  { apply Forall_fmap, Forall_forall. intros i _. cbn. lia. }
  assert (exists ps, Forall2 (fun i p => test_post base_time i = Ok p) idx ps)
    as [ps Hps].
  { clear -Hidx. induction Hidx as [|i idx Hi _ [ps IH]]; [by exists []|].
    destruct (test_post_spec base_time i Hi) as (p & _ & Hp & _).
    exists (p :: ps). by constructor. }
  exists ps. split; [by apply mapM_Ok|].
  assert (length ps = Z.to_nat num_posts) as Hlen.
  { rewrite <-(Forall2_length _ _ _ Hps). unfold idx.
    by rewrite length_fmap, length_seq. }
  split; [done|].
  assert (forall i p, ps !! i = Some p ->
            test_post base_time (Z.of_nat i) = Ok p) as Hlook.
  { intros i p Hp.
    destruct (Forall2_lookup_r _ _ _ _ _ Hps Hp) as (j & Hj & Hjp).
    unfold idx in Hj. rewrite list_lookup_fmap in Hj.
    destruct (seq 0 (Z.to_nat num_posts) !! i) as [k|] eqn:Hk; [|done].
    apply lookup_seq in Hk as [-> _]. cbn in Hj. by injection Hj as <-. }
  split.
  - apply NoDup_alt. intros i j pid Hi Hj.
    rewrite list_lookup_fmap in Hi, Hj.
    destruct (ps !! i) as [p|] eqn:Hp; [|done].
    destruct (ps !! j) as [q|] eqn:Hq; [|done].
    cbn in Hi, Hj.
    apply Hlook in Hp, Hq.
    destruct (test_post_spec base_time (Z.of_nat i) ltac:(lia))
      as (p' & _ & Hp' & Hidp & _).
    destruct (test_post_spec base_time (Z.of_nat j) ltac:(lia))
      as (q' & _ & Hq' & Hidq & _).
    rewrite Hp in Hp'. rewrite Hq in Hq'.
    injection Hp' as <-. injection Hq' as <-.
    assert (format_08d (Z.of_nat i) = format_08d (Z.of_nat j)) as Hf.
    { apply (append_inj_r "post_"). congruence. }
    apply format_08d_inj in Hf; lia.
  - intros i p Hp. apply Hlook in Hp. split; [done|].
    destruct (test_post_spec base_time (Z.of_nat i) ltac:(lia))
      as (p' & age & Hp' & _ & Hl & Hc & Hs & Hu & Hd & Hage & Ht & Hb).
    rewrite Hp in Hp'. injection Hp' as <-.
    pose proof (Z.mod_pos_bound (Z.of_nat i * 7) 10000 ltac:(lia)).
    pose proof (Z.mod_pos_bound (Z.of_nat i * 3) 1000 ltac:(lia)).
    pose proof (Z.mod_pos_bound (Z.of_nat i * 5) 500 ltac:(lia)).
    pose proof (Z.mod_pos_bound (Z.of_nat i) 100 ltac:(lia)).
    pose proof (Z.mod_pos_bound (Z.of_nat i) 50 ltac:(lia)).
    assert (Z.of_nat i mod 50 <= Z.of_nat i mod 100).
    { rewrite <-(Z.mod_mod_divide (Z.of_nat i) 100 50)
        by (by exists 2).
      apply Z.mod_le; lia. }
    repeat split; try lia. by exists age.
Qed.
(** ** Generated posts that tie *)

Lemma score_ignores_id M p q algorithm_ kwargs now :
  likes p = likes q -> comments p = comments q -> shares p = shares q ->
  upvotes p = upvotes q -> downvotes p = downvotes q ->
  timestamp p = timestamp q -> base_score p = base_score q ->
  _calculate_score M p algorithm_ kwargs now
  = _calculate_score M q algorithm_ kwargs now.
Proof.
  destruct p, q. cbn. by intros -> -> -> -> -> -> ->.
Qed.

(** X19. [generate_test_posts] repeats itself every 12,960,000 posts: the
    posts with index [i] and [i + 12960000] have the same counters and the
    same timestamp, and different ids. Scored at one clock reading they get
    the same score, whatever the algorithm, and two heap entries that pair
    them with one score cannot be ordered: the comparison raises
    [TypeError]. *)
Theorem generated_posts_repeat M base_time i p q :
  0 <= i ->
  test_post base_time i = Ok p ->
  test_post base_time (i + 12960000) = Ok q ->
  post_id q ≠ post_id p /\
  likes q = likes p /\ comments q = comments p /\ shares q = shares p /\
  upvotes q = upvotes p /\ downvotes q = downvotes p /\
  timestamp q = timestamp p /\ base_score q = base_score p /\
  (forall algorithm_ kwargs now,
     _calculate_score M q algorithm_ kwargs now
     = _calculate_score M p algorithm_ kwargs now) /\
  (forall s, not_nan s -> entry_lt (s, q) (s, p) = Raise unorderable).
Proof.
  intros Hi Hp Hq.
  destruct (test_post_spec base_time i Hi)
    as (p' & age & Hp' & Hidp & Hl & Hc & Hsh & Hu & Hd & Hage & Ht & Hb).
  destruct (test_post_spec base_time (i + 12960000) ltac:(lia))
    as (q' & age' & Hq' & Hidq & Hl' & Hc' & Hsh' & Hu' & Hd' & Hage' & Ht'
        & Hb').
  rewrite Hp in Hp'. rewrite Hq in Hq'. injection Hp' as <-.
  injection Hq' as <-.
  assert (forall a m k, m ≠ 0 -> a * 12960000 = k * m ->
            ((i + 12960000) * a) mod m = (i * a) mod m) as Hmod.
  { intros a m k Hm Hk'.
    replace ((i + 12960000) * a) with (i * a + k * m) by lia.
    by apply Z.mod_add. }
  rewrite (Hmod 7 10000 9072) in Hl' by lia.
  rewrite (Hmod 3 1000 38880) in Hc' by lia.
  rewrite (Hmod 5 500 129600) in Hsh' by lia.
  assert (forall m k, m ≠ 0 -> 12960000 = k * m ->
            (i + 12960000) mod m = i mod m) as Hmod1.
  { intros m k Hm ->. by apply Z.mod_add. }
  rewrite (Hmod1 100 129600) in Hu' by lia.
  rewrite (Hmod1 50 259200) in Hd' by lia.
  rewrite (Hmod1 2592000 5) in Hage' by lia.
  assert (age' = age) as -> by congruence.
  assert (post_id q ≠ post_id p) as Hne.
  { rewrite Hidp, Hidq. intros H%append_inj_r.
    apply format_08d_inj in H; lia. }
  split; [done|].
  do 7 (split; [lia || congruence|]).
  split.
  - intros algorithm_ kwargs now. apply score_ignores_id; lia || congruence.
  - intros s Hn. unfold entry_lt, Post_eqb. cbn [fst snd]. rewrite Hn.
    destruct (String.eqb_spec (post_id q) (post_id p)); [done|].
    reflexivity.
Qed.

Lemma generated_posts_repeat_witness :
  exists p q,
    test_post 0%float 0 = Ok p /\ test_post 0%float 12960000 = Ok q /\
    post_id p = "post_00000000" /\ post_id q = "post_12960000" /\
    likes q = likes p /\
    entry_lt (6%float, q) (6%float, p) = Raise unorderable.
Proof.
  pose (p := match test_post 0%float 0 with
             | Ok p => p | Raise _ => post_a end).
  pose (q := match test_post 0%float 12960000 with
             | Ok p => p | Raise _ => post_a end).
  assert (test_post 0%float 0 = Ok p) as Hp by (vm_compute; reflexivity).
  assert (test_post 0%float (0 + 12960000) = Ok q) as Hq
    by (vm_compute; reflexivity).
  exists p, q. split; [exact Hp|]. split; [exact Hq|].
  split; [vm_compute; reflexivity|]. split; [vm_compute; reflexivity|].
  destruct (generated_posts_repeat no_math 0%float 0 p q ltac:(lia) Hp Hq)
    as (_ & Hl & _ & _ & _ & _ & _ & _ & _ & H).
  split; [exact Hl|]. by apply H.
Defined.

(** * RankingConfig *)

Import RankingConfig.

Lemma update_get {V} (d w : list (string * V)) key :
  NoDup w.*1 ->
  dict_get key (update d w)
  = match dict_get key w with
    | Some v => Some v
    | None => dict_get key d
    end.
Proof.
  unfold update. revert d. induction w as [|[k v] w IH]; intros d Hnd; [done|].
  apply NoDup_cons in Hnd as [Hk Hnd]. cbn. rewrite IH by done.
  destruct (String.eqb_spec k key) as [->|Hne].
  - rewrite (dict_get_not_elem key w Hk). apply dict_get_set_eq.
  - destruct (dict_get key w); [done|]. by apply dict_get_set_ne.
Qed.

(** X20. [get_hybrid_weights] completes a map of custom weights: a key of
    the custom map has its custom value, and every other key has the value
    of [DEFAULT_HYBRID_WEIGHTS], also when the custom map is [None] or
    empty. So the hybrid scorer, given the result, finds all four keys it
    reads: it raises no [KeyError], and with no custom map it scores as it
    does without weights. *)
Theorem hybrid_weights_are_completed M custom post now :
  (forall w, custom = Some w -> NoDup w.*1) ->
  (forall key,
     dict_get key (get_hybrid_weights custom)
     = match custom ≫= dict_get key with
       | Some v => Some v
       | None => dict_get key DEFAULT_HYBRID_WEIGHTS
       end) /\
  (forall x,
     _hybrid_score M post (Some (get_hybrid_weights custom)) now = Raise x ->
     x = OverflowError) /\
  _hybrid_score M post (Some (get_hybrid_weights None)) now
  = _hybrid_score M post None now.
Proof.
  intros Hnd.
  assert (forall key,
            dict_get key (get_hybrid_weights custom)
            = match custom ≫= dict_get key with
              | Some v => Some v
              | None => dict_get key DEFAULT_HYBRID_WEIGHTS
              end) as Hget.
  { intros key. destruct custom as [[|kv w]|]; [reflexivity| |reflexivity].
    unfold get_hybrid_weights. rewrite update_get; [reflexivity|by apply Hnd]. }
  split; [done|]. split; [|reflexivity].
  intros x Hx.
  destruct (hybrid_score_raises _ _ _ _ _ Hx) as [->|[k ->]]; [done|].
  exfalso. revert Hx. unfold _hybrid_score.
  assert (forall key, key ∈ weight_keys ->
            exists v, getitem (get_hybrid_weights custom) key = Ok v) as Hkey.
  { intros key Hin. unfold getitem. rewrite Hget.
    destruct (custom ≫= dict_get key); [by eauto|].
    unfold weight_keys in Hin.
    repeat (apply elem_of_cons in Hin as [->|Hin]; [by eexists|]).
    by apply elem_of_nil in Hin. }
  destruct (Hkey "likes") as [wl ->]; [in_list|]. cbn [mbind result_bind].
  destruct (F.of_int (likes post)) eqn:E1; cbn [mbind result_bind];
    [|intros [= ?]; subst; by apply of_int_raises in E1].
  destruct (Hkey "comments") as [wc ->]; [in_list|]. cbn [mbind result_bind].
  destruct (F.of_int (comments post)) eqn:E2; cbn [mbind result_bind];
    [|intros [= ?]; subst; by apply of_int_raises in E2].
  destruct (Hkey "shares") as [ws ->]; [in_list|]. cbn [mbind result_bind].
  destruct (F.of_int (shares post)) eqn:E3; cbn [mbind result_bind];
    [|intros [= ?]; subst; by apply of_int_raises in E3].
  destruct (Hkey "time_decay") as [wt ->]; [in_list|].
  cbn [mbind result_bind].
  destruct (exp M _) eqn:E4; cbn [mbind result_bind];
    [done|intros [= ?]; subst; by apply exp_raises in E4].
Qed.

Lemma hybrid_weights_are_completed_witness :
  get_hybrid_weights (Some [("likes", 5.0%float)])
  = [("likes", 5.0%float); ("comments", 2.0%float); ("shares", 3.0%float);
     ("time_decay", 0.1%float); ("recency_boost", 1.2%float);
     ("viral_penalty", 0.8%float)] /\
  dict_get "comments" (get_hybrid_weights (Some [("likes", 5.0%float)]))
  = Some 2.0%float.
Proof.
  split; [reflexivity|].
  destruct (hybrid_weights_are_completed no_math
              (Some [("likes", 5.0%float)]) post_a 0%float) as (H & _).
  { intros w [= <-]. apply NoDup_singleton. }
  by rewrite H.
Defined.

(** X21. The three engagement classes of [RankingConfig] never raise. A
    viral post is a high-engagement post, and a low-engagement post is
    neither viral nor high-engagement; a post can be in none of the
    classes. *)
Theorem engagement_classes likes_ comments_ shares_ :
  exists v h lo,
    is_viral_post likes_ comments_ shares_ = Ok v /\
    is_high_engagement likes_ comments_ shares_ = Ok h /\
    is_low_engagement likes_ comments_ shares_ = Ok lo /\
    (v = true <-> 10000 <= likes_ \/ 500 <= comments_ \/ 1000 <= shares_) /\
    (h = true <-> 1000 <= likes_ \/ 100 <= comments_ \/ 200 <= shares_) /\
    (lo = true <-> likes_ <= 10 /\ comments_ <= 1 /\ shares_ <= 1) /\
    (v = true -> h = true) /\ (lo = true -> h = false) /\
    (is_viral_post 500 50 50 = Ok false /\
     is_high_engagement 500 50 50 = Ok false /\
     is_low_engagement 500 50 50 = Ok false).
Proof.
  unfold is_viral_post, is_high_engagement, is_low_engagement.
  cbn [threshold RankingConfig.threshold dict_get ENGAGEMENT_THRESHOLDS
       mbind result_bind String.eqb].
  cbn.
  destruct (Z.leb_spec 10000 likes_), (Z.leb_spec 500 comments_),
    (Z.leb_spec 1000 shares_), (Z.leb_spec 1000 likes_),
    (Z.leb_spec 100 comments_), (Z.leb_spec 200 shares_),
    (Z.leb_spec likes_ 10), (Z.leb_spec comments_ 1),
    (Z.leb_spec shares_ 1); try lia;
    do 3 eexists; repeat split; intros; try done; try lia.
Qed.
(** * get_stats *)

Lemma int_truediv_raises a b x :
  int_truediv a b = Raise x ->
  (x = ZeroDivisionError /\ b = 0) \/ x = OverflowError.
Proof.
  unfold int_truediv. destruct (Z.eqb_spec b 0) as [->|Hb].
  - intros [= <-]. by left.
  - destruct (a =? 0); [done|].
    destruct (is_infinity _); [|done]. intros [= <-]. by right.
Qed.

Lemma average_raises total n x : average total n = Raise x -> x = OverflowError.
Proof.
  unfold average. destruct (Z.ltb_spec 0 n); [|done].
  destruct (int_truediv total n) eqn:E; [done|]. cbn. intros [= <-].
  apply int_truediv_raises in E as [[_ ?]|?]; [lia|done].
Qed.

Lemma fold_sum_acc (f : Post -> Z) d a :
  fold_left (fun acc kp => acc + f kp.2) d a = a + sum_of f d.
Proof.
  unfold sum_of. revert a. induction d as [|kp d IH]; intros a; cbn; [lia|].
  rewrite (IH (a + f kp.2)), (IH (0 + f kp.2)). lia.
Qed.

Lemma sum_of_cons f kp d : sum_of f (kp :: d) = f kp.2 + sum_of f d.
Proof. unfold sum_of at 1. cbn. by rewrite fold_sum_acc. Qed.

Lemma sum_of_set_fresh f k v d :
  dict_get k d = None -> sum_of f (dict_set k v d) = sum_of f d + f v.
Proof.
  induction d as [|[k' v'] d IH]; cbn [dict_get dict_set].
  - intros _. unfold sum_of. cbn. lia.
  - destruct (String.eqb k' k); [done|]. intros H.
    rewrite !sum_of_cons, IH by done. cbn [snd]. lia.
Qed.

Lemma get_stats_Ok e s :
  get_stats e = Ok s ->
  total_posts s = Z.of_nat (length (posts e)) /\
  total_likes s = sum_of likes (posts e) /\
  total_comments s = sum_of comments (posts e) /\
  total_shares s = sum_of shares (posts e) /\
  average (total_likes s) (total_posts s) = Ok (avg_likes_per_post s) /\
  average (total_comments s) (total_posts s) = Ok (avg_comments_per_post s) /\
  average (total_shares s) (total_posts s) = Ok (avg_shares_per_post s) /\
  cache_size s = Z.of_nat (size (ranking_cache e)).
Proof.
  unfold get_stats.
  destruct (average (sum_of likes _) _) eqn:E1; [|done].
  destruct (average (sum_of comments _) _) eqn:E2; [|done].
  destruct (average (sum_of shares _) _) eqn:E3; [|done].
  destruct (_estimate_memory_usage e); [|done]. cbn. by intros [= <-].
Qed.

(** X22. [get_stats] never divides by zero: it raises nothing but
    [OverflowError] (a total too large for a float). On the engine without
    posts it reports zero posts and totals, and the int 0 for each average;
    on an engine with posts each average is the float its total divided by
    the number of posts gives. *)
Theorem get_stats_guards_division e :
  (forall x, get_stats e = Raise x -> x = OverflowError) /\
  get_stats new_engine
  = Ok (mkStats 0 0 0 0 (Int 0) (Int 0) (Int 0) 0 0%float) /\
  (forall s, get_stats e = Ok s ->
     total_posts s = Z.of_nat (length (posts e)) /\
     (posts e = [] ->
      total_likes s = 0 /\ total_comments s = 0 /\ total_shares s = 0 /\
      avg_likes_per_post s = Int 0 /\ avg_comments_per_post s = Int 0 /\
      avg_shares_per_post s = Int 0) /\
     (posts e ≠ [] ->
      Float <$> int_truediv (total_likes s) (total_posts s)
      = Ok (avg_likes_per_post s) /\
      Float <$> int_truediv (total_comments s) (total_posts s)
      = Ok (avg_comments_per_post s) /\
      Float <$> int_truediv (total_shares s) (total_posts s)
      = Ok (avg_shares_per_post s))).
Proof.
  split; [|split; [reflexivity|]].
  - intros x. unfold get_stats.
    destruct (average (sum_of likes _) _) eqn:E1;
      [|cbn; intros [= <-]; by eapply average_raises].
    destruct (average (sum_of comments _) _) eqn:E2;
      [|cbn; intros [= <-]; by eapply average_raises].
    destruct (average (sum_of shares _) _) eqn:E3;
      [|cbn; intros [= <-]; by eapply average_raises].
    destruct (_estimate_memory_usage e) eqn:E4; [done|].
    cbn. intros [= <-]. unfold _estimate_memory_usage in E4.
    apply int_truediv_raises in E4 as [[_ ?]|?]; [lia|done].
  - intros s Hs.
    destruct (get_stats_Ok e s Hs)
      as (Hn & Hl & Hc & Hsh & Hal & Hac & Hash & _).
    split; [done|]. split.
    + intros Hnil. rewrite Hnil in *. cbn in Hn.
      unfold sum_of in Hl, Hc, Hsh. cbn in Hl, Hc, Hsh.
      rewrite Hn, ?Hl, ?Hc, ?Hsh in *.
      change (average 0 (Z.of_nat 0)) with (Ok (Int 0)) in Hal, Hac, Hash.
      repeat split; congruence.
    + intros Hne.
      assert (0 < total_posts s) as Hpos
        by (rewrite Hn; destruct (posts e); [done|cbn; lia]).
      unfold average in Hal, Hac, Hash.
      by destruct (Z.ltb_spec 0 (total_posts s)); [|lia].
Qed.

(** X23. The statistics follow [add_post]: when [add_post] returns, the
    next [get_stats] counts one post more than the one before, each total
    has grown by the counter of the new post, and the cache is reported
    empty. *)
Theorem get_stats_after_add_post e pid kwargs now e' s s' :
  add_post pid kwargs now e = (Ok tt, e') ->
  get_stats e = Ok s -> get_stats e' = Ok s' ->
  exists p,
    dict_get pid (posts e') = Some p /\
    total_posts s' = total_posts s + 1 /\
    total_likes s' = total_likes s + likes p /\
    total_comments s' = total_comments s + comments p /\
    total_shares s' = total_shares s + shares p /\
    cache_size s' = 0.
Proof.
  intros Ha Hs Hs'.
  destruct (get_stats_Ok e s Hs) as (Hn & Hl & Hc & Hsh & _).
  destruct (get_stats_Ok e' s' Hs')
    as (Hn' & Hl' & Hc' & Hsh' & _ & _ & _ & Hcs).
  revert Ha. unfold add_post, dict_mem.
  destruct (bind_call kwargs); [|done].
  destruct (dict_get pid (posts e)) eqn:Hget; [done|].
  destruct (Post_new pid kwargs now) as [p|]; [|done].
  intros [= <-].
  cbn [posts ranking_cache _invalidate_cache set_posts] in *. exists p.
  split; [apply dict_get_set_eq|].
  rewrite Hn', Hl', Hc', Hsh', Hcs, Hn, Hl, Hc, Hsh.
  rewrite !sum_of_set_fresh by done.
  assert (length (dict_set pid p (posts e)) = S (length (posts e))) as ->.
  { rewrite <-(length_fmap fst), dict_set_keys. unfold dict_mem.
    rewrite Hget, length_app, length_fmap. cbn. lia. }
  repeat split; lia.
Qed.

Lemma get_stats_after_add_post_witness :
  exists s s',
    get_stats store_a = Ok s /\ get_stats store_ab = Ok s' /\
    total_posts s = 1 /\ total_likes s = 100 /\
    avg_likes_per_post s' = Float 55%float /\
    total_posts s' = total_posts s + 1 /\
    total_likes s' = total_likes s + 10.
Proof.
  pose (s := match get_stats store_a with
             | Ok s => s
             | Raise _ => mkStats 0 0 0 0 (Int 0) (Int 0) (Int 0) 0 0%float
             end).
  pose (s' := match get_stats store_ab with
              | Ok s => s
              | Raise _ => mkStats 0 0 0 0 (Int 0) (Int 0) (Int 0) 0 0%float
              end).
  assert (get_stats store_a = Ok s) as Hs by (vm_compute; reflexivity).
  assert (get_stats store_ab = Ok s') as Hs' by (vm_compute; reflexivity).
  exists s, s'. split; [exact Hs|]. split; [exact Hs'|].
  split; [reflexivity|]. split; [reflexivity|]. split; [reflexivity|].
  destruct (get_stats_after_add_post store_a "b" [kw_likes 10] 0%float
              store_ab s s' eq_refl Hs Hs')
    as (p & Hp & Hn & Hl & _).
  split; [exact Hn|]. rewrite Hl.
  vm_compute in Hp. injection Hp as <-. reflexivity.
Defined.

(** * A batch of new posts *)

(** [add_post] for each dict of a batch, one after the other. *)
Fixpoint add_each (posts_data : list (list kwarg)) (now : float)
    (e : RankingEngine) : RankingEngine :=
  match posts_data with
  | [] => e
  | d :: rest =>
      match pop_post_id d with
      | Ok (pid, copy) => add_each rest now (add_post pid copy now e).2
      | Raise _ => e
      end
  end.

Lemma pop_post_id_no_id d pid copy :
  pop_post_id d = Ok (pid, copy) -> existsb is_post_id_kw copy = false.
Proof.
  unfold pop_post_id. destruct (fold_left _ d None); [|done].
  intros [= _ <-]. apply not_true_is_false. intros H.
  apply existsb_exists in H as (k & Hin & Hk).
  apply filter_In in Hin as [_ Hn]. by rewrite Hk in Hn.
Qed.

Lemma batch_add_loop_is_add_each posts_data now e1 e2 :
  posts e1 = posts e2 ->
  Forall describes_post posts_data ->
  NoDup (omap (supplied sel_post_id) posts_data) ->
  (forall pid, pid ∈ omap (supplied sel_post_id) posts_data ->
     dict_get pid (posts e2) = None) ->
  (batch_add_loop posts_data now e1).1 = Ok tt /\
  posts (batch_add_loop posts_data now e1).2
  = posts (add_each posts_data now e2).
Proof.
  intros He Hd. revert e1 e2 He.
  induction Hd as [|d rest Hd Hrest IH]; intros e1 e2 He Hnd Hfresh; [done|].
  destruct (describes_post_built d now Hd) as (pid & p & Hpid & Hb).
  unfold post_of_data in Hb. cbn [batch_add_loop add_each].
  destruct (pop_post_id d) as [[pid' copy]|] eqn:Hpop; [|done]. cbn in Hb.
  destruct (Post_new pid' copy now) as [p'|] eqn:Hnew; [|done]. cbn in Hb.
  injection Hb as -> ->.
  cbn [omap list_omap] in Hnd, Hfresh. rewrite Hpid in Hnd, Hfresh.
  apply NoDup_cons in Hnd as [Hnotin Hnd].
  unfold add_post, bind_call, dict_mem.
  rewrite (pop_post_id_no_id _ _ _ Hpop), Hnew.
  rewrite (Hfresh pid) by apply list_elem_of_here. cbn [snd].
  apply IH.
  - cbn. by rewrite He.
  - done.
  - intros pid' Hin. cbn. rewrite dict_get_set_ne.
    + apply Hfresh. by apply list_elem_of_further.
    + intros ->. done.
Qed.

(** X24. A batch of dicts that describe posts, with ids that differ from
    one another and from the stored ids, leaves the store that [add_post]
    for each dict in turn leaves: the same posts under the same ids, in the
    same order. *)
Theorem batch_of_new_posts_is_repeated_add posts_data now e :
  Forall describes_post posts_data ->
  NoDup (omap (supplied sel_post_id) posts_data) ->
  (forall pid, pid ∈ omap (supplied sel_post_id) posts_data ->
     dict_get pid (posts e) = None) ->
  exists e',
    batch_add_posts posts_data now e = (Ok tt, e') /\
    posts e' = posts (add_each posts_data now e).
Proof.
  intros Hd Hnd Hfresh.
  destruct (batch_add_loop_is_add_each posts_data now e e eq_refl Hd Hnd
              Hfresh) as [Hok Hposts].
  unfold batch_add_posts.
  destruct (batch_add_loop posts_data now e) as [[[]|] e1]; [|done].
  eexists. split; [done|]. exact Hposts.
Qed.

Lemma batch_of_new_posts_is_repeated_add_witness :
  exists e',
    batch_add_posts [[kw_post_id "x"; kw_likes 1]; [kw_post_id "y"]] 0%float
      store_a = (Ok tt, e') /\
    posts e'
    = posts (add_post "y" [] 0%float
               (add_post "x" [kw_likes 1] 0%float store_a).2).2 /\
    (posts e').*1 = ["a"; "x"; "y"].
Proof.
  destruct (batch_of_new_posts_is_repeated_add
              [[kw_post_id "x"; kw_likes 1]; [kw_post_id "y"]] 0%float
              store_a) as (e' & Hrun & Hposts).
  { by repeat constructor. }
  { cbn. apply NoDup_cons. split; [|apply NoDup_singleton].
    intros H%list_elem_of_singleton. discriminate. }
  { cbn. intros pid [->|[->|[]%elem_of_nil]%elem_of_cons]%elem_of_cons;
      reflexivity. }
  exists e'. split; [exact Hrun|]. split; [exact Hposts|].
  rewrite Hposts. reflexivity.
Defined.

(** * What the streaming selector returns, on every sequence *)

Section HeapForall.
Context {A : Type}.
Variable lt : A -> A -> result bool.
Variable P : A -> Prop.

Lemma getitem_Forall (h : list A) i x :
  Forall P h -> heapq.getitem h i = Ok x -> P x.
Proof.
  intros Hh. unfold heapq.getitem. destruct (h !! i) as [y|] eqn:E; [|done].
  intros [= <-]. by eapply Forall_lookup_1.
Qed.

Lemma setitem_Forall (h : list A) i x h' :
  Forall P h -> P x -> heapq.setitem h i x = Ok h' -> Forall P h'.
Proof.
  intros Hh Hx. unfold heapq.setitem. destruct (i <? length h)%nat; [|done].
  intros [= <-]. by apply Forall_insert.
Qed.

Lemma siftdown_loop_Forall fuel (h : list A) startpos pos x h' :
  Forall P h -> P x ->
  heapq._siftdown_loop lt fuel h startpos pos x = Ok h' -> Forall P h'.
Proof.
  revert h pos. induction fuel as [|fuel IH]; intros h pos Hh Hx;
    cbn [heapq._siftdown_loop]; [by apply setitem_Forall|].
  destruct (startpos <? pos)%nat; [|by apply setitem_Forall].
  destruct (heapq.getitem h _) as [p|] eqn:Ep; [|done].
  cbn [mbind result_bind].
  destruct (lt x p) as [[]|]; cbn [mbind result_bind];
    [|by apply setitem_Forall|done].
  destruct (heapq.setitem h pos p) as [h1|] eqn:E; [|done].
  cbn [mbind result_bind]. apply IH; [|done].
  eapply setitem_Forall; [exact Hh| |exact E]. by eapply getitem_Forall.
Qed.

Lemma siftdown_Forall (h : list A) startpos pos h' :
  Forall P h -> heapq._siftdown lt h startpos pos = Ok h' -> Forall P h'.
Proof.
  intros Hh. unfold heapq._siftdown.
  destruct (heapq.getitem h pos) as [x|] eqn:E; [|done].
  cbn [mbind result_bind]. apply siftdown_loop_Forall; [done|].
  by eapply getitem_Forall.
Qed.

Lemma siftup_loop_Forall fuel (h : list A) endpos pos h' pos' :
  Forall P h ->
  heapq._siftup_loop lt fuel h endpos pos = Ok (h', pos') -> Forall P h'.
Proof.
  revert h pos. induction fuel as [|fuel IH]; intros h pos Hh;
    cbn [heapq._siftup_loop]; [by intros [= <- _]|].
  destruct (2 * pos + 1 <? endpos)%nat; [|by intros [= <- _]].
  match goal with
  | |- context [mbind _ ?c] => destruct c as [ch|]; [|done]
  end.
  cbn [mbind result_bind].
  destruct (heapq.getitem h ch) as [c|] eqn:Ec; [|done].
  cbn [mbind result_bind].
  destruct (heapq.setitem h pos c) as [h1|] eqn:E; [|done].
  cbn [mbind result_bind]. apply IH.
  eapply setitem_Forall; [exact Hh| |exact E]. by eapply getitem_Forall.
Qed.

Lemma siftup_Forall (h : list A) pos h' :
  Forall P h -> heapq._siftup lt h pos = Ok h' -> Forall P h'.
Proof.
  intros Hh. unfold heapq._siftup.
  destruct (heapq.getitem h pos) as [x|] eqn:Ex; [|done].
  cbn [mbind result_bind].
  destruct (heapq._siftup_loop lt (length h) h (length h) pos)
    as [[h1 p1]|] eqn:E1; [|done].
  cbn [mbind result_bind fst snd].
  destruct (heapq.setitem h1 p1 x) as [h2|] eqn:E2; [|done].
  cbn [mbind result_bind]. apply siftdown_Forall.
  eapply setitem_Forall; [|by eapply getitem_Forall|exact E2].
  by eapply siftup_loop_Forall.
Qed.

Lemma heappush_Forall (h : list A) x h' :
  Forall P h -> P x -> heapq.heappush lt h x = Ok h' -> Forall P h'.
Proof.
  intros Hh Hx. unfold heapq.heappush. apply siftdown_Forall.
  apply Forall_app. split; [done|]. by constructor.
Qed.

Lemma heappushpop_Forall (h : list A) x out h' :
  Forall P h -> P x -> heapq.heappushpop lt h x = Ok (out, h') ->
  Forall P h'.
Proof.
  intros Hh Hx. destruct h as [|top h0]; cbn [heapq.heappushpop];
    [by intros [= _ <-]|].
  destruct (lt top x) as [[]|]; cbn [mbind result_bind];
    [|by intros [= _ <-]|done].
  change (heapq.setitem (top :: h0) 0 x) with (Ok (x :: h0)).
  cbn [mbind result_bind].
  destruct (heapq._siftup lt (x :: h0) 0) as [h1|] eqn:E; [|done].
  cbn [mbind result_bind]. intros [= _ <-].
  eapply siftup_Forall; [|exact E].
  apply Forall_cons in Hh as [_ Hh]. by constructor.
Qed.
End HeapForall.

(** A comparison of heap entries that returns is the comparison of their
    scores. *)
Lemma entry_lt_Ok a b c : entry_lt a b = Ok c -> c = by_score a b.
Proof.
  unfold entry_lt, by_score.
  destruct (PrimFloat.eqb a.1 b.1) eqn:E.
  - destruct (Post_eqb a.2 b.2); [|done]. intros [= <-]. symmetry.
    destruct (PrimFloat.ltb a.1 b.1) eqn:El; [|done].
    apply ltb_eqb in El. congruence.
  - by intros [= <-].
Qed.

Lemma insert_desc_r_Ok x l l' :
  insert_desc_r entry_lt x l = Ok l' -> l' = insert_desc by_score x l.
Proof.
  revert l'. induction l as [|y l IH]; intros l';
    cbn [insert_desc_r insert_desc]; [by intros [= <-]|].
  destruct (entry_lt x y) as [c|] eqn:E; [|done]. cbn [mbind result_bind].
  apply entry_lt_Ok in E as ->.
  destruct (by_score x y); [|by intros [= <-]].
  destruct (insert_desc_r entry_lt x l) as [r|]; [|done].
  cbn [mbind result_bind]. intros [= <-]. by rewrite (IH r).
Qed.

Lemma sorted_reverse_Ok l l' :
  sorted_reverse entry_lt l = Ok l' -> l' = list_sort_reverse by_score l.
Proof.
  revert l'. induction l as [|x l IH]; intros l'; cbn; [by intros [= <-]|].
  destruct (sorted_reverse entry_lt l) as [s|]; [|done]. cbn.
  intros H%insert_desc_r_Ok. by rewrite (IH s) in H.
Qed.

Lemma ltb_false_trans x y z :
  not_nan x -> not_nan y -> not_nan z ->
  PrimFloat.ltb x y = false -> PrimFloat.ltb y z = false ->
  PrimFloat.ltb x z = false.
Proof. intros Hx Hy Hz H1 H2. keys. Qed.

Lemma ltb_false_leb x y :
  not_nan x -> not_nan y -> PrimFloat.ltb x y = false ->
  PrimFloat.leb y x = true.
Proof. intros Hx Hy H1. keys. Qed.

Lemma insert_desc_by_score x l :
  not_nan x.1 -> Forall (fun sp : float * Post => not_nan sp.1) l ->
  StronglySorted (fun a b => by_score a b = false) l ->
  StronglySorted (fun a b => by_score a b = false)
    (insert_desc by_score x l).
Proof.
  intros Hx Hl Hs. induction Hs as [|y l Hs IH Hy]; cbn [insert_desc].
  - repeat constructor.
  - apply Forall_cons in Hl as [Hyn Hl].
    destruct (by_score x y) eqn:E.
    + constructor; [by apply IH|].
      rewrite insert_desc_perm. constructor; [|done].
      by apply ltb_asym.
    + constructor; [by constructor|]. constructor; [done|].
      rewrite Forall_forall in Hy, Hl. apply Forall_forall. intros z Hz.
      eapply (ltb_false_trans x.1 y.1 z.1); auto.
      by apply Hy.
Qed.

Lemma list_sort_reverse_by_score l :
  Forall (fun sp : float * Post => not_nan sp.1) l ->
  StronglySorted (fun a b => by_score a b = false)
    (list_sort_reverse by_score l).
Proof.
  induction 1 as [|x l Hx Hl IH]; [constructor|].
  change (StronglySorted (fun a b => by_score a b = false)
            (insert_desc by_score x (list_sort_reverse by_score l))).
  apply insert_desc_by_score; [done| |done].
  by rewrite list_sort_reverse_perm.
Qed.

Section Returned.
Variable M : PyMath.
Variables (algorithm_ : string) (top_k : Z) (kwargs : score_kwargs)
  (now : float).
Variable post_iterator : list Post.

(** An entry that pairs a post of the sequence with its score. *)
Definition scored_entry (sp : float * Post) : Prop :=
  sp.2 ∈ post_iterator /\
  _calculate_score M sp.2 algorithm_ kwargs now = Ok sp.1.

Lemma score_and_keep_entries h post h' :
  Forall scored_entry h -> post ∈ post_iterator ->
  score_and_keep M algorithm_ top_k kwargs now h post = Ok h' ->
  Forall scored_entry h'.
Proof.
  intros Hh Hp. unfold score_and_keep.
  destruct (_calculate_score M post algorithm_ kwargs now) as [s|] eqn:Hs;
    [|done].
  cbn [mbind result_bind].
  assert (scored_entry (s, post)) as Hsp by done.
  destruct (Z.of_nat (length h) <? top_k).
  - by apply heappush_Forall.
  - destruct (heapq.heappushpop entry_lt h (s, post)) as [[out h1]|] eqn:E;
      [|done].
    cbn. intros [= <-]. by eapply heappushpop_Forall.
Qed.

Lemma score_batch_entries batch h h' :
  Forall scored_entry h -> batch ⊆ post_iterator ->
  score_batch M algorithm_ top_k kwargs now batch h = Ok h' ->
  Forall scored_entry h'.
Proof.
  revert h. induction batch as [|p rest IH]; intros h Hh Hsub; cbn.
  - by intros [= <-].
  - destruct (score_and_keep M algorithm_ top_k kwargs now h p) as [h1|]
      eqn:E; [|done].
    cbn. apply IH.
    + eapply score_and_keep_entries; [done| |exact E].
      apply Hsub, list_elem_of_here.
    + intros x Hx. by apply Hsub, list_elem_of_further.
Qed.

(** X25. Whatever the sequence, a result that [rank_posts_streaming]
    returns pairs posts of the sequence with their scores; and when none of
    these scores is NaN, the result is in descending order of score. *)
Theorem streaming_result_is_sorted self_batch_size r :
  1 <= self_batch_size ->
  rank_posts_streaming M self_batch_size algorithm_ top_k kwargs now
    post_iterator = Ok r ->
  Forall scored_entry (top_posts r) /\
  (Forall (fun sp => not_nan sp.1) (top_posts r) ->
   forall i a b,
     top_posts r !! i = Some a -> top_posts r !! S i = Some b ->
     PrimFloat.leb b.1 a.1 = true).
Proof.
  intros Hbs. unfold rank_posts_streaming.
  rewrite batches_all by done.
  destruct (score_batch M algorithm_ top_k kwargs now post_iterator [])
    as [h|] eqn:E; [|done].
  cbn [mbind result_bind fst snd].
  destruct (sorted_reverse entry_lt h) as [top|] eqn:Es; [|done].
  cbn [mbind result_bind]. intros [= <-]. cbn [top_posts].
  apply sorted_reverse_Ok in Es as ->.
  assert (Forall scored_entry h) as Hh
    by (by eapply score_batch_entries; [constructor| |exact E]).
  split; [by rewrite list_sort_reverse_perm|].
  intros Hn i a b Ha Hb.
  pose proof (list_sort_reverse_by_score h) as Hs.
  rewrite list_sort_reverse_perm in Hn. specialize (Hs Hn).
  pose proof (StronglySorted_lookup_lt (fun a b => by_score a b = false)
                _ i (S i) a b Hs Ha Hb ltac:(lia)) as Hab.
  assert (Forall (fun sp : float * Post => not_nan sp.1)
            (list_sort_reverse by_score h)) as Hn'
    by (by rewrite list_sort_reverse_perm).
  rewrite Forall_forall in Hn'.
  apply ltb_false_leb; [| |exact Hab].
  - apply Hn'. by eapply list_elem_of_lookup_2.
  - apply Hn'. by eapply list_elem_of_lookup_2.
Qed.
End Returned.

Lemma streaming_result_is_sorted_witness :
  exists r,
    rank_posts_streaming no_math 2 "engagement_score" 3 no_kwargs 0%float
      [post_b; post_b; post_a] = Ok r /\
    (fun sp => (sp.1, post_id sp.2)) <$> top_posts r
    = [(140%float, "a"); (0%float, "b"); (0%float, "b")] /\
    forall i a b,
      top_posts r !! i = Some a -> top_posts r !! S i = Some b ->
      PrimFloat.leb b.1 a.1 = true.
Proof.
  pose (run := rank_posts_streaming no_math 2 "engagement_score" 3 no_kwargs
                 0%float [post_b; post_b; post_a]).
  pose (r := match run with Ok r => r | Raise _ => mkResult [] 0 "" 0 end).
  assert (run = Ok r) as Hrun by (vm_compute; reflexivity).
  exists r. split; [exact Hrun|]. split; [vm_compute; reflexivity|].
  destruct (streaming_result_is_sorted no_math "engagement_score" 3 no_kwargs
              0%float [post_b; post_b; post_a] 2 r ltac:(lia) Hrun)
    as [_ Hsorted].
  apply Hsorted. vm_compute. repeat constructor.
Defined.

(** * The algorithms of the configuration *)

(** X26. [get_algorithm_params] has parameters for exactly the four names
    that the engine and the streaming selector dispatch on, and the empty
    dict for every other name. The weights it records for [hybrid] are the
    defaults of the hybrid scorer; the decay rate it records for
    [time_decay] is 0.1, which is not the 0.01 the scorers use when no rate
    is given. *)
Theorem config_names_are_engine_names algorithm_ :
  (get_algorithm_params algorithm_ = [] <-> registered algorithm_ = false) /\
  dict_get "weights" (get_algorithm_params "hybrid")
  = Some (p_dict default_weights) /\
  dict_get "decay_rate" (get_algorithm_params "time_decay")
  = Some (p_float 0.1%float) /\
  PrimFloat.eqb 0.1%float (default 0.01%float (kw_decay_rate no_kwargs))
  = false.
Proof.
  split; [|by repeat split].
  unfold get_algorithm_params, registered, algorithms, ALGORITHM_PARAMS.
  cbn [dict_get existsb].
  rewrite !(String.eqb_sym _ algorithm_).
  destruct (String.eqb algorithm_ "hot_score"); [done|].
  destruct (String.eqb algorithm_ "engagement_score"); [done|].
  destruct (String.eqb algorithm_ "time_decay"); [done|].
  by destruct (String.eqb algorithm_ "hybrid").
Qed.
